(** * echarts/data/Graph: a shallow embedding of [src/data/Graph.js]

    The module keeps Node and Edge objects that point at each other and are
    mutated in place, so the embedding is a store of three arenas (nodes,
    edges, payload objects) addressed by index, and every method is a
    function in a state-and-failure monad over that store.  A [Graph] (the
    receiver [this]) is passed and returned explicitly.

    What is represented, and how:
    - a reference to a Node, an Edge or a payload object is its index in the
      arena; [===] on references is equality of indices;
    - [_nodesMap] and [_edgesMap] are finite maps from strings: own
      properties only, so a name that is a property of [Object.prototype]
      (['constructor'], ['toString'], ...) is outside the model;
    - the JSDoc types are followed: a node's [name] is a string, the
      endpoints given to [addEdge]/[getEdge]/[removeNode] are a string or a
      Node, matrix cells are numbers;
    - numbers are integers, plus [NaN] (what [+=] gives on [undefined]);
    - a callback is a pure boolean function; the calls made to it are
      returned as a log where a claim counts them;
    - the whole file runs under ['use strict'], so writing a property on a
      primitive value raises [TypeError]. *)

From stdpp Require Import base option list strings gmap.


(** ** Values *)

Abbreviation loc := nat (only parsing).

Inductive num : Type :=
  | Int (z : Z)
  | NaN.

(** The values that reach the module as [option] arguments. *)
Inductive value : Type :=
  | VUndefined
  | VNull
  | VNum (n : num)
  | VStr (s : string)
  | VObj (l : loc).

Global Instance num_eq_dec : EqDecision num.
Proof. solve_decision. Defined.

Global Instance value_eq_dec : EqDecision value.
Proof. solve_decision. Defined.

(** A payload object: its [name] property when it has one, and its numeric
    properties ([value], [inValue], [outValue], [weight]). *)
Record Obj : Type := mkObj {
  o_name : option string;
  o_props : gmap string num
}.

(** JavaScript truthiness. *)
Definition truthy (v : value) : bool :=
  match v with
  | VUndefined | VNull => false
  | VNum (Int z) => negb (Z.eqb z 0)
  | VNum NaN => false
  | VStr s => negb (String.eqb s "")
  | VObj _ => true
  end.

(** [a + b] on numbers, [undefined] being [None]. *)
Definition js_add (a b : option num) : num :=
  match a, b with
  | Some (Int x), Some (Int y) => Int (x + y)
  | _, _ => NaN
  end.

(** ** Entities *)

Module Node.
Record t : Type := mk {
  name : string;
  _option : value;
  inEdges : list loc;
  outEdges : list loc;
  edges : list loc;
  __visited : bool
}.
End Node.

Module Edge.
Record t : Type := mk {
  _option : value;
  node1 : loc;
  node2 : loc
}.
End Edge.

Record Graph : Type := mkGraph {
  _directed : bool;
  nodes : list loc;
  edges : list loc;
  _nodesMap : gmap string loc;
  _edgesMap : gmap string loc
}.

(** ** The store and the monad *)

Record Store : Type := mkStore {
  node_heap : list Node.t;
  edge_heap : list Edge.t;
  obj_heap : list Obj
}.

(** [TypeError] is the JavaScript exception.  [Dangling] (a reference that
    is not in the store) and [OutOfFuel] have no counterpart in JavaScript:
    they mark a store that no run can build and a loop bound that was too
    small. *)
Inductive failure : Type :=
  | TypeError
  | Dangling
  | OutOfFuel.

Inductive result (A : Type) : Type :=
  | Ok (a : A)
  | Fail (f : failure).
Arguments Ok {A} a.
Arguments Fail {A} f.

Definition M (A : Type) : Type := Store -> result (A * Store).

Definition ret {A} (a : A) : M A := fun s => Ok (a, s).
Definition throw {A} (f : failure) : M A := fun _ => Fail f.
Definition bind {A B} (m : M A) (k : A -> M B) : M B :=
  fun s => match m s with
           | Ok (a, s') => k a s'
           | Fail f => Fail f
           end.

Notation "'let*' x ':=' m 'in' k" := (bind m (fun x => k))
  (at level 10, x pattern, m at level 100, k at level 200).
Notation "m ';;' k" := (bind m (fun _ => k))
  (at level 100, k at level 200, right associativity).

Definition readNode (n : loc) : M Node.t :=
  fun s => match node_heap s !! n with
           | Some nd => Ok (nd, s)
           | None => Fail Dangling
           end.

Definition readEdge (e : loc) : M Edge.t :=
  fun s => match edge_heap s !! e with
           | Some ed => Ok (ed, s)
           | None => Fail Dangling
           end.

Definition readObj (l : loc) : M Obj :=
  fun s => match obj_heap s !! l with
           | Some o => Ok (o, s)
           | None => Fail Dangling
           end.

Definition modifyNode (n : loc) (f : Node.t -> Node.t) : M unit :=
  fun s => match node_heap s !! n with
           | Some nd =>
               Ok (tt, mkStore (<[n := f nd]> (node_heap s)) (edge_heap s) (obj_heap s))
           | None => Fail Dangling
           end.

Definition allocNode (nd : Node.t) : M loc :=
  fun s => Ok (length (node_heap s),
               mkStore (node_heap s ++ [nd]) (edge_heap s) (obj_heap s)).

Definition allocEdge (ed : Edge.t) : M loc :=
  fun s => Ok (length (edge_heap s),
               mkStore (node_heap s) (edge_heap s ++ [ed]) (obj_heap s)).

Definition allocObj (o : Obj) : M loc :=
  fun s => Ok (length (obj_heap s),
               mkStore (node_heap s) (edge_heap s) (obj_heap s ++ [o])).

(** ** Property access on a value *)

(** [v.name]: [TypeError] on [undefined] and [null], [undefined] on the
    other primitives (a string has no [name] property). *)
Definition getName (v : value) : M (option string) :=
  match v with
  | VUndefined | VNull => throw TypeError
  | VNum _ | VStr _ => ret None
  | VObj l => let* o := readObj l in ret (o_name o)
  end.

(** [v.p] for a numeric property [p]. *)
Definition getProp (v : value) (p : string) : M (option num) :=
  match v with
  | VUndefined | VNull => throw TypeError
  | VNum _ | VStr _ => ret None
  | VObj l => let* o := readObj l in ret (o_props o !! p)
  end.

(** [v.p = x] in strict mode: only an object can take the property. *)
Definition setProp (v : value) (p : string) (x : option num) : M unit :=
  match v with
  | VObj l =>
      fun s => match obj_heap s !! l with
               | Some o =>
                   let o' := mkObj (o_name o)
                     (match x with
                      | Some n => <[p := n]> (o_props o)
                      | None => delete p (o_props o)
                      end) in
                   Ok (tt, mkStore (node_heap s) (edge_heap s) (<[l := o']> (obj_heap s)))
               | None => Fail Dangling
               end
  | _ => throw TypeError
  end.

(** The property key that a [name] read turns into: [obj[undefined]] is
    [obj["undefined"]]. *)
Definition propKey (name : option string) : string :=
  match name with
  | Some s => s
  | None => "undefined"
  end.

(** ** Collaborators that are not in the source tree *)

(** Modelled from the spec: [util.indexOf] of zrender, the index of the
    first element identical to [x], [-1] when there is none (the "unchecked
    index lookup" of [removeEdge] and [removeNode]). *)
Fixpoint indexOf_from (l : list loc) (x : loc) (i : Z) : Z :=
  match l with
  | [] => (-1)%Z
  | y :: l' => if decide (y = x) then i else indexOf_from l' x (i + 1)%Z
  end.

Definition indexOf (l : list loc) (x : loc) : Z := indexOf_from l x 0.

(** [Array.prototype.splice(start, 1)]: a negative [start] counts from the
    end, and nothing is removed at or past the length. *)
Definition splice1 {A} (start : Z) (l : list A) : list A :=
  let len := Z.of_nat (length l) in
  let from := if (start <? 0)%Z then Z.max (len + start) 0 else Z.min start len in
  delete (Z.to_nat from) l.

(** Modelled from the spec: [Model.extend] of [../model/Model]; [new
    Graph.Node(option)] makes a fresh object and runs [init(option)] on it. *)
Definition newNode (opt : value) : M loc :=
  let* name := getName opt in
  allocNode (Node.mk (match name with Some s => s | None => "" end)
                     (if truthy opt then opt else VNull)
                     [] [] [] false).

(** Modelled from the spec: [new Graph.Edge(option)] likewise; the two
    endpoints are assigned right after the construction. *)
Definition newEdge (opt : value) (n1 n2 : loc) : M loc :=
  allocEdge (Edge.mk opt n1 n2).

(** ** Graph methods *)

Definition newGraph (directed : bool) : Graph :=
  mkGraph directed [] [] ∅ ∅.

Definition isDirected (g : Graph) : bool := _directed g.

Definition addNode (opt : value) (g : Graph) : M (loc * Graph) :=
  let* name := getName opt in
  match _nodesMap g !! propKey name with
  | Some n => ret (n, g)
  | None =>
      let* node := newNode opt in
      ret (node, mkGraph (_directed g) (nodes g ++ [node]) (edges g)
                         (<[propKey name := node]> (_nodesMap g)) (_edgesMap g))
  end.

Definition getNodeByName (name : string) (g : Graph) : option loc :=
  _nodesMap g !! name.

(** An endpoint as the callers give it: a name, a Node, or nothing
    ([undefined]). *)
Inductive nodearg : Type :=
  | ByName (s : string)
  | ByNode (n : loc)
  | NoNode.

(** [if (typeof(n) == 'string') n = this._nodesMap[n]], then [!n]. *)
Definition resolve (a : nodearg) (g : Graph) : option loc :=
  match a with
  | ByName s => _nodesMap g !! s
  | ByNode n => Some n
  | NoNode => None
  end.

Definition edgeKey (name1 name2 : string) : string :=
  name1 +:+ "-" +:+ name2.

Definition pushEdges (e : loc) (nd : Node.t) : Node.t :=
  Node.mk (Node.name nd) (Node._option nd) (Node.inEdges nd) (Node.outEdges nd)
          (Node.edges nd ++ [e]) (Node.__visited nd).

Definition pushInEdges (e : loc) (nd : Node.t) : Node.t :=
  Node.mk (Node.name nd) (Node._option nd) (Node.inEdges nd ++ [e]) (Node.outEdges nd)
          (Node.edges nd) (Node.__visited nd).

Definition pushOutEdges (e : loc) (nd : Node.t) : Node.t :=
  Node.mk (Node.name nd) (Node._option nd) (Node.inEdges nd) (Node.outEdges nd ++ [e])
          (Node.edges nd) (Node.__visited nd).

Definition addEdge (a1 a2 : nodearg) (opt : value) (g : Graph) : M (option loc * Graph) :=
  match resolve a1 g, resolve a2 g with
  | Some n1, Some n2 =>
      let* nd1 := readNode n1 in
      let* nd2 := readNode n2 in
      let key := edgeKey (Node.name nd1) (Node.name nd2) in
      match _edgesMap g !! key with
      | Some e => ret (Some e, g)
      | None =>
          let* edge := newEdge opt n1 n2 in
          (if _directed g
           then (modifyNode n1 (pushOutEdges edge);; modifyNode n2 (pushInEdges edge))
           else ret tt);;
          modifyNode n1 (pushEdges edge);;
          (if decide (n1 = n2) then ret tt else modifyNode n2 (pushEdges edge));;
          ret (Some edge,
               mkGraph (_directed g) (nodes g) (edges g ++ [edge])
                       (_nodesMap g) (<[key := edge]> (_edgesMap g)))
      end
  | _, _ => ret (None, g)
  end.

Definition spliceEdges (e : loc) (nd : Node.t) : Node.t :=
  Node.mk (Node.name nd) (Node._option nd) (Node.inEdges nd) (Node.outEdges nd)
          (splice1 (indexOf (Node.edges nd) e) (Node.edges nd)) (Node.__visited nd).

Definition spliceInEdges (e : loc) (nd : Node.t) : Node.t :=
  Node.mk (Node.name nd) (Node._option nd)
          (splice1 (indexOf (Node.inEdges nd) e) (Node.inEdges nd)) (Node.outEdges nd)
          (Node.edges nd) (Node.__visited nd).

Definition spliceOutEdges (e : loc) (nd : Node.t) : Node.t :=
  Node.mk (Node.name nd) (Node._option nd) (Node.inEdges nd)
          (splice1 (indexOf (Node.outEdges nd) e) (Node.outEdges nd))
          (Node.edges nd) (Node.__visited nd).

Definition removeEdge (edge : loc) (g : Graph) : M Graph :=
  let* ed := readEdge edge in
  let n1 := Edge.node1 ed in
  let n2 := Edge.node2 ed in
  let* nd1 := readNode n1 in
  let* nd2 := readNode n2 in
  let key := edgeKey (Node.name nd1) (Node.name nd2) in
  (if _directed g
   then (modifyNode n1 (spliceOutEdges edge);; modifyNode n2 (spliceInEdges edge))
   else ret tt);;
  modifyNode n1 (spliceEdges edge);;
  (if decide (n1 = n2) then ret tt else modifyNode n2 (spliceEdges edge));;
  ret (mkGraph (_directed g) (nodes g) (splice1 (indexOf (edges g) edge) (edges g))
               (_nodesMap g) (delete key (_edgesMap g))).

(** [if (typeof(n) !== 'string') n = n.name]. *)
Definition argName (a : nodearg) : M string :=
  match a with
  | ByName s => ret s
  | ByNode n => let* nd := readNode n in ret (Node.name nd)
  | NoNode => throw TypeError
  end.

Definition getEdge (a1 a2 : nodearg) (g : Graph) : M (option loc) :=
  let* n1 := argName a1 in
  let* n2 := argName a2 in
  if _directed g
  then ret (_edgesMap g !! edgeKey n1 n2)
  else ret (match _edgesMap g !! edgeKey n1 n2 with
            | Some e => Some e
            | None => _edgesMap g !! edgeKey n2 n1
            end).

(** The loop of [removeNode]: [for (var i = 0; i < this.edges.length;)].
    Every round either advances [i] or takes one edge out, so
    [this.edges.length] rounds are enough. *)
Fixpoint removeNode_loop (fuel : nat) (node : loc) (i : nat) (g : Graph) : M Graph :=
  match edges g !! i with
  | None => ret g
  | Some edge =>
      match fuel with
      | O => throw OutOfFuel
      | S fuel' =>
          let* ed := readEdge edge in
          if bool_decide (Edge.node1 ed = node) || bool_decide (Edge.node2 ed = node)
          then (let* g' := removeEdge edge g in removeNode_loop fuel' node i g')
          else removeNode_loop fuel' node (S i) g
      end
  end.

Definition removeNode_at (node : loc) (g : Graph) : M Graph :=
  let* nd := readNode node in
  let g1 := mkGraph (_directed g) (splice1 (indexOf (nodes g) node) (nodes g)) (edges g)
                    (delete (Node.name nd) (_nodesMap g)) (_edgesMap g) in
  removeNode_loop (length (edges g1)) node 0 g1.

Definition removeNode (node : nodearg) (g : Graph) : M Graph :=
  match node with
  | ByName s =>
      match _nodesMap g !! s with
      | Some n => removeNode_at n g
      | None => ret g
      end
  | ByNode n => removeNode_at n g
  | NoNode => throw TypeError
  end.

(** The loop of [filterNode]; [log] collects the calls [cb(node, i)] in the
    order they are made.  [this.nodes[i]] exists whenever [i < len], since
    [len] follows the length of [this.nodes]; the branch for a missing slot
    cannot be taken and is closed with [Dangling]. *)
Fixpoint filterNode_loop (fuel : nat) (cb : loc -> nat -> bool) (i len : nat)
    (g : Graph) (log : list (loc * nat)) : M (Graph * list (loc * nat)) :=
  if bool_decide (i < len) then
    match fuel with
    | O => throw OutOfFuel
    | S fuel' =>
        match nodes g !! i with
        | Some n =>
            if cb n i
            then filterNode_loop fuel' cb (S i) len g (log ++ [(n, i)])
            else (let* g' := removeNode (ByNode n) g in
                  filterNode_loop fuel' cb i (len - 1) g' (log ++ [(n, i)]))
        | None => throw Dangling
        end
    end
  else ret (g, log).

Definition filterNode (cb : loc -> nat -> bool) (g : Graph) : M (Graph * list (loc * nat)) :=
  filterNode_loop (length (nodes g)) cb 0 (length (nodes g)) g [].

(** ** Breadth-first traversal *)

Definition setVisited (b : bool) (nd : Node.t) : Node.t :=
  Node.mk (Node.name nd) (Node._option nd) (Node.inEdges nd) (Node.outEdges nd)
          (Node.edges nd) b.

(** [currentNode[edgeType]]. *)
Definition edgeList (direction : string) (nd : Node.t) : list loc :=
  if String.eqb direction "out" then Node.outEdges nd
  else if String.eqb direction "in" then Node.inEdges nd
  else Node.edges nd.

Fixpoint resetVisited (l : list loc) : M unit :=
  match l with
  | [] => ret tt
  | n :: l' => modifyNode n (setVisited false);; resetVisited l'
  end.

Definition visit_log : Type := list (loc * option loc).

(** The inner [for] over the edges of [cur].  The result says whether the
    callback asked to stop. *)
Fixpoint bfs_scan (cb : loc -> option loc -> bool) (cur : loc) (es : list loc)
    (queue : list loc) (log : visit_log) : M (bool * list loc * visit_log) :=
  match es with
  | [] => ret (false, queue, log)
  | e :: es' =>
      let* ed := readEdge e in
      let otherNode :=
        if decide (Edge.node1 ed = cur) then Edge.node2 ed else Edge.node1 ed in
      let* ond := readNode otherNode in
      if Node.__visited ond
      then bfs_scan cb cur es' queue log
      else if cb otherNode (Some cur)
           then ret (true, queue, log ++ [(otherNode, Some cur)])
           else (modifyNode otherNode (setVisited true);;
                 bfs_scan cb cur es' (queue ++ [otherNode])
                          (log ++ [(otherNode, Some cur)]))
  end.

(** [while (queue.length)]. *)
Fixpoint bfs_loop (fuel : nat) (cb : loc -> option loc -> bool) (direction : string)
    (queue : list loc) (log : visit_log) : M visit_log :=
  match queue with
  | [] => ret log
  | currentNode :: queue' =>
      match fuel with
      | O => throw OutOfFuel
      | S fuel' =>
          let* nd := readNode currentNode in
          let* r := bfs_scan cb currentNode (edgeList direction nd) queue' log in
          match r with
          | (true, _, log') => ret log'
          | (false, queue'', log') => bfs_loop fuel' cb direction queue'' log'
          end
      end
  end.

(** The queue takes the start node and then a node only when it gets
    marked, so two more rounds than there are nodes in the store are
    enough.  The result is the list of calls [cb(node, predecessor)]. *)
Definition breadthFirstTraverse (cb : loc -> option loc -> bool) (startNode : nodearg)
    (direction : string) (g : Graph) : M visit_log :=
  match resolve startNode g with
  | None => ret []
  | Some start =>
      resetVisited (nodes g);;
      if cb start None then ret [(start, None)]
      else fun s => bfs_loop (2 + length (node_heap s)) cb direction [start]
                             [(start, None)] s
  end.

(** ** clone *)

(** [graph.addNode(this.nodes[i].name, this.nodes[i].data)]: [addNode] has
    one parameter, so it receives the name, a string. *)
Fixpoint clone_nodes (l : list loc) (graph : Graph) : M Graph :=
  match l with
  | [] => ret graph
  | n :: l' =>
      let* nd := readNode n in
      let* r := addNode (VStr (Node.name nd)) graph in
      clone_nodes l' (snd r)
  end.

(** [graph.addEdge(e.node1.name, e.node2.name, e.data)]: an Edge keeps its
    payload in [$option] and has no [data] property, so the third argument
    is [undefined]. *)
Fixpoint clone_edges (l : list loc) (graph : Graph) : M Graph :=
  match l with
  | [] => ret graph
  | e :: l' =>
      let* ed := readEdge e in
      let* nd1 := readNode (Edge.node1 ed) in
      let* nd2 := readNode (Edge.node2 ed) in
      let* r := addEdge (ByName (Node.name nd1)) (ByName (Node.name nd2)) VUndefined graph in
      clone_edges l' (snd r)
  end.

Definition clone (g : Graph) : M Graph :=
  let* graph := clone_nodes (nodes g) (newGraph (_directed g)) in
  clone_edges (edges g) graph.

(** ** fromMatrix *)

Definition nameValue (name : option string) : value :=
  match name with
  | Some s => VStr s
  | None => VUndefined
  end.

(** [matrix[i][j]], [undefined] outside the row. *)
Definition cell (matrix : list (list num)) (i j : nat) : option num :=
  match matrix !! i with
  | Some row => row !! j
  | None => None
  end.

Definition numTruthy (x : option num) : bool :=
  match x with
  | Some (Int z) => negb (Z.eqb z 0)
  | _ => false
  end.

Definition isZero (x : option num) : bool :=
  match x with
  | Some (Int z) => Z.eqb z 0
  | _ => false
  end.

(** [graph.nodes[i].$option]. *)
Definition nodeOption (g : Graph) (i : nat) : M value :=
  match nodes g !! i with
  | Some n => let* nd := readNode n in ret (Node._option nd)
  | None => throw TypeError
  end.

(** [graph.nodes[i].$option.p += item]. *)
Definition accumulate (g : Graph) (i : nat) (p : string) (item : option num) : M unit :=
  let* o := nodeOption g i in
  let* old := getProp o p in
  setProp o p (Some (js_add old item)).

Fixpoint forEach {A S} (l : list A) (f : A -> S -> M S) (acc : S) : M S :=
  match l with
  | [] => ret acc
  | x :: l' => let* acc' := f x acc in forEach l' f acc'
  end.

Definition initNode (nodesData : list value) (directed : bool) (i : nat)
    (graph : Graph) : M Graph :=
  match nodesData !! i with
  | None => throw TypeError
  | Some d =>
      let* name := getName d in
      let* r := addNode (nameValue name) graph in
      let* nd := readNode (fst r) in
      setProp (Node._option nd) "value" (Some (Int 0));;
      (if directed
       then (setProp (Node._option nd) "inValue" (Some (Int 0));;
             setProp (Node._option nd) "outValue" (Some (Int 0)))
       else ret tt);;
      ret (snd r)
  end.

Definition sumCell (matrix : list (list num)) (directed : bool) (graph : Graph)
    (i j : nat) : M unit :=
  let item := cell matrix i j in
  (if directed
   then (accumulate graph i "outValue" item;; accumulate graph j "inValue" item)
   else ret tt);;
  accumulate graph i "value" item;;
  accumulate graph j "value" item.

(** [edge.$option.weight = item] on what [addEdge] returned. *)
Definition setWeight (edge : option loc) (item : option num) : M unit :=
  match edge with
  | None => throw TypeError
  | Some e => let* ed := readEdge e in setProp (Edge._option ed) "weight" item
  end.

Definition nodeArgAt (graph : Graph) (i : nat) : nodearg :=
  match nodes graph !! i with
  | Some n => ByNode n
  | None => NoNode
  end.

Definition edgeCell (matrix : list (list num)) (directed : bool) (i j : nat)
    (graph : Graph) : M Graph :=
  let item := cell matrix i j in
  if isZero item then ret graph
  else
    let n1 := nodeArgAt graph i in
    let n2 := nodeArgAt graph j in
    let* o := allocObj (mkObj None ∅) in
    let* r := addEdge n1 n2 (VObj o) graph in
    setWeight (fst r) item;;
    if negb (bool_decide (i = j)) && directed && numTruthy (cell matrix j i)
    then (let* o' := allocObj (mkObj None ∅) in
          let* r' := addEdge n2 n1 (VObj o') (snd r) in
          setWeight (fst r') (cell matrix j i);;
          ret (snd r'))
    else ret (snd r).

Definition fromMatrix (nodesData : list value) (matrix : option (list (list num)))
    (directed : bool) : M (option Graph) :=
  match matrix with
  | None => ret None
  | Some [] => ret None
  | Some ((row0 :: _) as m) =>
      if negb (bool_decide (length row0 = length m))
         || negb (bool_decide (length nodesData = length m))
      then ret None
      else
        let size := length m in
        let* graph := forEach (seq 0 size) (initNode nodesData directed)
                              (newGraph directed) in
        forEach (seq 0 size)
          (fun i _ => forEach (seq 0 size) (fun j _ => sumCell m directed graph i j) tt)
          tt;;
        let* graph := forEach (seq 0 size)
          (fun i g => forEach (seq i (size - i)) (edgeCell m directed i) g) graph in
        ret (Some graph)
  end.

(** ** The remaining methods *)

(** [Node.degree], [Node.inDegree], [Node.outDegree]. *)
Definition degree (nd : Node.t) : nat := length (Node.edges nd).
Definition inDegree (nd : Node.t) : nat := length (Node.inEdges nd).
Definition outDegree (nd : Node.t) : nat := length (Node.outEdges nd).

(** The loop of [filterEdge], as that of [filterNode]: [this.edges[i]]
    exists whenever [i < len]. *)
Fixpoint filterEdge_loop (fuel : nat) (cb : loc -> nat -> bool) (i len : nat)
    (g : Graph) (log : list (loc * nat)) : M (Graph * list (loc * nat)) :=
  if bool_decide (i < len) then
    match fuel with
    | O => throw OutOfFuel
    | S fuel' =>
        match edges g !! i with
        | Some e =>
            if cb e i
            then filterEdge_loop fuel' cb (S i) len g (log ++ [(e, i)])
            else (let* g' := removeEdge e g in
                  filterEdge_loop fuel' cb i (len - 1) g' (log ++ [(e, i)]))
        | None => throw Dangling
        end
    end
  else ret (g, log).

Definition filterEdge (cb : loc -> nat -> bool) (g : Graph) : M (Graph * list (loc * nat)) :=
  filterEdge_loop (length (edges g)) cb 0 (length (edges g)) g [].

(** [eachNode]: [for (var i = 0; i < len; i++) if (this.nodes[i]) cb(...)]
    with [len] taken once.  Here the callback may change the graph through
    its methods, so it is a function on the graph in the monad; [todo] is
    [len - i], and [log] collects the calls. *)
Fixpoint eachNode_loop (todo : nat) (cb : loc -> nat -> Graph -> M Graph) (i : nat)
    (g : Graph) (log : list (loc * nat)) : M (Graph * list (loc * nat)) :=
  match todo with
  | O => ret (g, log)
  | S todo' =>
      match nodes g !! i with
      | Some n =>
          let* g' := cb n i g in
          eachNode_loop todo' cb (S i) g' (log ++ [(n, i)])
      | None => eachNode_loop todo' cb (S i) g log
      end
  end.

Definition eachNode (cb : loc -> nat -> Graph -> M Graph) (g : Graph)
    : M (Graph * list (loc * nat)) :=
  eachNode_loop (length (nodes g)) cb 0 g [].

Fixpoint eachEdge_loop (todo : nat) (cb : loc -> nat -> Graph -> M Graph) (i : nat)
    (g : Graph) (log : list (loc * nat)) : M (Graph * list (loc * nat)) :=
  match todo with
  | O => ret (g, log)
  | S todo' =>
      match edges g !! i with
      | Some e =>
          let* g' := cb e i g in
          eachEdge_loop todo' cb (S i) g' (log ++ [(e, i)])
      | None => eachEdge_loop todo' cb (S i) g log
      end
  end.

Definition eachEdge (cb : loc -> nat -> Graph -> M Graph) (g : Graph)
    : M (Graph * list (loc * nat)) :=
  eachEdge_loop (length (edges g)) cb 0 g [].

(** [clear]: both sequences emptied, both indices replaced. *)
Definition clear (g : Graph) : Graph :=
  mkGraph (_directed g) [] [] ∅ ∅.

(** * Vocabulary of the properties *)

(** Stores of the same shape: the mutators of adjacency lists change node
    records in place and nothing else; the names stay. *)
Definition shape_eq (s s' : Store) : Prop :=
  length (node_heap s') = length (node_heap s)
  /\ edge_heap s' = edge_heap s
  /\ obj_heap s' = obj_heap s
  /\ Node.name <$> node_heap s' = Node.name <$> node_heap s.

(** A store that grew: the old references still lead to the same edges, and
    no node went away. *)
Definition store_le (s s' : Store) : Prop :=
  length (node_heap s) <= length (node_heap s')
  /\ forall e ed, edge_heap s !! e = Some ed -> edge_heap s' !! e = Some ed.

(** The references that are in the store. *)
Definition validNode (s : Store) (n : loc) : bool :=
  bool_decide (n < length (node_heap s)).

Definition validEdge (s : Store) (e : loc) : bool :=
  match edge_heap s !! e with
  | Some ed => validNode s (Edge.node1 ed) && validNode s (Edge.node2 ed)
  | None => false
  end.

(** Well-formed graphs: what every graph built through the methods
    satisfies, as far as the theorems need it.  No node is listed twice, and
    every listed node and edge (with its two endpoints) is in the store. *)
Definition wf_graph (g : Graph) (s : Store) : bool :=
  bool_decide (NoDup (nodes g))
  && forallb (validNode s) (nodes g)
  && forallb (validEdge s) (edges g).

(** The name index is keyed by the names of the nodes: every entry
    [k -> n] leads to a node whose [name] is [k].  ([addNode] breaks this
    for an option without a name: the entry goes under ["undefined"] and the
    node is named [""].) *)
Definition name_indexed (g : Graph) (s : Store) : bool :=
  forallb (fun kn => match node_heap s !! snd kn with
                     | Some nd => String.eqb (Node.name nd) (fst kn)
                     | None => false
                     end)
          (map_to_list (_nodesMap g)).

(** No node of the store has the name ["undefined"]. *)
Definition no_undefined_name (s : Store) : bool :=
  forallb (fun nd => negb (String.eqb (Node.name nd) "undefined")) (node_heap s).

(** [e] has [node] as an endpoint: [edge.node1 === node || edge.node2 === node]. *)
Definition incident (eh : list Edge.t) (node : loc) (e : loc) : bool :=
  match eh !! e with
  | Some ed => bool_decide (Edge.node1 ed = node) || bool_decide (Edge.node2 ed = node)
  | None => false
  end.

(** [e] touches none of the nodes in [removed]. *)
Definition untouched (eh : list Edge.t) (removed : list loc) (e : loc) : bool :=
  forallb (fun r => negb (incident eh r e)) removed.

(** The nodes of the store that a traversal has not marked. *)
Definition unvisited (s : Store) : nat :=
  length (List.filter (fun nd => negb (Node.__visited nd)) (node_heap s)).

(** The character ['-'], and the names that do not contain it. *)
Definition dash : Ascii.ascii :=
  match "-" with
  | String c _ => c
  | EmptyString => Ascii.zero
  end.

Fixpoint dashFree (s : string) : bool :=
  match s with
  | EmptyString => true
  | String c s' => negb (Ascii.eqb c dash) && dashFree s'
  end.

(** [e] leaves [n], [e] arrives at [n]. *)
Definition isSource (eh : list Edge.t) (n : loc) (e : loc) : bool :=
  match eh !! e with
  | Some ed => bool_decide (Edge.node1 ed = n)
  | None => false
  end.

Definition isTarget (eh : list Edge.t) (n : loc) (e : loc) : bool :=
  match eh !! e with
  | Some ed => bool_decide (Edge.node2 ed = n)
  | None => false
  end.

(** The adjacency lists of node [n] are what the graph's [edges] say:
    [edges] holds the edges that touch [n], [outEdges] and [inEdges] those
    that leave it and arrive at it on a directed graph and nothing on an
    undirected one, all in the order of the graph's sequence. *)
Definition adjacent (g : Graph) (eh : list Edge.t) (n : loc) (nd : Node.t) : bool :=
  bool_decide (Node.edges nd = List.filter (incident eh n) (edges g))
  && bool_decide (Node.outEdges nd =
                  if _directed g then List.filter (isSource eh n) (edges g) else [])
  && bool_decide (Node.inEdges nd =
                  if _directed g then List.filter (isTarget eh n) (edges g) else []).

Definition adjacency_ok (g : Graph) (s : Store) : bool :=
  forallb (fun n => match node_heap s !! n with
                    | Some nd => adjacent g (edge_heap s) n nd
                    | None => true
                    end)
          (seq 0 (length (node_heap s))).

(** A consistent graph: well-formed, no edge listed twice, and every node
    of the store with the adjacency lists the graph gives it. *)
Definition consistent (g : Graph) (s : Store) : bool :=
  wf_graph g s && bool_decide (NoDup (edges g)) && adjacency_ok g s.

(** What [addEdge] does to the record of node [m] when it links [n1] to
    [n2] by the new edge [e], and what [removeEdge] does to it. *)
Definition linkNode (directed : bool) (n1 n2 e m : loc) (nd : Node.t) : Node.t :=
  Node.mk (Node.name nd) (Node._option nd)
    (Node.inEdges nd ++ if directed && bool_decide (n2 = m) then [e] else [])
    (Node.outEdges nd ++ if directed && bool_decide (n1 = m) then [e] else [])
    (Node.edges nd ++ if bool_decide (n1 = m) || bool_decide (n2 = m) then [e] else [])
    (Node.__visited nd).

Definition unlinkNode (directed : bool) (n1 n2 e m : loc) (nd : Node.t) : Node.t :=
  Node.mk (Node.name nd) (Node._option nd)
    (if directed && bool_decide (n2 = m)
     then splice1 (indexOf (Node.inEdges nd) e) (Node.inEdges nd) else Node.inEdges nd)
    (if directed && bool_decide (n1 = m)
     then splice1 (indexOf (Node.outEdges nd) e) (Node.outEdges nd) else Node.outEdges nd)
    (if bool_decide (n1 = m) || bool_decide (n2 = m)
     then splice1 (indexOf (Node.edges nd) e) (Node.edges nd) else Node.edges nd)
    (Node.__visited nd).

(** Every second element, from the first and from the second. *)
Fixpoint everyOther {A} (l : list A) : list A :=
  match l with
  | x :: _ :: l' => x :: everyOther l'
  | _ => l
  end.

Fixpoint skipped {A} (l : list A) : list A :=
  match l with
  | _ :: y :: l' => y :: skipped l'
  | _ => []
  end.

(** [s'] is [s] with every node record [nd] at [m] replaced by [F m nd]. *)
Definition nodes_map (F : loc -> Node.t -> Node.t) (s s' : Store) : Prop :=
  length (node_heap s') = length (node_heap s)
  /\ edge_heap s' = edge_heap s
  /\ obj_heap s' = obj_heap s
  /\ forall m, node_heap s' !! m = F m <$> node_heap s !! m.


(** Node [m] carries the mark of the traversal. *)
Definition marked (s : Store) (m : loc) : Prop :=
  exists nd, node_heap s !! m = Some nd /\ Node.__visited nd = true.

(** The pair index holds every edge of the graph under the key made of
    the names of its two endpoints. *)
Definition edge_indexed (g : Graph) (s : Store) : bool :=
  forallb (fun e =>
             match edge_heap s !! e with
             | Some ed =>
                 match node_heap s !! Edge.node1 ed, node_heap s !! Edge.node2 ed with
                 | Some nd1, Some nd2 =>
                     bool_decide (_edgesMap g !! edgeKey (Node.name nd1) (Node.name nd2)
                                  = Some e)
                 | _, _ => false
                 end
             | None => false
             end)
          (edges g).

(** The property names that every object inherits from [Object.prototype].
    [this._nodesMap[name]] finds a built-in value under such a name although
    the index has no entry of its own there; the finite maps of the
    embedding hold own entries only, so the properties that depend on a
    lookup missing are stated for the other names. *)
Definition inherited (name : string) : bool :=
  existsb (String.eqb name)
    ["constructor"; "hasOwnProperty"; "isPrototypeOf"; "propertyIsEnumerable";
     "toLocaleString"; "toString"; "valueOf"; "__proto__";
     "__defineGetter__"; "__defineSetter__"; "__lookupGetter__"; "__lookupSetter__"].

(** An endpoint that is a Node, no value, or a name that is not inherited. *)
Definition plainArg (a : nodearg) : bool :=
  match a with
  | ByName k => negb (inherited k)
  | ByNode _ | NoNode => true
  end.

(** * Sample graphs *)

(** The outcome of a construction that does not fail. *)
Definition run {A} (m : M A) (s : Store) (d : A) : A * Store :=
  match m s with
  | Ok r => r
  | Fail _ => (d, s)
  end.

(** Three payload objects [{name:'A'}], [{name:'B'}], [{name:'C'}]. *)
Definition store_ABC : Store :=
  mkStore [] [] [mkObj (Some "A") ∅; mkObj (Some "B") ∅; mkObj (Some "C") ∅].

(** Nodes A, B, C and edges A-B, B-C, A-C, added in this order. *)
Definition build_triangle (directed : bool) : M Graph :=
  let* r := addNode (VObj 0) (newGraph directed) in
  let* r := addNode (VObj 1) (snd r) in
  let* r := addNode (VObj 2) (snd r) in
  let* r := addEdge (ByName "A") (ByName "B") VUndefined (snd r) in
  let* r := addEdge (ByName "B") (ByName "C") VUndefined (snd r) in
  let* r := addEdge (ByName "A") (ByName "C") VUndefined (snd r) in
  ret (snd r).

Definition triangle : Graph :=
  fst (run (build_triangle false) store_ABC (newGraph false)).
Definition triangle_store : Store :=
  snd (run (build_triangle false) store_ABC (newGraph false)).

(** Nodes A and B and no edge. *)
Definition build_pair (directed : bool) : M Graph :=
  let* r := addNode (VObj 0) (newGraph directed) in
  let* r := addNode (VObj 1) (snd r) in
  ret (snd r).

Definition pairAB : Graph := fst (run (build_pair false) store_ABC (newGraph false)).
Definition pairAB_store : Store := snd (run (build_pair false) store_ABC (newGraph false)).

(** Nodes A and B and the edge A-B. *)
Definition build_edgeAB : M Graph :=
  let* g := build_pair false in
  let* r := addEdge (ByName "A") (ByName "B") VUndefined g in
  ret (snd r).

Definition edgeAB : Graph := fst (run build_edgeAB store_ABC (newGraph false)).
Definition edgeAB_store : Store := snd (run build_edgeAB store_ABC (newGraph false)).

(** Names with a dash: nodes [x] and [x-x], and nodes [a-b], [c], [a],
    [b-c]. *)
Definition store_dashed : Store :=
  mkStore [] [] [mkObj (Some "x") ∅; mkObj (Some "x-x") ∅].

Definition dashed : Graph := fst (run (build_pair false) store_dashed (newGraph false)).
Definition dashed_store : Store := snd (run (build_pair false) store_dashed (newGraph false)).

Definition store_abc : Store :=
  mkStore [] [] [mkObj (Some "a-b") ∅; mkObj (Some "c") ∅;
                 mkObj (Some "a") ∅; mkObj (Some "b-c") ∅].

Definition build_four : M Graph :=
  let* g := build_pair false in
  let* r := addNode (VObj 2) g in
  let* r := addNode (VObj 3) (snd r) in
  ret (snd r).

Definition four : Graph := fst (run build_four store_abc (newGraph false)).
Definition four_store : Store := snd (run build_four store_abc (newGraph false)).

(** Two payload objects with the same name. *)
Definition store_AA : Store :=
  mkStore [] [] [mkObj (Some "A") ∅; mkObj (Some "A") {["value" := Int 7]}].

(** The triangle as a directed graph: A->B, B->C, A->C. *)
Definition triangleD : Graph :=
  fst (run (build_triangle true) store_ABC (newGraph true)).
Definition triangleD_store : Store :=
  snd (run (build_triangle true) store_ABC (newGraph true)).

(** * Properties *)

(** ** The monad *)

Lemma bind_Ok {A B} (m : M A) (k : A -> M B) (s s' : Store) (a : A) :
  m s = Ok (a, s') -> bind m k s = k a s'.
Proof. unfold bind. by intros ->. Qed.

Lemma bind_Fail {A B} (m : M A) (k : A -> M B) (s : Store) (f : failure) :
  m s = Fail f -> bind m k s = Fail f.
Proof. unfold bind. by intros ->. Qed.

Lemma bind_inv {A B} (m : M A) (k : A -> M B) (s s' : Store) (b : B) :
  bind m k s = Ok (b, s') ->
  exists a s1, m s = Ok (a, s1) /\ k a s1 = Ok (b, s').
Proof.
  unfold bind. destruct (m s) as [[a s1]|]; [|done]. eauto.
Qed.

(** Run the first action of a sequence with a known outcome. *)
Ltac mstep H := rewrite (bind_Ok _ _ _ _ _ H).

(** ** [indexOf] and [splice] *)

Lemma indexOf_from_first (pre post : list loc) (x : loc) (k : Z) :
  x ∉ pre ->
  indexOf_from (pre ++ x :: post) x k = (k + Z.of_nat (length pre))%Z.
Proof.
  revert k. induction pre as [|y pre IH]; intros k Hx; simpl.
  - rewrite decide_True by done. lia.
  - apply not_elem_of_cons in Hx as [Hne Hx].
    rewrite decide_False by congruence.
    rewrite IH by done. lia.
Qed.

Lemma splice1_nat {A} (i : nat) (l : list A) :
  i <= length l -> splice1 (Z.of_nat i) l = delete i l.
Proof.
  intros Hi. unfold splice1.
  destruct (Z.ltb_spec (Z.of_nat i) 0) as [?|_]; [lia|].
  f_equal. lia.
Qed.

(** Taking out the first occurrence: [l.splice(indexOf(l, x), 1)]. *)
Lemma splice1_indexOf (pre post : list loc) (x : loc) :
  x ∉ pre ->
  splice1 (indexOf (pre ++ x :: post) x) (pre ++ x :: post) = pre ++ post.
Proof.
  intros Hx. unfold indexOf. rewrite indexOf_from_first by done.
  rewrite Z.add_0_l, splice1_nat.
  - apply delete_middle.
  - rewrite length_app. lia.
Qed.

(** ** Stores of the same shape *)

Lemma shape_eq_refl s : shape_eq s s.
Proof. by repeat split. Qed.

Lemma shape_eq_trans s1 s2 s3 : shape_eq s1 s2 -> shape_eq s2 s3 -> shape_eq s1 s3.
Proof.
  intros (?&?&?&?) (?&?&?&?). repeat split; congruence.
Qed.

Lemma modifyNode_ok (n : loc) (f : Node.t -> Node.t) (s : Store) :
  n < length (node_heap s) ->
  (forall nd, Node.name (f nd) = Node.name nd) ->
  exists s', modifyNode n f s = Ok (tt, s') /\ shape_eq s s'.
Proof.
  intros Hn Hf. unfold modifyNode.
  destruct (lookup_lt_is_Some_2 _ _ Hn) as [nd Hnd]. rewrite Hnd.
  eexists; split; [reflexivity|].
  repeat split; simpl; [apply length_insert|].
  rewrite list_fmap_insert, Hf. apply list_insert_id.
  by rewrite list_lookup_fmap, Hnd.
Qed.

Lemma readNode_ok (n : loc) (s : Store) :
  n < length (node_heap s) ->
  exists nd, node_heap s !! n = Some nd /\ readNode n s = Ok (nd, s).
Proof.
  intros Hn. unfold readNode.
  destruct (lookup_lt_is_Some_2 _ _ Hn) as [nd Hnd].
  exists nd. by rewrite Hnd.
Qed.

(** ** Well-formed graphs *)

Lemma validNode_shape s s' n : shape_eq s s' -> validNode s' n = validNode s n.
Proof. intros (Hl&_&_). unfold validNode. by rewrite Hl. Qed.

Lemma validEdge_shape s s' e : shape_eq s s' -> validEdge s' e = validEdge s e.
Proof.
  intros Hs. pose proof Hs as (_&He&_). unfold validEdge. rewrite He.
  destruct (edge_heap s !! e); [|done].
  by rewrite !(validNode_shape s s').
Qed.

Lemma forallb_validNode_shape s s' l :
  shape_eq s s' -> forallb (validNode s') l = forallb (validNode s) l.
Proof.
  intros Hs. induction l as [|x l IH]; simpl; [done|].
  by rewrite IH, (validNode_shape s s').
Qed.

Lemma forallb_validEdge_shape s s' l :
  shape_eq s s' -> forallb (validEdge s') l = forallb (validEdge s) l.
Proof.
  intros Hs. induction l as [|x l IH]; simpl; [done|].
  by rewrite IH, (validEdge_shape s s').
Qed.

(** ** removeEdge *)

Lemma removeEdge_ok (edge : loc) (g : Graph) (s : Store) :
  validEdge s edge = true ->
  exists g' s',
    removeEdge edge g s = Ok (g', s')
    /\ shape_eq s s'
    /\ _directed g' = _directed g
    /\ nodes g' = nodes g
    /\ _nodesMap g' = _nodesMap g
    /\ edges g' = splice1 (indexOf (edges g) edge) (edges g).
Proof.
  unfold validEdge, validNode. intros Hv.
  destruct (edge_heap s !! edge) as [ed|] eqn:Hed; [|done].
  apply andb_prop in Hv as [H1 H2].
  apply bool_decide_eq_true in H1, H2.
  destruct (readNode_ok _ _ H1) as (nd1 & _ & Hr1).
  destruct (readNode_ok _ _ H2) as (nd2 & _ & Hr2).
  assert (readEdge edge s = Ok (ed, s)) as Hre by (unfold readEdge; by rewrite Hed).
  unfold removeEdge. mstep Hre. mstep Hr1. mstep Hr2.
  assert (exists sa, (if _directed g
              then (modifyNode (Edge.node1 ed) (spliceOutEdges edge);;
                    modifyNode (Edge.node2 ed) (spliceInEdges edge))
              else ret tt) s = Ok (tt, sa) /\ shape_eq s sa) as (sa & Ha & Hsa).
  { destruct (_directed g).
    - destruct (modifyNode_ok (Edge.node1 ed) (spliceOutEdges edge) s H1) as (s1 & E1 & S1);
        [done|].
      pose proof S1 as (L1&_&_).
      destruct (modifyNode_ok (Edge.node2 ed) (spliceInEdges edge) s1) as (s2 & E2 & S2);
        [lia|done|].
      exists s2. mstep E1. eauto using shape_eq_trans.
    - exists s. split; [done|apply shape_eq_refl]. }
  mstep Ha. pose proof Hsa as (La&_&_).
  destruct (modifyNode_ok (Edge.node1 ed) (spliceEdges edge) sa) as (sb & Hb & Hsb);
    [lia|done|].
  mstep Hb. pose proof Hsb as (Lb&_&_).
  assert (exists sc, (if decide (Edge.node1 ed = Edge.node2 ed) then ret tt
              else modifyNode (Edge.node2 ed) (spliceEdges edge)) sb = Ok (tt, sc)
              /\ shape_eq sb sc) as (sc & Hc & Hsc).
  { destruct (decide _).
    - exists sb. split; [done|apply shape_eq_refl].
    - apply modifyNode_ok; [lia|done]. }
  mstep Hc. unfold ret.
  eexists _, sc. split; [reflexivity|].
  split; [eauto using shape_eq_trans|]. by simpl.
Qed.

(** ** removeNode *)

Lemma removeNode_loop_eq (fuel : nat) (node : loc) (i : nat) (g : Graph) :
  removeNode_loop fuel node i g =
  match edges g !! i with
  | None => ret g
  | Some edge =>
      match fuel with
      | O => throw OutOfFuel
      | S fuel' =>
          let* ed := readEdge edge in
          if bool_decide (Edge.node1 ed = node) || bool_decide (Edge.node2 ed = node)
          then (let* g' := removeEdge edge g in removeNode_loop fuel' node i g')
          else removeNode_loop fuel' node (S i) g
      end
  end.
Proof. by destruct fuel. Qed.

Lemma forallb_app_true {A} (p : A -> bool) (l1 l2 : list A) :
  forallb p (l1 ++ l2) = true <-> forallb p l1 = true /\ forallb p l2 = true.
Proof. rewrite forallb_app. apply andb_true_iff. Qed.

(** The scan of [removeNode], started at position [length pre] when the
    edges before it do not touch [node]: it keeps those, and of the rest
    exactly the edges that do not touch [node]. *)
Lemma removeNode_loop_ok (node : loc) (rest : list loc) :
  forall (fuel : nat) (pre : list loc) (g : Graph) (s : Store),
    edges g = pre ++ rest ->
    forallb (validEdge s) (edges g) = true ->
    Forall (fun e => incident (edge_heap s) node e = false) pre ->
    length rest <= fuel ->
    exists g' s',
      removeNode_loop fuel node (length pre) g s = Ok (g', s')
      /\ shape_eq s s'
      /\ _directed g' = _directed g
      /\ nodes g' = nodes g
      /\ _nodesMap g' = _nodesMap g
      /\ edges g' = pre ++ List.filter (fun e => negb (incident (edge_heap s) node e)) rest.
Proof.
  induction rest as [|x rest IH]; intros fuel pre g s Hg Hv Hpre Hfuel.
  - rewrite removeNode_loop_eq, Hg, app_nil_r.
    rewrite lookup_ge_None_2 by lia.
    exists g, s. split; [done|]. split; [apply shape_eq_refl|].
    simpl. by rewrite Hg.
  - rewrite removeNode_loop_eq, Hg.
    rewrite list_lookup_middle by done.
    destruct fuel as [|fuel]; [simpl in Hfuel; lia|].
    assert (validEdge s x = true) as Hx.
    { rewrite Hg in Hv. apply forallb_app_true in Hv as [_ Hv].
      simpl in Hv. by apply andb_prop in Hv as [? _]. }
    pose proof Hx as Hx'. unfold validEdge in Hx'.
    destruct (edge_heap s !! x) as [ed|] eqn:Hed; [|done].
    assert (readEdge x s = Ok (ed, s)) as Hre by (unfold readEdge; by rewrite Hed).
    mstep Hre.
    assert (incident (edge_heap s) node x =
            bool_decide (Edge.node1 ed = node) || bool_decide (Edge.node2 ed = node)) as Hinc
      by (unfold incident; by rewrite Hed).
    rewrite <- Hinc. simpl List.filter.
    destruct (incident (edge_heap s) node x) eqn:Hix; simpl negb; cbv iota.
    + destruct (removeEdge_ok x g s Hx) as (g1 & s1 & Hrm & Hs1 & Hd1 & Hn1 & Hm1 & He1).
      mstep Hrm.
      assert (x ∉ pre) as Hnotin.
      { intros Hin. rewrite Forall_forall in Hpre. specialize (Hpre _ Hin). congruence. }
      rewrite Hg, splice1_indexOf in He1 by done.
      pose proof Hs1 as (_ & Heh & _).
      destruct (IH fuel pre g1 s1) as (g' & s' & Hloop & Hs' & Hd' & Hn' & Hm' & He').
      * done.
      * rewrite (forallb_validEdge_shape s s1) by done.
        rewrite He1. rewrite Hg in Hv.
        apply forallb_app_true in Hv as [Hv1 Hv2]. apply forallb_app_true.
        split; [done|]. simpl in Hv2. by apply andb_prop in Hv2 as [_ ?].
      * by rewrite Heh.
      * simpl in Hfuel. lia.
      * exists g', s'. rewrite Hloop. rewrite Heh in He'.
        split; [done|]. split; [eauto using shape_eq_trans|].
        repeat split; congruence.
    + destruct (IH fuel (pre ++ [x]) g s) as (g' & s' & Hloop & Hs' & Hd' & Hn' & Hm' & He').
      * by rewrite <- app_assoc.
      * done.
      * apply Forall_app. split; [done|]. by apply Forall_singleton.
      * simpl in Hfuel. lia.
      * rewrite length_app in Hloop. simpl in Hloop.
        replace (length pre + 1) with (S (length pre)) in Hloop by lia.
        exists g', s'. rewrite Hloop, He', <- app_assoc.
        split; [done|]. split; [done|]. repeat split; done.
Qed.

Lemma wf_graph_inv (g : Graph) (s : Store) :
  wf_graph g s = true ->
  NoDup (nodes g)
  /\ forallb (validNode s) (nodes g) = true
  /\ forallb (validEdge s) (edges g) = true.
Proof.
  unfold wf_graph. intros H.
  apply andb_prop in H as [H H3]. apply andb_prop in H as [H1 H2].
  apply bool_decide_eq_true in H1. done.
Qed.

Lemma forallb_elem {A} (p : A -> bool) (l : list A) (x : A) :
  forallb p l = true -> x ∈ l -> p x = true.
Proof.
  intros H Hx. rewrite forallb_forall in H. apply H. by apply list_elem_of_In.
Qed.

(** What [removeNode] does, in full, when [node] first occurs in [nodes]
    after [pre]. *)
Lemma removeNode_at_ok (node : loc) (g : Graph) (s : Store) (pre post : list loc) :
  forallb (validNode s) (nodes g) = true ->
  forallb (validEdge s) (edges g) = true ->
  nodes g = pre ++ node :: post ->
  node ∉ pre ->
  exists g' s' nd,
    node_heap s !! node = Some nd
    /\ removeNode_at node g s = Ok (g', s')
    /\ shape_eq s s'
    /\ _directed g' = _directed g
    /\ nodes g' = pre ++ post
    /\ _nodesMap g' = delete (Node.name nd) (_nodesMap g)
    /\ edges g' = List.filter (fun e => negb (incident (edge_heap s) node e)) (edges g).
Proof.
  intros Hvn Hve Hsplit Hpre.
  assert (validNode s node = true) as Hv.
  { apply (forallb_elem _ _ _ Hvn). rewrite Hsplit. set_solver. }
  apply bool_decide_eq_true in Hv.
  destruct (readNode_ok _ _ Hv) as (nd & Hnd' & Hrn).
  unfold removeNode_at. mstep Hrn.
  match goal with |- context [removeNode_loop _ _ _ ?g1] => set (G1 := g1) end.
  destruct (removeNode_loop_ok node (edges G1) (length (edges G1)) [] G1 s)
    as (g' & s' & Hloop & Hs' & Hd' & Hn' & Hm' & He'); try done.
  exists g', s', nd.
  split; [done|]. split; [exact Hloop|].
  do 2 (split; [done|]).
  split; [|by split].
  rewrite Hn'. simpl. rewrite Hsplit. by apply splice1_indexOf.
Qed.

Lemma forallb_filter_true {A} (p q : A -> bool) (l : list A) :
  forallb p l = true -> forallb p (List.filter q l) = true.
Proof.
  induction l as [|x l IH]; simpl; [done|].
  intros H. apply andb_prop in H as [Hx Hl].
  destruct (q x); simpl; rewrite ?Hx; auto.
Qed.

Lemma filter_filter_andb {A} (p q : A -> bool) (l : list A) :
  List.filter q (List.filter p l) = List.filter (fun x => p x && q x) l.
Proof.
  induction l as [|x l IH]; simpl; [done|].
  destruct (p x); simpl; [destruct (q x)|]; by rewrite IH.
Qed.

(** ** filterNode *)

Lemma filterNode_loop_eq (fuel : nat) (cb : loc -> nat -> bool) (i len : nat)
    (g : Graph) (log : list (loc * nat)) :
  filterNode_loop fuel cb i len g log =
  if bool_decide (i < len) then
    match fuel with
    | O => throw OutOfFuel
    | S fuel' =>
        match nodes g !! i with
        | Some n =>
            if cb n i
            then filterNode_loop fuel' cb (S i) len g (log ++ [(n, i)])
            else (let* g' := removeNode (ByNode n) g in
                  filterNode_loop fuel' cb i (len - 1) g' (log ++ [(n, i)]))
        | None => throw Dangling
        end
    end
  else ret (g, log).
Proof. by destruct fuel. Qed.

Section filterNode_pure.
Variable cb : loc -> nat -> bool.
Variable p : loc -> bool.
Hypothesis cb_node : forall n i, cb n i = p n.

(** The pass of [filterNode], resumed at slot [length pre] when the nodes
    before it have been kept. *)
Lemma filterNode_loop_ok (rest : list loc) :
  forall (fuel : nat) (pre : list loc) (g : Graph) (s : Store) (log : list (loc * nat)),
    nodes g = pre ++ rest ->
    Forall (fun n => p n = true) pre ->
    forallb (validNode s) (nodes g) = true ->
    forallb (validEdge s) (edges g) = true ->
    length rest <= fuel ->
    exists g' s' log',
      filterNode_loop fuel cb (length pre) (length pre + length rest) g log s
        = Ok (g', log', s')
      /\ shape_eq s s'
      /\ _directed g' = _directed g
      /\ nodes g' = pre ++ List.filter p rest
      /\ map fst log' = map fst log ++ rest
      /\ edges g' =
           List.filter (untouched (edge_heap s) (List.filter (fun n => negb (p n)) rest))
                       (edges g).
Proof.
  induction rest as [|x rest IH]; intros fuel pre g s log Hg Hpre Hvn Hve Hfuel.
  - rewrite filterNode_loop_eq. cbn [length].
    rewrite bool_decide_eq_false_2 by lia.
    exists g, s, log. split; [done|]. split; [apply shape_eq_refl|].
    split; [done|]. split; [by rewrite Hg|]. split; [by rewrite app_nil_r|].
    simpl. clear. induction (edges g) as [|e l IHl]; simpl; [done|]. by rewrite <- IHl.
  - rewrite filterNode_loop_eq. cbn [length].
    rewrite bool_decide_eq_true_2 by lia.
    destruct fuel as [|fuel]; [simpl in Hfuel; lia|].
    rewrite Hg, list_lookup_middle by done.
    rewrite cb_node. simpl List.filter.
    destruct (p x) eqn:Hpx; simpl negb; cbv iota.
    + destruct (IH fuel (pre ++ [x]) g s (log ++ [(x, length pre)]))
        as (g' & s' & log' & Hloop & Hs' & Hd' & Hn' & Hl' & He').
      * by rewrite <- app_assoc.
      * apply Forall_app. split; [done|]. by apply Forall_singleton.
      * done.
      * done.
      * simpl in Hfuel. lia.
      * rewrite length_app in Hloop. simpl in Hloop.
        replace (length pre + 1) with (S (length pre)) in Hloop by lia.
        replace (S (length pre) + length rest) with (length pre + S (length rest))
          in Hloop by lia.
        exists g', s', log'. split; [done|]. split; [done|]. split; [done|].
        split; [by rewrite Hn', <- app_assoc|].
        split; [|done].
        rewrite Hl', map_app, <- app_assoc. done.
    + assert (x ∉ pre) as Hnotin.
      { intros Hin. rewrite Forall_forall in Hpre. specialize (Hpre _ Hin). congruence. }
      destruct (removeNode_at_ok x g s pre rest Hvn Hve Hg Hnotin)
        as (g1 & s1 & nd & _ & Hrm & Hs1 & Hd1 & Hn1 & _ & He1).
      assert (removeNode (ByNode x) g s = Ok (g1, s1)) as Hrm' by exact Hrm.
      mstep Hrm'.
      pose proof Hs1 as (_ & Heh & _).
      destruct (IH fuel pre g1 s1 (log ++ [(x, length pre)]))
        as (g' & s' & log' & Hloop & Hs' & Hd' & Hn' & Hl' & He').
      * done.
      * done.
      * rewrite (forallb_validNode_shape s s1), Hn1 by done.
        rewrite Hg in Hvn. apply forallb_app_true in Hvn as [H1 H2].
        apply forallb_app_true. split; [done|].
        simpl in H2. by apply andb_prop in H2 as [_ ?].
      * rewrite (forallb_validEdge_shape s s1), He1 by done.
        by apply forallb_filter_true.
      * simpl in Hfuel. lia.
      * replace (length pre + S (length rest) - 1) with (length pre + length rest) by lia.
        exists g', s', log'. split; [done|].
        split; [eauto using shape_eq_trans|]. split; [congruence|].
        split; [done|].
        split; [by rewrite Hl', map_app, <- app_assoc|].
        rewrite He', He1, Heh, filter_filter_andb. done.
Qed.
End filterNode_pure.

(** ** addNode and addEdge *)

(** A [name] read looks at the payload objects only and changes nothing. *)
Lemma getName_inv (v : value) (s s' : Store) (r : option string) :
  getName v s = Ok (r, s') ->
  s' = s /\ forall t, obj_heap t = obj_heap s -> getName v t = Ok (r, t).
Proof.
  destruct v as [| | |?|l]; simpl; unfold throw, ret; try done.
  - intros [= <- <-]. done.
  - intros [= <- <-]. done.
  - unfold bind, readObj, ret.
    destruct (obj_heap s !! l) as [o|] eqn:Ho; [|done].
    intros [= <- <-]. split; [done|]. intros t Ht. by rewrite Ht, Ho.
Qed.

Lemma lookup_name_shape (s s' : Store) (n : loc) (nd : Node.t) :
  Node.name <$> node_heap s' = Node.name <$> node_heap s ->
  node_heap s !! n = Some nd ->
  exists nd', node_heap s' !! n = Some nd' /\ Node.name nd' = Node.name nd.
Proof.
  intros Hn Hnd.
  assert ((Node.name <$> node_heap s') !! n = Some (Node.name nd)) as H
    by (by rewrite Hn, list_lookup_fmap, Hnd).
  rewrite list_lookup_fmap in H.
  destruct (node_heap s' !! n) as [nd'|]; [|done].
  exists nd'. split; [done|]. by injection H.
Qed.

Lemma readNode_Some (n : loc) (s : Store) (nd : Node.t) :
  node_heap s !! n = Some nd -> readNode n s = Ok (nd, s).
Proof. unfold readNode. by intros ->. Qed.

Lemma addEdge_existing (a1 a2 : nodearg) (opt : value) (g : Graph) (s : Store)
    (n1 n2 : loc) (nd1 nd2 : Node.t) (e : loc) :
  resolve a1 g = Some n1 -> resolve a2 g = Some n2 ->
  node_heap s !! n1 = Some nd1 -> node_heap s !! n2 = Some nd2 ->
  _edgesMap g !! edgeKey (Node.name nd1) (Node.name nd2) = Some e ->
  addEdge a1 a2 opt g s = Ok (Some e, g, s).
Proof.
  intros R1 R2 H1 H2 He. unfold addEdge. rewrite R1, R2.
  mstep (readNode_Some _ _ _ H1). mstep (readNode_Some _ _ _ H2).
  by rewrite He.
Qed.

Lemma addEdge_new (a1 a2 : nodearg) (opt : value) (g : Graph) (s : Store)
    (n1 n2 : loc) (nd1 nd2 : Node.t) :
  resolve a1 g = Some n1 -> resolve a2 g = Some n2 ->
  node_heap s !! n1 = Some nd1 -> node_heap s !! n2 = Some nd2 ->
  _edgesMap g !! edgeKey (Node.name nd1) (Node.name nd2) = None ->
  exists s',
    addEdge a1 a2 opt g s =
      Ok (Some (length (edge_heap s)),
          mkGraph (_directed g) (nodes g) (edges g ++ [length (edge_heap s)])
                  (_nodesMap g)
                  (<[edgeKey (Node.name nd1) (Node.name nd2) := length (edge_heap s)]>
                     (_edgesMap g)),
          s')
    /\ edge_heap s' = edge_heap s ++ [Edge.mk opt n1 n2]
    /\ obj_heap s' = obj_heap s
    /\ Node.name <$> node_heap s' = Node.name <$> node_heap s.
Proof.
  intros R1 R2 H1 H2 He. unfold addEdge. rewrite R1, R2.
  mstep (readNode_Some _ _ _ H1). mstep (readNode_Some _ _ _ H2).
  rewrite He.
  set (s0 := mkStore (node_heap s) (edge_heap s ++ [Edge.mk opt n1 n2]) (obj_heap s)).
  assert (newEdge opt n1 n2 s = Ok (length (edge_heap s), s0)) as Hnew by done.
  mstep Hnew.
  assert (n1 < length (node_heap s0)) as L1 by (by apply lookup_lt_Some in H1).
  assert (n2 < length (node_heap s0)) as L2 by (by apply lookup_lt_Some in H2).
  set (e := length (edge_heap s)).
  assert (exists sa, (if _directed g
              then (modifyNode n1 (pushOutEdges e);; modifyNode n2 (pushInEdges e))
              else ret tt) s0 = Ok (tt, sa) /\ shape_eq s0 sa) as (sa & Ha & Hsa).
  { destruct (_directed g).
    - destruct (modifyNode_ok n1 (pushOutEdges e) s0 L1) as (s1 & E1 & S1); [done|].
      pose proof S1 as (K1&_).
      destruct (modifyNode_ok n2 (pushInEdges e) s1) as (s2 & E2 & S2); [lia|done|].
      exists s2. mstep E1. eauto using shape_eq_trans.
    - exists s0. split; [done|apply shape_eq_refl]. }
  mstep Ha. pose proof Hsa as (La&_).
  destruct (modifyNode_ok n1 (pushEdges e) sa) as (sb & Hb & Hsb); [lia|done|].
  mstep Hb. pose proof Hsb as (Lb&_).
  assert (exists sc, (if decide (n1 = n2) then ret tt
              else modifyNode n2 (pushEdges e)) sb = Ok (tt, sc)
              /\ shape_eq sb sc) as (sc & Hc & Hsc).
  { destruct (decide _).
    - exists sb. split; [done|apply shape_eq_refl].
    - apply modifyNode_ok; [lia|done]. }
  mstep Hc. exists sc. split; [done|].
  assert (shape_eq s0 sc) as (_ & E & O & N) by eauto using shape_eq_trans.
  by rewrite E, O, N.
Qed.

Lemma append_cons (c : Ascii.ascii) (a s : string) :
  String c a +:+ s = String c (a +:+ s).
Proof. reflexivity. Qed.

Lemma append_nil (s : string) : "" +:+ s = s.
Proof. reflexivity. Qed.

Lemma append_assoc (a b c : string) : (a +:+ b) +:+ c = a +:+ (b +:+ c).
Proof. induction a as [|x a IH]; [done|]. rewrite !append_cons. by rewrite IH. Qed.

Lemma append_length (a b : string) :
  String.length (a +:+ b) = String.length a + String.length b.
Proof. induction a as [|x a IH]; [done|]. rewrite append_cons. simpl. by rewrite IH. Qed.

Lemma edgeKey_inj (a b c d : string) :
  dashFree a = true -> dashFree c = true ->
  edgeKey a b = edgeKey c d -> a = c /\ b = d.
Proof.
  unfold edgeKey. revert c.
  induction a as [|x a IH]; intros [|y c] Ha Hc;
    rewrite ?append_cons, ?append_nil; cbn [dashFree] in *.
  - by intros [= ->].
  - intros [= <- _]. unfold dash in Hc. by rewrite Ascii.eqb_refl in Hc.
  - intros [= -> _]. unfold dash in Ha. by rewrite Ascii.eqb_refl in Ha.
  - intros [= -> H].
    apply andb_prop in Ha as [_ Ha]. apply andb_prop in Hc as [_ Hc].
    destruct (IH c Ha Hc H) as [-> ->]. done.
Qed.

(** ** The sample graphs are what their constructions return *)

Lemma samples_built :
  build_triangle false store_ABC = Ok (triangle, triangle_store)
  /\ build_pair false store_ABC = Ok (pairAB, pairAB_store)
  /\ build_edgeAB store_ABC = Ok (edgeAB, edgeAB_store)
  /\ build_pair false store_dashed = Ok (dashed, dashed_store)
  /\ build_four store_abc = Ok (four, four_store).
Proof. repeat split; vm_compute; reflexivity. Qed.

Lemma triangle_shape :
  _directed triangle = false
  /\ nodes triangle = [0; 1; 2]
  /\ edges triangle = [0; 1; 2]
  /\ Node.name <$> node_heap triangle_store = ["A"; "B"; "C"]
  /\ (fun ed => (Edge.node1 ed, Edge.node2 ed)) <$> edge_heap triangle_store
     = [(0, 1); (1, 2); (0, 2)]
  /\ Node.edges <$> node_heap triangle_store = [[0; 2]; [0; 1]; [1; 2]].
Proof. repeat split; vm_compute; reflexivity. Qed.

(** ** The claims *)

(** C6.  Calling [addNode] again with an option that reads the same name
    returns the node of the first call and changes neither the graph (so
    [nodes] does not grow) nor the store (so the second payload leaves the
    stored node as it was); the first call has appended that node to
    [nodes] or found it in the name index. *)
Theorem addNode_idempotent (opt1 opt2 : value) (g g1 : Graph) (s s1 : Store) (n : loc) :
  addNode opt1 g s = Ok (n, g1, s1) ->
  getName opt2 s = getName opt1 s ->
  addNode opt2 g1 s1 = Ok (n, g1, s1)
  /\ (nodes g1 = nodes g ++ [n] \/ nodes g1 = nodes g).
Proof.
  intros Hadd Hsame. unfold addNode in Hadd.
  apply bind_inv in Hadd as (name & s0 & Hname & Hadd).
  destruct (getName_inv _ _ _ _ Hname) as [-> Hstable].
  rewrite Hname in Hsame.
  destruct (getName_inv _ _ _ _ Hsame) as [_ Hstable2].
  destruct (_nodesMap g !! propKey name) as [n0|] eqn:Hlook.
  - injection Hadd as <- <- <-.
    split; [|by right]. unfold addNode. mstep Hsame. by rewrite Hlook.
  - apply bind_inv in Hadd as (node & s2 & Hnew & Hret).
    injection Hret as <- <- <-.
    assert (obj_heap s2 = obj_heap s) as Hobj.
    { unfold newNode in Hnew. rewrite (bind_Ok _ _ _ _ _ Hname) in Hnew.
      unfold allocNode in Hnew. by injection Hnew as _ <-. }
    split; [|by left]. unfold addNode. mstep (Hstable2 _ Hobj).
    simpl. by rewrite lookup_insert_eq.
Qed.

Lemma addNode_idempotent_witness :
  exists n g1 s1,
    addNode (VObj 0) (newGraph false) store_AA = Ok (n, g1, s1)
    /\ getName (VObj 1) store_AA = getName (VObj 0) store_AA
    /\ addNode (VObj 1) g1 s1 = Ok (n, g1, s1)
    /\ nodes g1 = [n].
Proof.
  eexists _, _, _. split; [reflexivity|]. split; [reflexivity|].
  split; [|reflexivity].
  apply (addNode_idempotent (VObj 0) (VObj 1) (newGraph false) _ store_AA _ _
           eq_refl eq_refl).
Defined.

(** C7.  On a well-formed graph, [removeNode(n)] of a listed node [n]
    returns, and afterwards [nodes] does not contain [n], the name index has
    no entry under [n]'s name, and no edge left in [edges] has [n] as
    [node1] or [node2]: [edges] keeps exactly the edges that do not touch
    [n], in their order. *)
Theorem removeNode_clears_node (g : Graph) (s : Store) (n : loc) :
  wf_graph g s = true ->
  n ∈ nodes g ->
  exists g' s' nd,
    node_heap s !! n = Some nd
    /\ removeNode (ByNode n) g s = Ok (g', s')
    /\ (n ∉ nodes g')
    /\ _nodesMap g' !! Node.name nd = None
    /\ Forall (fun e => exists ed, edge_heap s' !! e = Some ed
                                  /\ Edge.node1 ed <> n /\ Edge.node2 ed <> n) (edges g')
    /\ edges g' = List.filter (fun e => negb (incident (edge_heap s) n e)) (edges g).
Proof.
  intros Hwf Hin.
  destruct (wf_graph_inv _ _ Hwf) as (Hnd & Hvn & Hve).
  pose proof Hin as Hin'.
  apply list_elem_of_split_l in Hin' as (pre & post & Hsplit & Hpre).
  destruct (removeNode_at_ok n g s pre post Hvn Hve Hsplit Hpre)
    as (g' & s' & nd & Hlook & Hrm & Hs' & Hd' & Hn' & Hm' & He').
  exists g', s', nd.
  split; [done|]. split; [exact Hrm|].
  split.
  { rewrite Hn'. rewrite Hsplit in Hnd.
    apply NoDup_app in Hnd as (_ & Hdisj & Hnd2).
    apply NoDup_cons in Hnd2 as [Hpost _].
    rewrite elem_of_app. tauto. }
  split; [rewrite Hm'; apply lookup_delete_eq|].
  split; [|done].
  rewrite He'. destruct Hs' as (_ & Heh & _). rewrite Heh.
  apply Forall_forall. intros e He.
  apply list_elem_of_In, filter_In in He as [He Hinc].
  apply list_elem_of_In in He.
  pose proof (forallb_elem _ _ _ Hve He) as Hv. unfold validEdge in Hv.
  unfold incident in Hinc.
  destruct (edge_heap s !! e) as [ed|]; [|done].
  exists ed. split; [done|].
  apply negb_true_iff, orb_false_elim in Hinc as [H1 H2].
  apply bool_decide_eq_false in H1, H2. done.
Qed.

Lemma removeNode_clears_node_witness :
  wf_graph triangle triangle_store = true
  /\ nodes triangle = [0; 1; 2] /\ edges triangle = [0; 1; 2]
  /\ exists g' s',
       removeNode (ByNode 1) triangle triangle_store = Ok (g', s')
       /\ (1 ∉ nodes g') /\ _nodesMap g' !! "B" = None /\ edges g' = [2].
Proof.
  split; [reflexivity|]. split; [reflexivity|]. split; [reflexivity|].
  destruct (removeNode_clears_node triangle triangle_store 1)
    as (g' & s' & nd & Hnd & Hrm & Hn & Hm & _ & He).
  - reflexivity.
  - apply (list_elem_of_lookup_2 _ 1). reflexivity.
  - exists g', s'. split; [exact Hrm|]. split; [exact Hn|].
    split; [|rewrite He; reflexivity].
    injection Hnd as <-. exact Hm.
Defined.

(** C9.  With a callback that depends on the node only, [filterNode] on a
    well-formed graph returns, calls the callback on every node of the
    original sequence once and in order, and leaves in [nodes] exactly the
    nodes that satisfy it, in their order; [edges] keeps exactly the edges
    touching no removed node.  For nodes [A; B; C] and a callback false on
    [B] only this is [nodes = [A; C]] with every edge at [B] gone. *)
Theorem filterNode_keeps_satisfying (cb : loc -> nat -> bool) (p : loc -> bool)
    (g : Graph) (s : Store) :
  wf_graph g s = true ->
  (forall n i, cb n i = p n) ->
  exists g' s' calls,
    filterNode cb g s = Ok (g', calls, s')
    /\ nodes g' = List.filter p (nodes g)
    /\ map fst calls = nodes g
    /\ edges g' =
         List.filter (untouched (edge_heap s) (List.filter (fun n => negb (p n)) (nodes g)))
                     (edges g)
    /\ Forall (fun e => forall n, n ∈ nodes g -> p n = false ->
                                  incident (edge_heap s') n e = false) (edges g').
Proof.
  intros Hwf Hcb.
  destruct (wf_graph_inv _ _ Hwf) as (_ & Hvn & Hve).
  destruct (filterNode_loop_ok cb p Hcb (nodes g) (length (nodes g)) [] g s [])
    as (g' & s' & calls & Hloop & Hs' & _ & Hn' & Hc' & He'); try done.
  exists g', s', calls.
  split; [exact Hloop|]. split; [done|]. split; [done|]. split; [done|].
  rewrite He'. destruct Hs' as (_ & -> & _).
  apply Forall_forall. intros e He n Hn Hp.
  apply list_elem_of_In, filter_In in He as [_ Hun].
  unfold untouched in Hun. rewrite forallb_forall in Hun.
  apply negb_true_iff, Hun, filter_In. split; [by apply list_elem_of_In|].
  by rewrite Hp.
Qed.

Lemma filterNode_keeps_satisfying_witness :
  wf_graph triangle triangle_store = true
  /\ nodes triangle = [0; 1; 2]
  /\ exists g' s' calls,
       filterNode (fun n _ => negb (Nat.eqb n 1)) triangle triangle_store
         = Ok (g', calls, s')
       /\ nodes g' = [0; 2] /\ edges g' = [2] /\ map fst calls = [0; 1; 2].
Proof.
  split; [reflexivity|]. split; [reflexivity|].
  destruct (filterNode_keeps_satisfying (fun n _ => negb (Nat.eqb n 1))
              (fun n => negb (Nat.eqb n 1)) triangle triangle_store)
    as (g' & s' & calls & Hf & Hn & Hc & He & _).
  - reflexivity.
  - reflexivity.
  - exists g', s', calls. split; [exact Hf|].
    split; [rewrite Hn; reflexivity|].
    split; [rewrite He; reflexivity|].
    rewrite Hc; reflexivity.
Defined.

(** C5, as the code has it.  When neither the key [a.name-b.name] nor the
    key [b.name-a.name] is in the pair index and the two keys differ,
    [addEdge(a, b)] followed by [addEdge(b, a)] makes two new, distinct
    edges and appends both to [edges].  (The keys differ whenever the two
    names are distinct and have no ['-'], see [edgeKey_inj].) *)
Theorem addEdge_both_orders_distinct (g : Graph) (s : Store) (a b : loc)
    (nda ndb : Node.t) (opt1 opt2 : value) :
  node_heap s !! a = Some nda ->
  node_heap s !! b = Some ndb ->
  _edgesMap g !! edgeKey (Node.name nda) (Node.name ndb) = None ->
  _edgesMap g !! edgeKey (Node.name ndb) (Node.name nda) = None ->
  edgeKey (Node.name nda) (Node.name ndb) <> edgeKey (Node.name ndb) (Node.name nda) ->
  exists e1 g1 s1 e2 g2 s2,
    addEdge (ByNode a) (ByNode b) opt1 g s = Ok (Some e1, g1, s1)
    /\ addEdge (ByNode b) (ByNode a) opt2 g1 s1 = Ok (Some e2, g2, s2)
    /\ e1 <> e2
    /\ edges g2 = edges g ++ [e1; e2]
    /\ edge_heap s2 = edge_heap s ++ [Edge.mk opt1 a b; Edge.mk opt2 b a]
    /\ e1 = length (edge_heap s).
Proof.
  intros Ha Hb Kab Kba Hne.
  destruct (addEdge_new (ByNode a) (ByNode b) opt1 g s a b nda ndb)
    as (s1 & Hadd1 & He1 & _ & Hn1); try done.
  destruct (lookup_name_shape s s1 a nda Hn1 Ha) as (nda' & Ha' & Na).
  destruct (lookup_name_shape s s1 b ndb Hn1 Hb) as (ndb' & Hb' & Nb).
  match type of Hadd1 with _ = Ok (_, ?G, _) => set (g1 := G) in * end.
  destruct (addEdge_new (ByNode b) (ByNode a) opt2 g1 s1 b a ndb' nda')
    as (s2 & Hadd2 & He2 & _ & _); try done.
  { rewrite Na, Nb. subst g1. simpl. by rewrite lookup_insert_ne. }
  eexists _, g1, s1, _, _, s2.
  split; [exact Hadd1|]. split; [exact Hadd2|].
  split; [rewrite He1, length_app; simpl; lia|].
  split; [subst g1; simpl; by rewrite He1, <- app_assoc|].
  split; [by rewrite He2, He1, <- app_assoc|done].
Qed.

Lemma addEdge_both_orders_distinct_witness :
  exists e1 g1 s1 e2 g2 s2,
    addEdge (ByNode 0) (ByNode 1) VUndefined pairAB pairAB_store = Ok (Some e1, g1, s1)
    /\ addEdge (ByNode 1) (ByNode 0) VNull g1 s1 = Ok (Some e2, g2, s2)
    /\ e1 <> e2
    /\ edges g2 = edges pairAB ++ [e1; e2]
    /\ edge_heap s2 = edge_heap pairAB_store ++ [Edge.mk VUndefined 0 1; Edge.mk VNull 1 0]
    /\ e1 = length (edge_heap pairAB_store).
Proof.
  eapply (addEdge_both_orders_distinct pairAB pairAB_store 0 1);
    [reflexivity | reflexivity | reflexivity | reflexivity | vm_compute; discriminate].
Defined.

(** C5 as stated fails: with nodes named [x] and [x-x] both orders give the
    key [x-x-x], and the second [addEdge] returns the edge of the first. *)
Lemma addEdge_swapped_same_key :
  _directed dashed = false
  /\ nodes dashed = [0; 1] /\ edges dashed = [] /\ _edgesMap dashed = ∅
  /\ exists e g1 s1,
       addEdge (ByNode 0) (ByNode 1) VUndefined dashed dashed_store = Ok (Some e, g1, s1)
       /\ addEdge (ByNode 1) (ByNode 0) VUndefined g1 s1 = Ok (Some e, g1, s1)
       /\ edges g1 = [e].
Proof.
  do 4 (split; [reflexivity|]).
  eexists _, _, _. split; [vm_compute; reflexivity|].
  split; vm_compute; reflexivity.
Qed.

Lemma name_indexed_lookup (g : Graph) (s : Store) (k : string) (n : loc) :
  name_indexed g s = true ->
  _nodesMap g !! k = Some n ->
  exists nd, node_heap s !! n = Some nd /\ Node.name nd = k.
Proof.
  unfold name_indexed. intros H Hk.
  apply elem_of_map_to_list in Hk.
  pose proof (forallb_elem _ _ _ H Hk) as Hx. simpl in Hx.
  destruct (node_heap s !! n) as [nd|]; [|done].
  exists nd. split; [done|]. by apply String.eqb_eq.
Qed.



Lemma getEdge_eq (g : Graph) (s : Store) (a1 a2 : nodearg) (k1 k2 : string) :
  argName a1 s = Ok (k1, s) ->
  argName a2 s = Ok (k2, s) ->
  getEdge a1 a2 g s =
    Ok (if _directed g then _edgesMap g !! edgeKey k1 k2
        else match _edgesMap g !! edgeKey k1 k2 with
             | Some e => Some e
             | None => _edgesMap g !! edgeKey k2 k1
             end, s).
Proof.
  intros H1 H2. unfold getEdge. mstep H1. mstep H2. by destruct (_directed g).
Qed.




Lemma argName_node (n : loc) (s : Store) (nd : Node.t) :
  node_heap s !! n = Some nd -> argName (ByNode n) s = Ok (Node.name nd, s).
Proof. intros H. simpl. by mstep (readNode_Some _ _ _ H). Qed.

(** C10.  The pair index knows an edge by the string
    [node1.name + '-' + node2.name] alone, so names that contain ['-'] make
    different pairs of nodes collide.  For all strings [x], [y], [z] and
    nodes [a], [b], [c], [d] named [x-y], [z], [x] and [y-z]: the pairs
    [(a, b)] and [(c, d)] are different pairs of different nodes, both have
    the key [x-y-z], and when that key is free [addEdge(a, b)] makes a new
    edge from [a] to [b], after which [addEdge(c, d)] returns that same edge
    and changes nothing (no edge between [c] and [d] is made), and [getEdge]
    returns it for either pair. *)
Theorem edgeKey_collision_shares_edge (g : Graph) (s : Store) (a b c d : loc)
    (nda ndb ndc ndd : Node.t) (x y z : string) (opt opt' : value) :
  node_heap s !! a = Some nda ->
  node_heap s !! b = Some ndb ->
  node_heap s !! c = Some ndc ->
  node_heap s !! d = Some ndd ->
  Node.name nda = x +:+ "-" +:+ y ->
  Node.name ndb = z ->
  Node.name ndc = x ->
  Node.name ndd = y +:+ "-" +:+ z ->
  _edgesMap g !! (x +:+ "-" +:+ y +:+ "-" +:+ z) = None ->
  a <> c /\ b <> d
  /\ edgeKey (Node.name nda) (Node.name ndb) = x +:+ "-" +:+ y +:+ "-" +:+ z
  /\ edgeKey (Node.name ndc) (Node.name ndd) = x +:+ "-" +:+ y +:+ "-" +:+ z
  /\ exists e g1 s1,
       addEdge (ByNode a) (ByNode b) opt g s = Ok (Some e, g1, s1)
       /\ edge_heap s !! e = None
       /\ edge_heap s1 !! e = Some (Edge.mk opt a b)
       /\ edges g1 = edges g ++ [e]
       /\ addEdge (ByNode c) (ByNode d) opt' g1 s1 = Ok (Some e, g1, s1)
       /\ getEdge (ByNode a) (ByNode b) g1 s1 = Ok (Some e, s1)
       /\ getEdge (ByNode c) (ByNode d) g1 s1 = Ok (Some e, s1).
Proof.
  intros Ha Hb Hc Hd Na Nb Nc Nd Hfree.
  assert (edgeKey (Node.name nda) (Node.name ndb) = x +:+ "-" +:+ y +:+ "-" +:+ z) as Kab
    by (rewrite Na, Nb; unfold edgeKey; by rewrite !append_assoc).
  assert (edgeKey (Node.name ndc) (Node.name ndd) = x +:+ "-" +:+ y +:+ "-" +:+ z) as Kcd
    by (by rewrite Nc, Nd).
  split.
  { intros ->. rewrite Ha in Hc. injection Hc as ->. rewrite Nc in Na.
    apply (f_equal String.length) in Na. rewrite append_length in Na.
    rewrite append_cons in Na. simpl in Na. lia. }
  split.
  { intros ->. rewrite Hb in Hd. injection Hd as ->. rewrite Nb in Nd.
    apply (f_equal String.length) in Nd. rewrite append_length in Nd.
    rewrite append_cons, append_nil in Nd. simpl in Nd. lia. }
  do 2 (split; [done|]).
  destruct (addEdge_new (ByNode a) (ByNode b) opt g s a b nda ndb)
    as (s1 & Hadd & He & _ & Hn); try done.
  { by rewrite Kab. }
  rewrite Kab in Hadd.
  match type of Hadd with _ = Ok (_, ?G, _) => set (g1 := G) in * end.
  destruct (lookup_name_shape s s1 a nda Hn Ha) as (nda' & Ha' & Na').
  destruct (lookup_name_shape s s1 b ndb Hn Hb) as (ndb' & Hb' & Nb').
  destruct (lookup_name_shape s s1 c ndc Hn Hc) as (ndc' & Hc' & Nc').
  destruct (lookup_name_shape s s1 d ndd Hn Hd) as (ndd' & Hd' & Nd').
  assert (_edgesMap g1 !! (x +:+ "-" +:+ y +:+ "-" +:+ z) = Some (length (edge_heap s)))
    as Hstored by (subst g1; simpl; by rewrite lookup_insert_eq).
  exists (length (edge_heap s)), g1, s1.
  split; [exact Hadd|].
  split; [apply lookup_ge_None_2; lia|].
  split; [rewrite He, lookup_app_r by lia; by rewrite Nat.sub_diag|].
  split; [done|].
  split.
  { apply (addEdge_existing _ _ _ _ _ c d ndc' ndd'); try done.
    by rewrite Nc', Nd', Kcd. }
  split.
  - rewrite (getEdge_eq g1 s1 _ _ _ _ (argName_node _ _ _ Ha') (argName_node _ _ _ Hb')).
    rewrite Na', Nb', Kab, Hstored. by destruct (_directed g1).
  - rewrite (getEdge_eq g1 s1 _ _ _ _ (argName_node _ _ _ Hc') (argName_node _ _ _ Hd')).
    rewrite Nc', Nd', Kcd, Hstored. by destruct (_directed g1).
Qed.

Lemma edgeKey_collision_shares_edge_witness :
  0 <> 2 /\ 1 <> 3
  /\ edgeKey "a-b" "c" = "a-b-c"
  /\ edgeKey "a" "b-c" = "a-b-c"
  /\ exists e g1 s1,
       addEdge (ByNode 0) (ByNode 1) VUndefined four four_store = Ok (Some e, g1, s1)
       /\ edge_heap four_store !! e = None
       /\ edge_heap s1 !! e = Some (Edge.mk VUndefined 0 1)
       /\ edges g1 = edges four ++ [e]
       /\ addEdge (ByNode 2) (ByNode 3) VNull g1 s1 = Ok (Some e, g1, s1)
       /\ getEdge (ByNode 0) (ByNode 1) g1 s1 = Ok (Some e, s1)
       /\ getEdge (ByNode 2) (ByNode 3) g1 s1 = Ok (Some e, s1).
Proof.
  apply (edgeKey_collision_shares_edge four four_store 0 1 2 3
           (Node.mk "a-b" (VObj 0) [] [] [] false) (Node.mk "c" (VObj 1) [] [] [] false)
           (Node.mk "a" (VObj 2) [] [] [] false) (Node.mk "b-c" (VObj 3) [] [] [] false)
           "a" "b" "c" VUndefined VNull); vm_compute; reflexivity.
Defined.

(** C2, on the code.  On the undirected graph with nodes A, B, C and edges
    A-B, B-C, A-C, the traversal from A with direction [none] and a callback
    that never stops calls the callback four times: A (no predecessor), B
    and C (predecessor A), and then A again with predecessor B.  The start
    node is put in the queue without being marked, so the scan of B's edges
    finds it unvisited. *)
Theorem breadthFirstTraverse_triangle_calls :
  _directed triangle = false
  /\ nodes triangle = [0; 1; 2]
  /\ (fun ed => (Edge.node1 ed, Edge.node2 ed)) <$> edge_heap triangle_store
     = [(0, 1); (1, 2); (0, 2)]
  /\ exists s',
       breadthFirstTraverse (fun _ _ => false) (ByNode 0) "none" triangle triangle_store
       = Ok ([(0, None); (1, Some 0); (2, Some 0); (0, Some 1)], s').
Proof.
  do 3 (split; [reflexivity|]). eexists. vm_compute. reflexivity.
Qed.

(** C1, on the code.  The clone of the undirected graph with nodes A, B and
    the edge A-B has one node, whose name is the empty string, and no edge:
    [addNode] takes the name string for its option, reads [undefined] as its
    [name], and files every node under the key ["undefined"]; [addEdge] then
    finds neither endpoint name in the index. *)
Theorem clone_edgeAB_loses_names_and_edges :
  (Node.name <$> node_heap edgeAB_store) = ["A"; "B"]
  /\ nodes edgeAB = [0; 1] /\ edges edgeAB = [0]
  /\ exists g' s' n,
       clone edgeAB edgeAB_store = Ok (g', s')
       /\ _directed g' = false
       /\ nodes g' = [n]
       /\ Node.name <$> node_heap s' !! n = Some ""
       /\ _nodesMap g' = {["undefined" := n]}
       /\ edges g' = [].
Proof.
  do 3 (split; [reflexivity|]).
  eexists _, _, _. split; [vm_compute; reflexivity|].
  do 4 (split; [reflexivity|]). reflexivity.
Qed.

(** The first node that [fromMatrix] adds stops it: the option handed to
    [addNode] is the name, so the node's [$option] is a string (or [null]
    for the empty name), and [node.$option.value = 0] raises. *)
Lemma initNode_first_fails (nodesData : list value) (directed : bool) (s : Store) :
  exists f, initNode nodesData directed 0 (newGraph directed) s = Fail f.
Proof.
  unfold initNode. destruct (nodesData !! 0) as [d|]; [|by eexists].
  destruct (getName d s) as [[name s0]|f] eqn:Hname;
    [|exists f; by rewrite (bind_Fail _ _ _ _ Hname)].
  mstep Hname. destruct (getName_inv _ _ _ _ Hname) as [-> _].
  destruct name as [str|]; [|by eexists].
  set (nd := Node.mk "" (if truthy (VStr str) then VStr str else VNull) [] [] [] false).
  set (s1 := mkStore (node_heap s ++ [nd]) (edge_heap s) (obj_heap s)).
  assert (exists g1, addNode (nameValue (Some str)) (newGraph directed) s
                     = Ok (length (node_heap s), g1, s1)) as [g1 Hadd]
    by (eexists; reflexivity).
  mstep Hadd. cbn [fst snd].
  assert (readNode (length (node_heap s)) s1 = Ok (nd, s1)) as Hread.
  { apply readNode_Some. simpl. rewrite lookup_app_r by lia.
    by rewrite Nat.sub_diag. }
  mstep Hread. subst nd. cbn [Node._option truthy].
  destruct (negb (str =? "")%string); by eexists.
Qed.

(** X23.  With node data as the embedding has them, entries whose [name]
    is a string or missing (the documented shape; an entry whose [name] is
    itself an object is not represented), [fromMatrix] never returns a
    graph, whatever the matrix and the flag: it answers absent or
    fails. *)
Lemma fromMatrix_never_builds (nodesData : list value) (matrix : option (list (list num)))
    (directed : bool) (s s' : Store) (g : Graph) :
  fromMatrix nodesData matrix directed s <> Ok (Some g, s').
Proof.
  unfold fromMatrix. destruct matrix as [[|row0 m]|]; try done.
  destruct (_ || _); [done|].
  cbn [length seq forEach].
  destruct (initNode_first_fails nodesData directed s) as [f Hf].
  rewrite (bind_Fail _ _ _ _ (bind_Fail _ _ _ _ Hf)). done.
Qed.

(** C3, on the code.  [Graph.fromMatrix([{name:'A'},{name:'B'}],
    [[0,2],[2,0]], false)] passes the shape check and then raises
    [TypeError] at the first node: no graph is returned. *)
Theorem fromMatrix_AB_raises :
  fromMatrix [VObj 0; VObj 1] (Some [[Int 0; Int 2]; [Int 2; Int 0]]) false store_ABC
  = Fail TypeError.
Proof. vm_compute. reflexivity. Qed.

(** C4, as the code has it.  When the matrix is absent or empty, or its
    first row is not as long as the matrix has rows, or [nodesData] is not
    as long as the matrix has rows, [fromMatrix] returns absent and leaves
    the store as it was. *)
Theorem fromMatrix_invalid_absent (nodesData : list value)
    (matrix : option (list (list num))) (directed : bool) (s : Store) :
  matrix = None
  \/ matrix = Some []
  \/ (exists m row0, matrix = Some m /\ head m = Some row0 /\ length row0 <> length m)
  \/ (exists m, matrix = Some m /\ length nodesData <> length m) ->
  fromMatrix nodesData matrix directed s = Ok (None, s).
Proof.
  intros [->|[->|[(m & row0 & -> & Hhead & Hlen)|(m & -> & Hlen)]]]; try done.
  - destruct m as [|r m]; [done|]. injection Hhead as ->.
    unfold fromMatrix. by rewrite bool_decide_eq_false_2.
  - destruct m as [|r m]; [done|].
    unfold fromMatrix. rewrite (bool_decide_eq_false_2 _ Hlen).
    by rewrite orb_true_r.
Qed.

Lemma fromMatrix_invalid_absent_witness :
  fromMatrix [VObj 0; VObj 1] (Some [[Int 0; Int 2; Int 1]; [Int 2; Int 0; Int 1]])
             false store_ABC
  = Ok (None, store_ABC).
Proof.
  apply fromMatrix_invalid_absent. right. right. left.
  exists [[Int 0; Int 2; Int 1]; [Int 2; Int 0; Int 1]], [Int 0; Int 2; Int 1].
  split; [reflexivity|]. split; [reflexivity|]. simpl. lia.
Defined.

(** C4 as stated fails: the matrix [[1,2],[3]] has a row whose length is
    not the row count, yet it passes the check (only the first row is
    measured) and the call does not return absent. *)
Lemma fromMatrix_ragged_not_absent :
  (exists row, row ∈ [[Int 1; Int 2]; [Int 3]]
               /\ length row <> length [[Int 1; Int 2]; [Int 3]])
  /\ fromMatrix [VObj 0; VObj 1] (Some [[Int 1; Int 2]; [Int 3]]) false store_ABC
     = Fail TypeError
  /\ fromMatrix [VObj 0; VObj 1] (Some [[Int 1; Int 2]; [Int 3]]) false store_ABC
     <> Ok (None, store_ABC).
Proof.
  split.
  - exists [Int 3]. split; [|simpl; lia]. apply list_elem_of_In. simpl. auto.
  - split; [vm_compute; reflexivity|]. vm_compute. discriminate.
Qed.

(** ** Well-formedness is kept by the methods *)

Lemma wf_graph_intro (g : Graph) (s : Store) :
  NoDup (nodes g) ->
  forallb (validNode s) (nodes g) = true ->
  forallb (validEdge s) (edges g) = true ->
  wf_graph g s = true.
Proof.
  intros H1 H2 H3. unfold wf_graph. rewrite H2, H3.
  by rewrite bool_decide_eq_true_2.
Qed.

Lemma wf_newGraph (directed : bool) (s : Store) : wf_graph (newGraph directed) s = true.
Proof. apply wf_graph_intro; simpl; [constructor|done|done]. Qed.

Lemma validNode_le (s s' : Store) (n : loc) :
  store_le s s' -> validNode s n = true -> validNode s' n = true.
Proof.
  intros [Hl _]. unfold validNode. intros H%bool_decide_eq_true.
  apply bool_decide_eq_true. lia.
Qed.

Lemma validEdge_le (s s' : Store) (e : loc) :
  store_le s s' -> validEdge s e = true -> validEdge s' e = true.
Proof.
  intros Hle. pose proof Hle as [_ He]. unfold validEdge.
  destruct (edge_heap s !! e) as [ed|] eqn:Hed; [|done].
  rewrite (He _ _ Hed). intros [H1 H2]%andb_prop.
  by rewrite !(validNode_le s s').
Qed.

Lemma forallb_impl {A} (p q : A -> bool) (l : list A) :
  (forall x, p x = true -> q x = true) -> forallb p l = true -> forallb q l = true.
Proof.
  intros Hpq. rewrite !forallb_forall. auto.
Qed.

Lemma addNode_wf (opt : value) (g g' : Graph) (s s' : Store) (n : loc) :
  wf_graph g s = true ->
  addNode opt g s = Ok (n, g', s') ->
  wf_graph g' s' = true.
Proof.
  intros Hwf Hadd. unfold addNode in Hadd.
  apply bind_inv in Hadd as (name & s0 & Hname & Hadd).
  destruct (getName_inv _ _ _ _ Hname) as [-> _].
  destruct (_nodesMap g !! propKey name) as [n0|].
  { by injection Hadd as <- <- <-. }
  apply bind_inv in Hadd as (node & s2 & Hnew & Hret).
  injection Hret as <- <- <-.
  unfold newNode in Hnew. rewrite (bind_Ok _ _ _ _ _ Hname) in Hnew.
  unfold allocNode in Hnew. injection Hnew as <- <-.
  destruct (wf_graph_inv _ _ Hwf) as (Hnd & Hvn & Hve).
  match goal with |- wf_graph _ ?S = true => set (s1 := S) end.
  assert (store_le s s1) as Hle.
  { split; [|done]. subst s1. simpl. rewrite length_app. lia. }
  apply wf_graph_intro; simpl.
  - apply NoDup_app. split; [done|]. split; [|apply NoDup_singleton].
    intros x Hx ->%list_elem_of_singleton.
    pose proof (forallb_elem _ _ _ Hvn Hx) as Hv.
    apply bool_decide_eq_true in Hv. lia.
  - apply forallb_app_true. split.
    + eapply forallb_impl; [|exact Hvn]. intros x. by apply validNode_le.
    + simpl. rewrite andb_true_r. apply bool_decide_eq_true.
      subst s1. simpl. rewrite length_app. simpl. lia.
  - eapply forallb_impl; [|exact Hve]. intros x. by apply validEdge_le.
Qed.


Lemma removeNode_wf (g g' : Graph) (s s' : Store) (n : loc) :
  wf_graph g s = true ->
  n ∈ nodes g ->
  removeNode (ByNode n) g s = Ok (g', s') ->
  wf_graph g' s' = true.
Proof.
  intros Hwf Hin Hrm.
  destruct (wf_graph_inv _ _ Hwf) as (Hnd & Hvn & Hve).
  apply list_elem_of_split_l in Hin as (pre & post & Hsplit & Hpre).
  destruct (removeNode_at_ok n g s pre post Hvn Hve Hsplit Hpre)
    as (g1 & s1 & nd & _ & Hrm1 & Hs1 & _ & Hn1 & _ & He1).
  simpl in Hrm. rewrite Hrm1 in Hrm. injection Hrm as <- <-.
  rewrite Hsplit in Hnd, Hvn.
  apply wf_graph_intro.
  - rewrite Hn1. apply NoDup_app in Hnd as (H1 & H2 & H3).
    apply NoDup_cons in H3 as [_ H3]. apply NoDup_app. split; [done|].
    split; [|done]. intros x Hx Hx'. apply (H2 x Hx). by right.
  - rewrite (forallb_validNode_shape s s1), Hn1 by done.
    apply forallb_app_true in Hvn as [H1 H2]. apply forallb_app_true.
    split; [done|]. simpl in H2. by apply andb_prop in H2 as [_ ?].
  - rewrite (forallb_validEdge_shape s s1), He1 by done.
    by apply forallb_filter_true.
Qed.

(** ** clone, in general *)

Lemma addNode_string (x : string) (g : Graph) (s : Store) :
  addNode (VStr x) g s =
  match _nodesMap g !! "undefined" with
  | Some n => Ok (n, g, s)
  | None =>
      Ok (length (node_heap s),
          mkGraph (_directed g) (nodes g ++ [length (node_heap s)]) (edges g)
                  (<["undefined" := length (node_heap s)]> (_nodesMap g)) (_edgesMap g),
          mkStore (node_heap s ++ [Node.mk "" (if truthy (VStr x) then VStr x else VNull)
                                           [] [] [] false])
                  (edge_heap s) (obj_heap s))
  end.
Proof.
  unfold addNode. simpl getName. unfold bind at 1, ret at 1. unfold propKey.
  destruct (_nodesMap g !! "undefined"); reflexivity.
Qed.

(** Once a node is filed under ["undefined"], every further
    [addNode(name, data)] of [clone] returns it. *)
Lemma clone_nodes_filed (l : list loc) (graph : Graph) (s : Store) (k : loc) :
  _nodesMap graph !! "undefined" = Some k ->
  forallb (validNode s) l = true ->
  clone_nodes l graph s = Ok (graph, s).
Proof.
  intros Hk. induction l as [|n l IH]; simpl; [done|].
  intros [Hn Hl]%andb_prop. apply bool_decide_eq_true in Hn.
  destruct (readNode_ok _ _ Hn) as (nd & _ & Hr). mstep Hr.
  assert (addNode (VStr (Node.name nd)) graph s = Ok (k, graph, s)) as Hadd
    by (by rewrite addNode_string, Hk).
  mstep Hadd. by apply IH.
Qed.

Lemma clone_edges_unresolved (l : list loc) (graph : Graph) (s : Store) (k : loc) :
  _nodesMap graph = {["undefined" := k]} ->
  no_undefined_name s = true ->
  forallb (validEdge s) l = true ->
  clone_edges l graph s = Ok (graph, s).
Proof.
  intros Hmap Hno. induction l as [|e l IH]; simpl; [done|].
  intros [He Hl]%andb_prop. unfold validEdge in He.
  destruct (edge_heap s !! e) as [ed|] eqn:Hed; [|done].
  apply andb_prop in He as [H1 H2]. apply bool_decide_eq_true in H1, H2.
  assert (readEdge e s = Ok (ed, s)) as Hre by (unfold readEdge; by rewrite Hed).
  destruct (readNode_ok _ _ H1) as (nd1 & Hnd1 & Hr1).
  destruct (readNode_ok _ _ H2) as (nd2 & _ & Hr2).
  mstep Hre. mstep Hr1. mstep Hr2.
  assert (Node.name nd1 <> "undefined") as Hne.
  { unfold no_undefined_name in Hno.
    apply list_elem_of_lookup_2 in Hnd1.
    pose proof (forallb_elem _ _ _ Hno Hnd1) as Hx. simpl in Hx.
    apply negb_true_iff, String.eqb_neq in Hx. done. }
  assert (addEdge (ByName (Node.name nd1)) (ByName (Node.name nd2)) VUndefined graph s
          = Ok (None, graph, s)) as Hadd.
  { unfold addEdge, resolve. rewrite Hmap, lookup_singleton_ne by done. done. }
  mstep Hadd. by apply IH.
Qed.

(** X24.  The clone of any graph that has a node is a graph with one node,
    named by the empty string and filed under ["undefined"], and without
    edges (as long as no node is itself named ["undefined"]). *)
Lemma clone_collapses (g : Graph) (s : Store) :
  wf_graph g s = true ->
  no_undefined_name s = true ->
  nodes g <> [] ->
  exists nd,
    clone g s =
      Ok (mkGraph (_directed g) [length (node_heap s)] []
                  {["undefined" := length (node_heap s)]} ∅,
          mkStore (node_heap s ++ [nd]) (edge_heap s) (obj_heap s))
    /\ Node.name nd = "".
Proof.
  intros Hwf Hno Hne.
  destruct (wf_graph_inv _ _ Hwf) as (_ & Hvn & Hve).
  destruct (nodes g) as [|n l] eqn:Hnodes; [done|].
  simpl in Hvn. apply andb_prop in Hvn as [Hn Hl]. apply bool_decide_eq_true in Hn.
  destruct (readNode_ok _ _ Hn) as (nd & _ & Hr).
  set (nd0 := Node.mk "" (if truthy (VStr (Node.name nd)) then VStr (Node.name nd) else VNull)
                      [] [] [] false).
  set (s1 := mkStore (node_heap s ++ [nd0]) (edge_heap s) (obj_heap s)).
  set (g1 := mkGraph (_directed g) [length (node_heap s)] []
                     {["undefined" := length (node_heap s)]} ∅).
  assert (store_le s s1) as Hle.
  { split; [|done]. subst s1. simpl. rewrite length_app. lia. }
  exists nd0. split; [|done].
  unfold clone, bind. rewrite Hnodes. simpl clone_nodes.
  mstep Hr.
  assert (addNode (VStr (Node.name nd)) (newGraph (_directed g)) s = Ok (length (node_heap s), g1, s1))
    as Hadd by (by rewrite addNode_string).
  mstep Hadd. cbn [snd].
  rewrite (clone_nodes_filed l g1 s1 (length (node_heap s))).
  - apply (clone_edges_unresolved _ g1 s1 (length (node_heap s))); [done| |].
    + unfold no_undefined_name. subst s1. simpl. rewrite forallb_app.
      unfold no_undefined_name in Hno. by rewrite Hno.
    + eapply forallb_impl; [|exact Hve]. intros x. by apply validEdge_le.
  - subst g1. simpl. by rewrite lookup_singleton_eq.
  - eapply forallb_impl; [|exact Hl]. intros x. by apply validNode_le.
Qed.

(** ** The traversal stays within its loop bound *)

Lemma unvisited_mark (l : list Node.t) (n : loc) (nd : Node.t) :
  l !! n = Some nd ->
  Node.__visited nd = false ->
  length (List.filter (fun x => negb (Node.__visited x)) (<[n := setVisited true nd]> l)) + 1
  = length (List.filter (fun x => negb (Node.__visited x)) l).
Proof.
  revert n. induction l as [|y l IH]; intros [|n] Hn Hv; simpl in *; try done.
  - injection Hn as ->. rewrite Hv. simpl. lia.
  - destruct (negb (Node.__visited y)); simpl; rewrite <- (IH n Hn Hv); lia.
Qed.

Lemma unvisited_le (s : Store) : unvisited s <= length (node_heap s).
Proof. unfold unvisited. apply filter_length_le. Qed.

(** A scan that does not stop puts in the queue exactly the nodes it
    marks. *)
Lemma bfs_scan_budget (cb : loc -> option loc -> bool) (cur : loc) (es : list loc) :
  forall (queue : list loc) (log : visit_log) (s : Store),
    match bfs_scan cb cur es queue log s with
    | Ok (false, queue', _, s') =>
        length queue' + unvisited s' = length queue + unvisited s
    | Ok (true, _, _, _) => True
    | Fail f => f <> OutOfFuel
    end.
Proof.
  induction es as [|e es IH]; intros queue log s; simpl; [done|].
  unfold bind at 1, readEdge at 1.
  destruct (edge_heap s !! e) as [ed|]; [|done].
  set (other := if decide (Edge.node1 ed = cur) then Edge.node2 ed else Edge.node1 ed).
  unfold bind at 1, readNode at 1.
  destruct (node_heap s !! other) as [ond|] eqn:Hond; [|done].
  destruct (Node.__visited ond) eqn:Hv; [apply IH|].
  destruct (cb other (Some cur)); [done|].
  unfold bind at 1, modifyNode at 1. rewrite Hond.
  match goal with |- context [bfs_scan _ _ _ ?q ?l ?s1] =>
    specialize (IH q l s1); destruct (bfs_scan cb cur es q l s1) as [[[[[|] q'] l'] s']|f]
  end; try done.
  rewrite IH, length_app. unfold unvisited. simpl.
  rewrite <- (unvisited_mark (node_heap s) other ond Hond Hv). lia.
Qed.

Lemma bfs_loop_in_bound (cb : loc -> option loc -> bool) (direction : string) (fuel : nat) :
  forall (queue : list loc) (log : visit_log) (s : Store),
    length queue + unvisited s <= fuel ->
    bfs_loop fuel cb direction queue log s <> Fail OutOfFuel.
Proof.
  induction fuel as [|fuel IH]; intros [|cur queue] log s Hb; simpl in *; try done; try lia.
  unfold bind at 1, readNode at 1.
  destruct (node_heap s !! cur) as [nd|]; [|done].
  unfold bind.
  pose proof (bfs_scan_budget cb cur (edgeList direction nd) queue log s) as Hs.
  destruct (bfs_scan cb cur (edgeList direction nd) queue log s)
    as [[[[[|] q'] l'] s']|f]; simpl.
  - done.
  - apply IH. lia.
  - intros [= ->]. done.
Qed.

Lemma resetVisited_no_fuel (l : list loc) (s : Store) :
  resetVisited l s <> Fail OutOfFuel.
Proof.
  revert s. induction l as [|n l IH]; intros s; simpl; [done|].
  unfold bind, modifyNode. destruct (node_heap s !! n); [apply IH|done].
Qed.

(** [breadthFirstTraverse] never runs out of rounds, on any graph and
    store. *)
Lemma breadthFirstTraverse_in_bound (cb : loc -> option loc -> bool) (startNode : nodearg)
    (direction : string) (g : Graph) (s : Store) :
  breadthFirstTraverse cb startNode direction g s <> Fail OutOfFuel.
Proof.
  unfold breadthFirstTraverse. destruct (resolve startNode g) as [start|]; [|done].
  unfold bind. pose proof (resetVisited_no_fuel (nodes g) s) as Hr.
  destruct (resetVisited (nodes g) s) as [[[] s1]|f]; [|congruence].
  destruct (cb start None); [done|].
  apply bfs_loop_in_bound. simpl. pose proof (unvisited_le s1). lia.
Qed.

(** * Further properties of the methods *)

(** ** What the mutators do to the store, node by node *)

Lemma nodes_map_id (s : Store) : nodes_map (fun _ nd => nd) s s.
Proof.
  repeat split. intros m. by destruct (node_heap s !! m).
Qed.

Lemma nodes_map_comp (F G : loc -> Node.t -> Node.t) (s1 s2 s3 : Store) :
  nodes_map F s1 s2 -> nodes_map G s2 s3 ->
  nodes_map (fun m nd => G m (F m nd)) s1 s3.
Proof.
  intros (L1 & E1 & O1 & H1) (L2 & E2 & O2 & H2).
  repeat split; try congruence.
  intros m. rewrite H2, H1. by destruct (node_heap s1 !! m).
Qed.

Lemma nodes_map_ext (F G : loc -> Node.t -> Node.t) (s s' : Store) :
  (forall m nd, F m nd = G m nd) -> nodes_map F s s' -> nodes_map G s s'.
Proof.
  intros Hext (L & E & O & H). repeat split; try done.
  intros m. rewrite H. destruct (node_heap s !! m); simpl; by rewrite ?Hext.
Qed.

Lemma modifyNode_spec (n : loc) (f : Node.t -> Node.t) (s : Store) :
  n < length (node_heap s) ->
  exists s',
    modifyNode n f s = Ok (tt, s')
    /\ nodes_map (fun m => if decide (m = n) then f else id) s s'.
Proof.
  intros Hn. unfold modifyNode.
  destruct (lookup_lt_is_Some_2 _ _ Hn) as [nd Hnd]. rewrite Hnd.
  eexists. split; [reflexivity|]. split; [apply length_insert|].
  do 2 (split; [done|]). simpl.
  intros m. destruct (decide (m = n)) as [->|Hne].
  - by rewrite list_lookup_insert_eq, Hnd by done.
  - rewrite list_lookup_insert_ne by done. by destruct (node_heap s !! m).
Qed.

Lemma linkNode_steps (directed : bool) (n1 n2 e m : loc) (nd : Node.t) :
  (if decide (m = n2) then (if decide (n1 = n2) then id else pushEdges e) else id)
    ((if decide (m = n1) then pushEdges e else id)
       ((if decide (m = n2) then (if directed then pushInEdges e else id) else id)
          ((if decide (m = n1) then (if directed then pushOutEdges e else id) else id) nd)))
  = linkNode directed n1 n2 e m nd.
Proof.
  destruct nd as [nm op ie oe es v]. unfold linkNode.
  destruct directed, (decide (m = n1)) as [E1|E1], (decide (m = n2)) as [E2|E2],
    (decide (n1 = n2)) as [E3|E3]; try congruence;
    cbn; repeat case_bool_decide; try congruence;
    cbn; rewrite ?app_nil_r; reflexivity.
Qed.

Lemma unlinkNode_steps (directed : bool) (n1 n2 e m : loc) (nd : Node.t) :
  (if decide (m = n2) then (if decide (n1 = n2) then id else spliceEdges e) else id)
    ((if decide (m = n1) then spliceEdges e else id)
       ((if decide (m = n2) then (if directed then spliceInEdges e else id) else id)
          ((if decide (m = n1) then (if directed then spliceOutEdges e else id) else id) nd)))
  = unlinkNode directed n1 n2 e m nd.
Proof.
  destruct nd as [nm op ie oe es v]. unfold unlinkNode.
  destruct directed, (decide (m = n1)) as [E1|E1], (decide (m = n2)) as [E2|E2],
    (decide (n1 = n2)) as [E3|E3]; try congruence;
    cbn; repeat case_bool_decide; try congruence; reflexivity.
Qed.

(** The node updates of [addEdge] and of [removeEdge], the same sequence
    with [push] or [splice] for [f], [fin], [fout]. *)
Lemma link_sequence (directed : bool) (n1 n2 : loc) (f fin fout : Node.t -> Node.t)
    (s : Store) {A} (k : M A) :
  n1 < length (node_heap s) -> n2 < length (node_heap s) ->
  exists s',
    ((if directed then (modifyNode n1 fout;; modifyNode n2 fin) else ret tt);;
     modifyNode n1 f;;
     (if decide (n1 = n2) then ret tt else modifyNode n2 f);;
     k) s = k s'
    /\ nodes_map (fun m nd =>
         (if decide (m = n2) then (if decide (n1 = n2) then id else f) else id)
           ((if decide (m = n1) then f else id)
              ((if decide (m = n2) then (if directed then fin else id) else id)
                 ((if decide (m = n1) then (if directed then fout else id) else id) nd))))
         s s'.
Proof.
  intros L1 L2.
  assert (exists sa, (if directed then (modifyNode n1 fout;; modifyNode n2 fin) else ret tt) s
                     = Ok (tt, sa)
            /\ nodes_map (fun m nd =>
                 (if decide (m = n2) then (if directed then fin else id) else id)
                   ((if decide (m = n1) then (if directed then fout else id) else id) nd))
                 s sa) as (sa & Ha & Hsa).
  { destruct directed.
    - destruct (modifyNode_spec n1 fout s L1) as (s1 & E1 & S1).
      pose proof S1 as (K1 & _).
      destruct (modifyNode_spec n2 fin s1) as (s2 & E2 & S2); [lia|].
      exists s2. mstep E1. split; [done|].
      eapply nodes_map_ext; [|exact (nodes_map_comp _ _ _ _ _ S1 S2)].
      intros m nd. simpl. by repeat case_decide.
    - exists s. split; [done|].
      eapply nodes_map_ext; [|apply nodes_map_id].
      intros m nd. simpl. by repeat case_decide. }
  mstep Ha. pose proof Hsa as (La & _).
  destruct (modifyNode_spec n1 f sa) as (sb & Hb & Hsb); [lia|].
  mstep Hb. pose proof Hsb as (Lb & _).
  assert (exists sc, (if decide (n1 = n2) then ret tt else modifyNode n2 f) sb = Ok (tt, sc)
            /\ nodes_map (fun m => if decide (m = n2)
                                   then (if decide (n1 = n2) then id else f) else id)
                 sb sc) as (sc & Hc & Hsc).
  { destruct (decide (n1 = n2)) as [E|E].
    - exists sb. split; [done|].
      eapply nodes_map_ext; [|apply nodes_map_id].
      intros m nd. simpl. by repeat case_decide.
    - destruct (modifyNode_spec n2 f sb) as (sc & Hc & Hsc); [lia|].
      exists sc. split; [done|]. done. }
  mstep Hc. exists sc. split; [done|].
  eapply nodes_map_ext;
    [|exact (nodes_map_comp _ _ _ _ _ (nodes_map_comp _ _ _ _ _ Hsa Hsb) Hsc)].
  intros m nd. simpl. done.
Qed.

Lemma addEdge_new_full (a1 a2 : nodearg) (opt : value) (g : Graph) (s : Store)
    (n1 n2 : loc) (nd1 nd2 : Node.t) :
  resolve a1 g = Some n1 -> resolve a2 g = Some n2 ->
  node_heap s !! n1 = Some nd1 -> node_heap s !! n2 = Some nd2 ->
  _edgesMap g !! edgeKey (Node.name nd1) (Node.name nd2) = None ->
  exists s',
    addEdge a1 a2 opt g s =
      Ok (Some (length (edge_heap s)),
          mkGraph (_directed g) (nodes g) (edges g ++ [length (edge_heap s)])
                  (_nodesMap g)
                  (<[edgeKey (Node.name nd1) (Node.name nd2) := length (edge_heap s)]>
                     (_edgesMap g)),
          s')
    /\ nodes_map (linkNode (_directed g) n1 n2 (length (edge_heap s)))
         (mkStore (node_heap s) (edge_heap s ++ [Edge.mk opt n1 n2]) (obj_heap s)) s'.
Proof.
  intros R1 R2 H1 H2 He. unfold addEdge. rewrite R1, R2.
  mstep (readNode_Some _ _ _ H1). mstep (readNode_Some _ _ _ H2).
  rewrite He.
  set (s0 := mkStore (node_heap s) (edge_heap s ++ [Edge.mk opt n1 n2]) (obj_heap s)).
  assert (newEdge opt n1 n2 s = Ok (length (edge_heap s), s0)) as Hnew by done.
  mstep Hnew.
  assert (n1 < length (node_heap s0)) as L1 by (by apply lookup_lt_Some in H1).
  assert (n2 < length (node_heap s0)) as L2 by (by apply lookup_lt_Some in H2).
  match goal with |- context [bind _ (fun _ => bind _ (fun _ => bind _ (fun _ => ?K)))] =>
    destruct (link_sequence (_directed g) n1 n2 (pushEdges (length (edge_heap s)))
                (pushInEdges (length (edge_heap s))) (pushOutEdges (length (edge_heap s)))
                s0 K L1 L2) as (s' & Hseq & Hmap)
  end.
  exists s'. split; [exact Hseq|].
  eapply nodes_map_ext; [|exact Hmap]. intros m nd. apply linkNode_steps.
Qed.

Lemma removeEdge_full (edge : loc) (g : Graph) (s : Store) (ed : Edge.t) :
  edge_heap s !! edge = Some ed ->
  validEdge s edge = true ->
  exists s' nd1 nd2,
    node_heap s !! Edge.node1 ed = Some nd1
    /\ node_heap s !! Edge.node2 ed = Some nd2
    /\ removeEdge edge g s =
         Ok (mkGraph (_directed g) (nodes g) (splice1 (indexOf (edges g) edge) (edges g))
                     (_nodesMap g)
                     (delete (edgeKey (Node.name nd1) (Node.name nd2)) (_edgesMap g)),
             s')
    /\ nodes_map (unlinkNode (_directed g) (Edge.node1 ed) (Edge.node2 ed) edge) s s'.
Proof.
  intros Hed Hv. unfold validEdge, validNode in Hv. rewrite Hed in Hv.
  apply andb_prop in Hv as [L1 L2]. apply bool_decide_eq_true in L1, L2.
  destruct (readNode_ok _ _ L1) as (nd1 & N1 & Hr1).
  destruct (readNode_ok _ _ L2) as (nd2 & N2 & Hr2).
  assert (readEdge edge s = Ok (ed, s)) as Hre by (unfold readEdge; by rewrite Hed).
  unfold removeEdge. mstep Hre. mstep Hr1. mstep Hr2.
  match goal with |- context [bind _ (fun _ => bind _ (fun _ => bind _ (fun _ => ?K)))] =>
    destruct (link_sequence (_directed g) (Edge.node1 ed) (Edge.node2 ed)
                (spliceEdges edge) (spliceInEdges edge) (spliceOutEdges edge)
                s K L1 L2) as (s' & Hseq & Hmap)
  end.
  exists s', nd1, nd2. do 2 (split; [done|]). split; [exact Hseq|].
  eapply nodes_map_ext; [|exact Hmap]. intros m nd. apply unlinkNode_steps.
Qed.

(** ** Consistency: the adjacency lists follow the graph *)



(** Taking the first [e] out of [l] and then filtering is filtering and
    then taking the first [e] out, when [e] passes the filter; otherwise the
    filter does not see the difference. *)
Lemma filter_splice_first (p : loc -> bool) (pre post : list loc) (e : loc) :
  e ∉ pre ->
  List.filter p (pre ++ post)
  = if p e
    then splice1 (indexOf (List.filter p (pre ++ e :: post)) e)
                 (List.filter p (pre ++ e :: post))
    else List.filter p (pre ++ e :: post).
Proof.
  intros Hpre. rewrite !List.filter_app. simpl. destruct (p e) eqn:Hp; [|done].
  rewrite splice1_indexOf; [done|].
  intros Hin. apply Hpre. apply list_elem_of_In, filter_In in Hin as [Hin _].
  by apply list_elem_of_In.
Qed.

Lemma adjacent_inv (g : Graph) (eh : list Edge.t) (n : loc) (nd : Node.t) :
  adjacent g eh n nd = true <->
  Node.edges nd = List.filter (incident eh n) (edges g)
  /\ Node.outEdges nd = (if _directed g then List.filter (isSource eh n) (edges g) else [])
  /\ Node.inEdges nd = (if _directed g then List.filter (isTarget eh n) (edges g) else []).
Proof.
  unfold adjacent. rewrite !andb_true_iff, !bool_decide_eq_true. tauto.
Qed.

Lemma adjacency_ok_inv (g : Graph) (s : Store) :
  adjacency_ok g s = true <->
  forall n nd, node_heap s !! n = Some nd -> adjacent g (edge_heap s) n nd = true.
Proof.
  unfold adjacency_ok. rewrite forallb_forall. split.
  - intros H n nd Hn. specialize (H n). rewrite Hn in H. apply H.
    apply in_seq. apply lookup_lt_Some in Hn. lia.
  - intros H n _. destruct (node_heap s !! n) as [nd|] eqn:Hn; [|done]. by apply H.
Qed.

Lemma consistent_inv (g : Graph) (s : Store) :
  consistent g s = true <->
  wf_graph g s = true /\ NoDup (edges g)
  /\ forall n nd, node_heap s !! n = Some nd -> adjacent g (edge_heap s) n nd = true.
Proof.
  unfold consistent. rewrite !andb_true_iff, bool_decide_eq_true, adjacency_ok_inv. tauto.
Qed.

Lemma nodes_map_validNode (F : loc -> Node.t -> Node.t) (s s' : Store) (l : list loc) :
  nodes_map F s s' -> forallb (validNode s') l = forallb (validNode s) l.
Proof.
  intros (L & _). induction l as [|x l IH]; simpl; [done|].
  rewrite IH. unfold validNode. by rewrite L.
Qed.

Lemma nodes_map_validEdge (F : loc -> Node.t -> Node.t) (s s' : Store) (l : list loc) :
  nodes_map F s s' -> forallb (validEdge s') l = forallb (validEdge s) l.
Proof.
  intros (L & E & _). induction l as [|x l IH]; simpl; [done|].
  rewrite IH. unfold validEdge, validNode. by rewrite L, E.
Qed.

Lemma valid_edges_lt (s : Store) (l : list loc) :
  forallb (validEdge s) l = true -> Forall (fun e => e < length (edge_heap s)) l.
Proof.
  rewrite forallb_forall, Forall_forall. intros H e He.
  apply list_elem_of_In, H in He. unfold validEdge in He.
  destruct (edge_heap s !! e) eqn:Hl; [|done]. by apply lookup_lt_Some in Hl.
Qed.

Lemma filter_none {A} (p : A -> bool) (l : list A) :
  (forall x, In x l -> p x = false) -> List.filter p l = [].
Proof.
  induction l as [|x l IH]; simpl; [done|]. intros H.
  rewrite (H x) by auto. apply IH. auto.
Qed.

(** An edge of a well-formed graph does not touch a node that is not in
    the store yet. *)
Lemma valid_edges_miss_fresh (s : Store) (l : list loc) :
  forallb (validEdge s) l = true ->
  List.filter (incident (edge_heap s) (length (node_heap s))) l = []
  /\ List.filter (isSource (edge_heap s) (length (node_heap s))) l = []
  /\ List.filter (isTarget (edge_heap s) (length (node_heap s))) l = [].
Proof.
  intros Hv. rewrite forallb_forall in Hv.
  repeat split; apply filter_none; intros e He; specialize (Hv e He);
    unfold validEdge, validNode in Hv; unfold incident, isSource, isTarget;
    (destruct (edge_heap s !! e) as [ed|]; [|done]);
    apply andb_prop in Hv as [H1 H2]; apply bool_decide_eq_true in H1, H2;
    rewrite ?bool_decide_eq_false_2 by lia; done.
Qed.

Lemma addNode_consistent_aux (opt : value) (g g' : Graph) (s s' : Store) (n : loc) :
  consistent g s = true ->
  addNode opt g s = Ok (n, g', s') ->
  consistent g' s' = true.
Proof.
  intros Hc Hadd. pose proof Hadd as Hadd0.
  apply consistent_inv in Hc as (Hwf & Hnd & Hadj).
  apply consistent_inv. split; [by eapply addNode_wf|].
  unfold addNode in Hadd.
  apply bind_inv in Hadd as (name & s0 & Hname & Hadd).
  destruct (getName_inv _ _ _ _ Hname) as [-> _].
  destruct (_nodesMap g !! propKey name) as [n0|].
  { by injection Hadd as <- <- <-. }
  apply bind_inv in Hadd as (node & s2 & Hnew & Hret).
  injection Hret as <- <- <-.
  unfold newNode in Hnew. rewrite (bind_Ok _ _ _ _ _ Hname) in Hnew.
  unfold allocNode in Hnew. injection Hnew as <- <-.
  split; [done|]. simpl. intros m nd Hm.
  destruct (wf_graph_inv _ _ Hwf) as (_ & _ & Hve).
  destruct (decide (m < length (node_heap s))) as [Hlt|Hge].
  - rewrite lookup_app_l in Hm by done.
    specialize (Hadj m nd Hm). by apply adjacent_inv in Hadj; apply adjacent_inv.
  - assert (m = length (node_heap s)) as ->.
    { apply lookup_lt_Some in Hm. rewrite length_app in Hm. simpl in Hm. lia. }
    rewrite lookup_app_r, Nat.sub_diag in Hm by lia. injection Hm as <-.
    apply adjacent_inv. simpl.
    destruct (valid_edges_miss_fresh s (edges g) Hve) as (-> & -> & ->).
    by destruct (_directed g).
Qed.

Lemma addEdge_cases (a1 a2 : nodearg) (opt : value) (g g' : Graph) (s s' : Store)
    (r : option loc) :
  addEdge a1 a2 opt g s = Ok (r, g', s') ->
  (g' = g /\ s' = s
   /\ (r = None \/ exists n1 n2 nd1 nd2,
         resolve a1 g = Some n1 /\ resolve a2 g = Some n2
         /\ node_heap s !! n1 = Some nd1 /\ node_heap s !! n2 = Some nd2
         /\ _edgesMap g !! edgeKey (Node.name nd1) (Node.name nd2) = r))
  \/ exists n1 n2 nd1 nd2,
       resolve a1 g = Some n1 /\ resolve a2 g = Some n2
       /\ node_heap s !! n1 = Some nd1 /\ node_heap s !! n2 = Some nd2
       /\ _edgesMap g !! edgeKey (Node.name nd1) (Node.name nd2) = None
       /\ r = Some (length (edge_heap s))
       /\ g' = mkGraph (_directed g) (nodes g) (edges g ++ [length (edge_heap s)])
                       (_nodesMap g)
                       (<[edgeKey (Node.name nd1) (Node.name nd2) := length (edge_heap s)]>
                          (_edgesMap g))
       /\ nodes_map (linkNode (_directed g) n1 n2 (length (edge_heap s)))
            (mkStore (node_heap s) (edge_heap s ++ [Edge.mk opt n1 n2]) (obj_heap s)) s'.
Proof.
  intros Hadd.
  destruct (resolve a1 g) as [n1|] eqn:R1;
    [|unfold addEdge in Hadd; rewrite R1 in Hadd; injection Hadd as <- <- <-; left; auto].
  destruct (resolve a2 g) as [n2|] eqn:R2;
    [|unfold addEdge in Hadd; rewrite R1, R2 in Hadd; injection Hadd as <- <- <-; left; auto].
  destruct (node_heap s !! n1) as [nd1|] eqn:N1;
    [|unfold addEdge, bind, readNode in Hadd; rewrite R1, R2, N1 in Hadd; discriminate].
  destruct (node_heap s !! n2) as [nd2|] eqn:N2;
    [|unfold addEdge, bind, readNode in Hadd; rewrite R1, R2, N1, N2 in Hadd; discriminate].
  destruct (_edgesMap g !! edgeKey (Node.name nd1) (Node.name nd2)) as [e0|] eqn:Hk.
  - rewrite (addEdge_existing a1 a2 opt g s n1 n2 nd1 nd2 e0) in Hadd by done.
    injection Hadd as <- <- <-. left. do 2 (split; [done|]). right.
    exists n1, n2, nd1, nd2. done.
  - destruct (addEdge_new_full a1 a2 opt g s n1 n2 nd1 nd2) as (s1 & Hnew & Hmap);
      try done.
    rewrite Hnew in Hadd. injection Hadd as <- <- <-. right.
    exists n1, n2, nd1, nd2. done.
Qed.


Lemma removeEdge_consistent_aux (edge : loc) (g : Graph) (s : Store) (pre post : list loc) :
  consistent g s = true ->
  edges g = pre ++ edge :: post ->
  edge ∉ pre ->
  exists s' ed nd1 nd2,
    edge_heap s !! edge = Some ed
    /\ node_heap s !! Edge.node1 ed = Some nd1
    /\ node_heap s !! Edge.node2 ed = Some nd2
    /\ removeEdge edge g s =
         Ok (mkGraph (_directed g) (nodes g) (pre ++ post) (_nodesMap g)
                     (delete (edgeKey (Node.name nd1) (Node.name nd2)) (_edgesMap g)),
             s')
    /\ nodes_map (unlinkNode (_directed g) (Edge.node1 ed) (Edge.node2 ed) edge) s s'
    /\ consistent
         (mkGraph (_directed g) (nodes g) (pre ++ post) (_nodesMap g)
                  (delete (edgeKey (Node.name nd1) (Node.name nd2)) (_edgesMap g)))
         s' = true.
Proof.
  intros Hc Hsplit Hpre.
  apply consistent_inv in Hc as (Hwf & Hnd & Hadj).
  destruct (wf_graph_inv _ _ Hwf) as (Hndn & Hvn & Hve).
  assert (validEdge s edge = true) as Hv.
  { apply (forallb_elem _ _ _ Hve). rewrite Hsplit. set_solver. }
  pose proof Hv as Hv'. unfold validEdge in Hv'.
  destruct (edge_heap s !! edge) as [ed|] eqn:Hed; [|done].
  destruct (removeEdge_full edge g s ed Hed Hv) as (s' & nd1 & nd2 & N1 & N2 & Hrm & Hmap).
  rewrite Hsplit, splice1_indexOf in Hrm by done.
  exists s', ed, nd1, nd2. do 5 (split; [done|]).
  apply consistent_inv. split; [|split].
  - apply wf_graph_intro; simpl; [done| |].
    + by rewrite (nodes_map_validNode _ s s' _ Hmap).
    + rewrite (nodes_map_validEdge _ s s' _ Hmap).
      rewrite Hsplit in Hve. apply forallb_app_true in Hve as [H1 H2].
      apply forallb_app_true. split; [done|]. simpl in H2.
      by apply andb_prop in H2 as [_ ?].
  - simpl. rewrite Hsplit in Hnd. apply NoDup_app in Hnd as (H1 & H2 & H3).
    apply NoDup_cons in H3 as [_ H3]. apply NoDup_app. split; [done|].
    split; [|done]. intros x Hx Hx'. apply (H2 x Hx). by right.
  - destruct Hmap as (_ & Heh & _ & Hlook).
    intros m nd' Hm. rewrite Hlook in Hm.
    destruct (node_heap s !! m) as [nd|] eqn:Hold; [|done].
    injection Hm as <-.
    specialize (Hadj m nd Hold). apply adjacent_inv in Hadj as (A1 & A2 & A3).
    apply adjacent_inv. rewrite Heh. simpl. rewrite Hsplit in A1, A2, A3.
    rewrite !(filter_splice_first _ pre post edge Hpre).
    unfold incident at 1, isSource at 1, isTarget at 1. rewrite Hed.
    rewrite A1, A2, A3.
    split; [done|]. by destruct (_directed g).
Qed.

Lemma consistent_nodes (g : Graph) (s : Store) (l : list loc) (m1 m2 : gmap string loc) :
  consistent g s = true ->
  NoDup l -> forallb (validNode s) l = true ->
  consistent (mkGraph (_directed g) l (edges g) m1 m2) s = true.
Proof.
  intros (Hwf & Hnd & Hadj)%consistent_inv Hl Hv.
  destruct (wf_graph_inv _ _ Hwf) as (_ & _ & Hve).
  apply consistent_inv. split; [by apply wf_graph_intro|]. split; [done|].
  intros n nd Hn. specialize (Hadj n nd Hn).
  by apply adjacent_inv in Hadj; apply adjacent_inv.
Qed.

Lemma lookup_split_first (l : list loc) (i : nat) (x : loc) :
  NoDup l -> l !! i = Some x ->
  l = take i l ++ x :: drop (S i) l /\ x ∉ take i l.
Proof.
  intros Hnd Hi. pose proof (take_drop_middle l i x Hi) as Hsplit.
  split; [done|]. rewrite <- Hsplit in Hnd.
  apply NoDup_app in Hnd as (_ & H & _). intros Hin. apply (H x Hin). by left.
Qed.

Lemma removeNode_loop_consistent (node : loc) (fuel : nat) :
  forall (i : nat) (g g' : Graph) (s s' : Store),
    consistent g s = true ->
    removeNode_loop fuel node i g s = Ok (g', s') ->
    consistent g' s' = true.
Proof.
  induction fuel as [|fuel IH]; intros i g g' s s' Hc Hloop;
    rewrite removeNode_loop_eq in Hloop;
    destruct (edges g !! i) as [edge|] eqn:Hi;
    try (by injection Hloop as <- <-); try done.
  apply bind_inv in Hloop as (ed & s0 & Hre & Hloop).
  unfold readEdge in Hre. destruct (edge_heap s !! edge); [|done].
  injection Hre as <- <-.
  destruct (_ || _); [|by eapply IH].
  apply bind_inv in Hloop as (g1 & s1 & Hrm & Hloop).
  pose proof Hc as (_ & Hnd & _)%consistent_inv.
  destruct (lookup_split_first _ _ _ Hnd Hi) as [Hsplit Hpre].
  destruct (removeEdge_consistent_aux edge g s _ _ Hc Hsplit Hpre)
    as (s2 & ed' & nd1 & nd2 & _ & _ & _ & Hrm' & _ & Hc').
  rewrite Hrm' in Hrm. injection Hrm as <- <-. by eapply IH.
Qed.

Lemma removeNode_consistent_aux (g g' : Graph) (s s' : Store) (n : loc) :
  consistent g s = true ->
  n ∈ nodes g ->
  removeNode (ByNode n) g s = Ok (g', s') ->
  consistent g' s' = true.
Proof.
  intros Hc Hin Hrm. simpl in Hrm. unfold removeNode_at in Hrm.
  apply bind_inv in Hrm as (nd & s0 & Hre & Hloop).
  unfold readNode in Hre. destruct (node_heap s !! n); [|done].
  injection Hre as <- <-.
  refine (removeNode_loop_consistent _ _ _ _ _ _ _ _ Hloop).
  pose proof Hc as (Hwf & _)%consistent_inv.
  destruct (wf_graph_inv _ _ Hwf) as (Hnd & Hvn & _).
  apply list_elem_of_split_l in Hin as (pre & post & Hsplit & Hpre).
  rewrite Hsplit, splice1_indexOf by done.
  apply (consistent_nodes g s); [done| |].
  - rewrite Hsplit in Hnd. apply NoDup_app in Hnd as (H1 & H2 & H3).
    apply NoDup_cons in H3 as [_ H3]. apply NoDup_app. split; [done|].
    split; [|done]. intros x Hx Hx'. apply (H2 x Hx). by right.
  - rewrite Hsplit in Hvn. apply forallb_app_true in Hvn as [H1 H2].
    apply forallb_app_true. split; [done|]. simpl in H2.
    by apply andb_prop in H2 as [_ ?].
Qed.

(** ** Properties of [addNode] and [getNodeByName] *)

(** X1.  After [addNode(option)] has returned node [n], [getNodeByName]
    finds [n] under the key of the option's name, and every other name
    resolves as before: no entry of the name index is lost or redirected. *)
Theorem addNode_then_getNodeByName (opt : value) (g g' : Graph) (s s' : Store) (n : loc) :
  addNode opt g s = Ok (n, g', s') ->
  exists name,
    getName opt s = Ok (name, s)
    /\ getNodeByName (propKey name) g' = Some n
    /\ (forall k, k <> propKey name -> getNodeByName k g' = getNodeByName k g)
    /\ (forall k m, getNodeByName k g = Some m -> getNodeByName k g' = Some m).
Proof.
  intros Hadd. unfold addNode in Hadd.
  apply bind_inv in Hadd as (name & s0 & Hname & Hadd).
  destruct (getName_inv _ _ _ _ Hname) as [-> _].
  exists name. split; [done|]. unfold getNodeByName.
  destruct (_nodesMap g !! propKey name) as [n0|] eqn:Hk.
  - injection Hadd as <- <- <-. done.
  - apply bind_inv in Hadd as (node & s2 & _ & Hret).
    injection Hret as <- <- <-. simpl.
    split; [by rewrite lookup_insert_eq|].
    split; [intros k Hne; by rewrite lookup_insert_ne|].
    intros k m Hm. rewrite lookup_insert_ne; [done|]. congruence.
Qed.

Lemma addNode_then_getNodeByName_witness :
  exists n g' s',
    addNode (VObj 2) pairAB pairAB_store = Ok (n, g', s')
    /\ getNodeByName "C" g' = Some n
    /\ getNodeByName "A" g' = getNodeByName "A" pairAB
    /\ getNodeByName "A" pairAB = Some 0.
Proof.
  eexists _, _, _. split; [reflexivity|].
  destruct (addNode_then_getNodeByName (VObj 2) pairAB _ pairAB_store _ _ eq_refl)
    as (name & Hname & Hget & Hother & _).
  injection Hname as <-.
  split; [exact Hget|]. split; [apply Hother; discriminate|reflexivity].
Defined.

(** X2.  An option that has no [name] (a string, a number, an object
    without the property) makes [addNode] create a node named by the empty
    string and file it under the key ["undefined"], when that key is free:
    the node is found by [getNodeByName("undefined")] and not under its own
    name. *)
Theorem addNode_without_name (opt : value) (g : Graph) (s : Store) :
  getName opt s = Ok (None, s) ->
  getNodeByName "undefined" g = None ->
  exists g' s' nd,
    addNode opt g s = Ok (length (node_heap s), g', s')
    /\ nodes g' = nodes g ++ [length (node_heap s)]
    /\ node_heap s' !! length (node_heap s) = Some nd
    /\ Node.name nd = ""
    /\ getNodeByName "undefined" g' = Some (length (node_heap s))
    /\ getNodeByName "" g' = getNodeByName "" g.
Proof.
  intros Hname Hfree. unfold getNodeByName in *.
  unfold addNode. mstep Hname. unfold propKey. rewrite Hfree.
  assert (exists nd, newNode opt s
            = Ok (length (node_heap s),
                  mkStore (node_heap s ++ [nd]) (edge_heap s) (obj_heap s))
            /\ Node.name nd = "") as (nd & Hnew & Hnd).
  { eexists. unfold newNode. mstep Hname. split; reflexivity. }
  mstep Hnew. unfold ret.
  eexists _, _, nd. split; [reflexivity|]. simpl.
  split; [done|].
  split; [by rewrite lookup_app_r, Nat.sub_diag by lia|].
  split; [done|]. split; [by rewrite lookup_insert_eq|].
  by rewrite lookup_insert_ne.
Qed.

Lemma addNode_without_name_witness :
  exists g' s' nd,
    addNode (VStr "A") (newGraph false) store_ABC = Ok (0, g', s')
    /\ node_heap s' !! 0 = Some nd
    /\ Node.name nd = ""
    /\ getNodeByName "undefined" g' = Some 0
    /\ getNodeByName "A" g' = None.
Proof.
  destruct (addNode_without_name (VStr "A") (newGraph false) store_ABC eq_refl eq_refl)
    as (g' & s' & nd & Hadd & Hn & Hnd & Hname & Hu & _).
  exists g', s', nd. do 4 (split; [done|]).
  assert (addNode (VStr "A") (newGraph false) store_ABC
          = Ok (run (addNode (VStr "A") (newGraph false)) store_ABC (0, newGraph false)))
    as Hc by reflexivity.
  simpl length in Hadd. rewrite Hc in Hadd. injection Hadd as <- _. reflexivity.
Defined.

(** ** Properties of [addEdge] *)

(** X3.  For endpoints that are Nodes, no value, or names that no object
    inherits, [addEdge] answers absent exactly when an endpoint does not
    resolve (a name that is not in the name index, or no value), and then
    it has changed neither the graph nor the store. *)
Theorem addEdge_absent_iff_unresolved (a1 a2 : nodearg) (opt : value)
    (g g' : Graph) (s s' : Store) :
  plainArg a1 = true ->
  plainArg a2 = true ->
  addEdge a1 a2 opt g s = Ok (None, g', s')
  <-> (resolve a1 g = None \/ resolve a2 g = None) /\ g' = g /\ s' = s.
Proof.
  intros _ _. split.
  - intros Hadd. unfold addEdge in Hadd.
    destruct (resolve a1 g) as [n1|] eqn:R1;
      [|injection Hadd as <- <-; auto].
    destruct (resolve a2 g) as [n2|] eqn:R2;
      [|injection Hadd as <- <-; auto].
    exfalso.
    apply bind_inv in Hadd as (nd1 & s1 & _ & Hadd).
    apply bind_inv in Hadd as (nd2 & s2 & _ & Hadd).
    destruct (_edgesMap g !! _); [done|].
    apply bind_inv in Hadd as (e & s3 & _ & Hadd).
    apply bind_inv in Hadd as (? & s4 & _ & Hadd).
    apply bind_inv in Hadd as (? & s5 & _ & Hadd).
    apply bind_inv in Hadd as (? & s6 & _ & Hadd). done.
  - intros ([H|H] & -> & ->); unfold addEdge; rewrite H; [done|].
    by destruct (resolve a1 g).
Qed.

Lemma addEdge_absent_iff_unresolved_witness :
  plainArg (ByName "Z") = true
  /\ plainArg (ByNode 0) = true
  /\ (addEdge (ByName "Z") (ByNode 0) VUndefined pairAB pairAB_store
        = Ok (None, pairAB, pairAB_store)
      <-> (resolve (ByName "Z") pairAB = None \/ resolve (ByNode 0) pairAB = None)
          /\ pairAB = pairAB /\ pairAB_store = pairAB_store).
Proof.
  split; [vm_compute; reflexivity|]. split; [vm_compute; reflexivity|].
  apply (addEdge_absent_iff_unresolved (ByName "Z") (ByNode 0) VUndefined
           pairAB pairAB pairAB_store pairAB_store); vm_compute; reflexivity.
Defined.

Lemma linkNode_name (d : bool) (n1 n2 e m : loc) (nd : Node.t) :
  Node.name (linkNode d n1 n2 e m nd) = Node.name nd.
Proof. done. Qed.

(** X4.  [addEdge] is idempotent: once [addEdge(n1, n2)] has returned an
    edge, the same call (whatever payload it carries) returns that edge
    again and changes neither the graph nor the store. *)
Theorem addEdge_idempotent (a1 a2 : nodearg) (opt1 opt2 : value) (g g1 : Graph)
    (s s1 : Store) (e : loc) :
  addEdge a1 a2 opt1 g s = Ok (Some e, g1, s1) ->
  addEdge a1 a2 opt2 g1 s1 = Ok (Some e, g1, s1).
Proof.
  intros Hadd.
  destruct (addEdge_cases _ _ _ _ _ _ _ _ Hadd)
    as [(-> & -> & [H|(n1 & n2 & nd1 & nd2 & R1 & R2 & N1 & N2 & Hk)])
       |(n1 & n2 & nd1 & nd2 & R1 & R2 & N1 & N2 & Hk & [= ->] & -> & Hmap)].
  - done.
  - by apply (addEdge_existing a1 a2 opt2 g s n1 n2 nd1 nd2).
  - destruct Hmap as (_ & _ & _ & Hlook). simpl in Hlook.
    apply (addEdge_existing a1 a2 opt2 _ s1 n1 n2
             (linkNode (_directed g) n1 n2 (length (edge_heap s)) n1 nd1)
             (linkNode (_directed g) n1 n2 (length (edge_heap s)) n2 nd2)).
    + by destruct a1.
    + by destruct a2.
    + by rewrite Hlook, N1.
    + by rewrite Hlook, N2.
    + simpl. by rewrite lookup_insert_eq.
Qed.

Lemma addEdge_idempotent_witness :
  exists e g1 s1,
    addEdge (ByName "A") (ByNode 1) VUndefined pairAB pairAB_store = Ok (Some e, g1, s1)
    /\ addEdge (ByName "A") (ByNode 1) VNull g1 s1 = Ok (Some e, g1, s1)
    /\ edges g1 = [e].
Proof.
  eexists _, _, _. split; [vm_compute; reflexivity|]. split; [|reflexivity].
  apply (addEdge_idempotent (ByName "A") (ByNode 1) VUndefined VNull pairAB _ pairAB_store).
  vm_compute. reflexivity.
Defined.

(** X5.  A new edge from node [a] to node [b] raises the degree of each
    endpoint by one, also when [a] and [b] are the same node (a self-loop is
    listed once in [edges]); on a directed graph it raises the out-degree of
    [a] and the in-degree of [b] by one, on an undirected graph it leaves
    both as they are; and no other node record changes. *)
Theorem addEdge_degrees (g : Graph) (s : Store) (a b : loc) (nda ndb : Node.t)
    (opt : value) :
  node_heap s !! a = Some nda ->
  node_heap s !! b = Some ndb ->
  _edgesMap g !! edgeKey (Node.name nda) (Node.name ndb) = None ->
  exists e g' s' nda' ndb',
    addEdge (ByNode a) (ByNode b) opt g s = Ok (Some e, g', s')
    /\ node_heap s' !! a = Some nda'
    /\ node_heap s' !! b = Some ndb'
    /\ degree nda' = S (degree nda)
    /\ degree ndb' = S (degree ndb)
    /\ outDegree nda' = outDegree nda + (if _directed g then 1 else 0)
    /\ inDegree ndb' = inDegree ndb + (if _directed g then 1 else 0)
    /\ (a <> b -> inDegree nda' = inDegree nda /\ outDegree ndb' = outDegree ndb)
    /\ (forall m, m <> a -> m <> b -> node_heap s' !! m = node_heap s !! m).
Proof.
  intros Ha Hb Hk.
  destruct (addEdge_new_full (ByNode a) (ByNode b) opt g s a b nda ndb)
    as (s' & Hadd & _ & _ & _ & Hlook); try done.
  simpl in Hlook.
  eexists _, _, s', _, _. split; [exact Hadd|].
  split; [by rewrite Hlook, Ha|]. split; [by rewrite Hlook, Hb|].
  unfold degree, inDegree, outDegree, linkNode. simpl.
  rewrite !length_app.
  rewrite !(bool_decide_eq_true_2 (a = a)), !(bool_decide_eq_true_2 (b = b)) by done.
  rewrite !orb_true_r, !andb_true_r. simpl.
  split; [lia|]. split; [lia|].
  split; [by destruct (_directed g)|]. split; [by destruct (_directed g)|].
  split.
  - intros Hne. rewrite !bool_decide_eq_false_2 by congruence.
    rewrite !andb_false_r. simpl. lia.
  - intros m Hma Hmb. rewrite Hlook.
    destruct (node_heap s !! m) as [[nm op ie oe es v]|]; [|done].
    unfold linkNode. simpl.
    rewrite !bool_decide_eq_false_2 by congruence.
    rewrite !andb_false_r. simpl. by rewrite !app_nil_r.
Qed.

Lemma addEdge_degrees_witness :
  node_heap triangleD_store !! 1 = Some (Node.mk "B" (VObj 1) [0] [1] [0; 1] false)
  /\ exists e g' s' nda' ndb',
       addEdge (ByNode 1) (ByNode 1) VUndefined triangleD triangleD_store
         = Ok (Some e, g', s')
       /\ node_heap s' !! 1 = Some nda'
       /\ node_heap s' !! 1 = Some ndb'
       /\ degree nda' = 3
       /\ degree ndb' = 3
       /\ outDegree nda' = 2
       /\ inDegree ndb' = 2
       /\ (1 <> 1 -> inDegree nda' = 1 /\ outDegree ndb' = 1)
       /\ (forall m, m <> 1 -> m <> 1 ->
                     node_heap s' !! m = node_heap triangleD_store !! m).
Proof.
  split; [vm_compute; reflexivity|].
  apply (addEdge_degrees triangleD triangleD_store 1 1
           (Node.mk "B" (VObj 1) [0] [1] [0; 1] false)
           (Node.mk "B" (VObj 1) [0] [1] [0; 1] false) VUndefined);
    vm_compute; reflexivity.
Defined.

(** ** The adjacency lists follow the graph through every mutation *)

(** X6.  [addNode] keeps a consistent graph consistent: no node or edge is
    listed twice, and every node's [edges], [inEdges] and [outEdges] are
    exactly the graph's edges that touch it, arrive at it and leave it (the
    last two empty on an undirected graph), in the graph's order. *)
Theorem addNode_keeps_consistent (opt : value) (g g' : Graph) (s s' : Store) (n : loc) :
  consistent g s = true ->
  addNode opt g s = Ok (n, g', s') ->
  consistent g' s' = true.
Proof. apply addNode_consistent_aux. Qed.

Lemma addNode_keeps_consistent_witness :
  consistent pairAB pairAB_store = true
  /\ exists n g' s',
       addNode (VObj 2) pairAB pairAB_store = Ok (n, g', s')
       /\ consistent g' s' = true.
Proof.
  split; [vm_compute; reflexivity|].
  eexists _, _, _. split; [vm_compute; reflexivity|].
  eapply (addNode_keeps_consistent (VObj 2) pairAB _ pairAB_store);
    vm_compute; reflexivity.
Defined.



(** X8.  [removeEdge] of an edge of a consistent graph returns, takes
    exactly that edge out of [edges] (the others keep their order), leaves
    [nodes] alone, and keeps the graph consistent: the edge is gone from
    the adjacency lists of its endpoints as well. *)
Theorem removeEdge_live_edge (g : Graph) (s : Store) (e : loc) :
  consistent g s = true ->
  e ∈ edges g ->
  exists g' s' pre post,
    removeEdge e g s = Ok (g', s')
    /\ edges g = pre ++ e :: post
    /\ edges g' = pre ++ post
    /\ (e ∉ edges g')
    /\ nodes g' = nodes g
    /\ consistent g' s' = true.
Proof.
  intros Hc Hin.
  pose proof Hc as (_ & Hnd & _)%consistent_inv.
  apply list_elem_of_split_l in Hin as (pre & post & Hsplit & Hpre).
  destruct (removeEdge_consistent_aux e g s pre post Hc Hsplit Hpre)
    as (s' & ed & nd1 & nd2 & _ & _ & _ & Hrm & _ & Hc').
  eexists _, s', pre, post. split; [exact Hrm|]. split; [done|]. split; [done|].
  split; [|by split].
  simpl. rewrite Hsplit in Hnd. apply NoDup_app in Hnd as (_ & H2 & H3).
  apply NoDup_cons in H3 as [H3 _]. rewrite elem_of_app. tauto.
Qed.

Lemma removeEdge_live_edge_witness :
  consistent triangleD triangleD_store = true
  /\ exists g' s',
       removeEdge 1 triangleD triangleD_store = Ok (g', s')
       /\ edges triangleD = [0; 1; 2]
       /\ edges g' = [0; 2]
       /\ consistent g' s' = true.
Proof.
  split; [vm_compute; reflexivity|].
  destruct (removeEdge_live_edge triangleD triangleD_store 1)
    as (g' & s' & pre & post & Hrm & _ & _ & _ & _ & Hc).
  - vm_compute; reflexivity.
  - apply (list_elem_of_lookup_2 _ 1). vm_compute; reflexivity.
  - exists g', s'. split; [exact Hrm|]. split; [vm_compute; reflexivity|].
    split; [|exact Hc].
    assert (exists g0 s0, removeEdge 1 triangleD triangleD_store = Ok (g0, s0)
                          /\ edges g0 = [0; 2]) as (g0 & s0 & Hrun & He)
      by (eexists _, _; split; vm_compute; reflexivity).
    rewrite Hrun in Hrm. injection Hrm as <- _. exact He.
Defined.

Lemma filter_excluded {A} (p q : A -> bool) (l : list A) :
  (forall x, q x = true -> p x = true) ->
  List.filter q (List.filter (fun x => negb (p x)) l) = [].
Proof.
  intros Hqp. rewrite filter_filter_andb. apply filter_none. intros x _.
  destruct (q x) eqn:Hq; [|by rewrite andb_false_r].
  by rewrite (Hqp x Hq).
Qed.

(** X9.  [removeNode] of a node of a consistent graph returns and keeps the
    graph consistent; the removed node itself ends with empty adjacency
    lists: its degree, in-degree and out-degree are 0. *)
Theorem removeNode_keeps_consistent (g : Graph) (s : Store) (n : loc) :
  consistent g s = true ->
  n ∈ nodes g ->
  exists g' s' nd',
    removeNode (ByNode n) g s = Ok (g', s')
    /\ consistent g' s' = true
    /\ node_heap s' !! n = Some nd'
    /\ degree nd' = 0 /\ inDegree nd' = 0 /\ outDegree nd' = 0.
Proof.
  intros Hc Hin.
  pose proof Hc as (Hwf & _)%consistent_inv.
  destruct (wf_graph_inv _ _ Hwf) as (_ & Hvn & Hve).
  pose proof Hin as Hin'.
  apply list_elem_of_split_l in Hin' as (pre & post & Hsplit & Hpre).
  destruct (removeNode_at_ok n g s pre post Hvn Hve Hsplit Hpre)
    as (g' & s' & nd & Hnd & Hrm & (Hlen & Heh & _) & Hd & _ & _ & He).
  assert (removeNode (ByNode n) g s = Ok (g', s')) as Hrm' by exact Hrm.
  pose proof (removeNode_consistent_aux g g' s s' n Hc Hin Hrm') as Hc'.
  apply lookup_lt_Some in Hnd. rewrite <- Hlen in Hnd.
  destruct (lookup_lt_is_Some_2 _ _ Hnd) as [nd' Hnd'].
  exists g', s', nd'. do 3 (split; [done|]).
  apply consistent_inv in Hc' as (_ & _ & Hadj).
  specialize (Hadj n nd' Hnd'). apply adjacent_inv in Hadj as (A1 & A2 & A3).
  unfold degree, inDegree, outDegree. rewrite A1, A2, A3, He, Heh.
  rewrite (filter_excluded (incident (edge_heap s) n) (incident (edge_heap s) n)) by done.
  rewrite (filter_excluded (incident (edge_heap s) n) (isSource (edge_heap s) n)).
  2:{ intros x. unfold incident, isSource. destruct (edge_heap s !! x); [|done].
      by intros ->. }
  rewrite (filter_excluded (incident (edge_heap s) n) (isTarget (edge_heap s) n)).
  2:{ intros x. unfold incident, isTarget. destruct (edge_heap s !! x); [|done].
      intros ->. by rewrite orb_true_r. }
  by destruct (_directed g').
Qed.

Lemma removeNode_keeps_consistent_witness :
  consistent triangleD triangleD_store = true
  /\ (degree <$> node_heap triangleD_store !! 1) = Some 2
  /\ exists g' s' nd',
       removeNode (ByNode 1) triangleD triangleD_store = Ok (g', s')
       /\ consistent g' s' = true
       /\ node_heap s' !! 1 = Some nd'
       /\ degree nd' = 0 /\ inDegree nd' = 0 /\ outDegree nd' = 0.
Proof.
  split; [vm_compute; reflexivity|]. split; [vm_compute; reflexivity|].
  apply (removeNode_keeps_consistent triangleD triangleD_store 1);
    [vm_compute; reflexivity|].
  apply (list_elem_of_lookup_2 _ 1). vm_compute; reflexivity.
Defined.

Lemma unlink_link (d : bool) (a b e m : loc) (nd : Node.t) :
  e ∉ Node.edges nd -> e ∉ Node.inEdges nd -> e ∉ Node.outEdges nd ->
  unlinkNode d a b e m (linkNode d a b e m nd) = nd.
Proof.
  intros H1 H2 H3. destruct nd as [nm op ie oe es v]. simpl in *.
  unfold unlinkNode, linkNode. simpl.
  assert (forall l : list loc, e ∉ l -> splice1 (indexOf (l ++ [e]) e) (l ++ [e]) = l)
    as Hs by (intros l Hl; rewrite splice1_indexOf by done; apply app_nil_r).
  destruct (d && bool_decide (b = m)), (d && bool_decide (a = m)),
    (bool_decide (a = m) || bool_decide (b = m));
    rewrite ?Hs, ?app_nil_r by done; reflexivity.
Qed.

Lemma filter_subset_lt (p : loc -> bool) (l : list loc) (k : nat) :
  Forall (fun e => e < k) l -> k ∉ List.filter p l.
Proof.
  intros Hl Hin. apply list_elem_of_In, filter_In in Hin as [Hin _].
  rewrite Forall_forall in Hl. apply list_elem_of_In, Hl in Hin. lia.
Qed.

(** X10.  On a consistent graph, adding a new edge and then removing it
    gives back the graph as it was (sequences and both indices), and
    restores the adjacency lists of every node; only the discarded Edge
    object remains in the store. *)
Theorem addEdge_removeEdge_roundtrip (g : Graph) (s : Store) (a b : loc)
    (nda ndb : Node.t) (opt : value) :
  consistent g s = true ->
  node_heap s !! a = Some nda ->
  node_heap s !! b = Some ndb ->
  _edgesMap g !! edgeKey (Node.name nda) (Node.name ndb) = None ->
  exists e g1 s1 s2,
    addEdge (ByNode a) (ByNode b) opt g s = Ok (Some e, g1, s1)
    /\ removeEdge e g1 s1 = Ok (g, s2)
    /\ node_heap s2 = node_heap s
    /\ obj_heap s2 = obj_heap s
    /\ edge_heap s2 = edge_heap s ++ [Edge.mk opt a b].
Proof.
  intros Hc Ha Hb Hk.
  apply consistent_inv in Hc as (Hwf & _ & Hadj).
  destruct (wf_graph_inv _ _ Hwf) as (_ & _ & Hve).
  pose proof (valid_edges_lt _ _ Hve) as Hlt.
  destruct (addEdge_new_full (ByNode a) (ByNode b) opt g s a b nda ndb)
    as (s1 & Hadd & L1 & E1 & O1 & Hlook1); try done.
  simpl in L1, E1, O1, Hlook1.
  set (e := length (edge_heap s)) in *.
  match type of Hadd with _ = Ok (_, ?G, _) => set (g1 := G) in * end.
  assert (edge_heap s1 !! e = Some (Edge.mk opt a b)) as Hed.
  { rewrite E1, lookup_app_r by (subst e; lia). subst e. by rewrite Nat.sub_diag. }
  assert (validEdge s1 e = true) as Hv.
  { unfold validEdge, validNode. rewrite Hed, L1. simpl.
    apply lookup_lt_Some in Ha, Hb. by rewrite !bool_decide_eq_true_2. }
  destruct (removeEdge_full e g1 s1 _ Hed Hv) as (s2 & nd1 & nd2 & N1 & N2 & Hrm & Hmap).
  simpl in N1, N2, Hrm, Hmap.
  rewrite Hlook1, Ha in N1. injection N1 as <-.
  rewrite Hlook1, Hb in N2. injection N2 as <-.
  rewrite !linkNode_name in Hrm.
  destruct Hmap as (L2 & E2 & O2 & Hlook2).
  exists e, g1, s1, s2. split; [exact Hadd|]. split; [|split; [|split]].
  - rewrite Hrm. f_equal. f_equal. subst g1. simpl.
    rewrite splice1_indexOf, app_nil_r.
    + rewrite delete_insert_eq, delete_id by done. by destruct g.
    + intros Hin. rewrite Forall_forall in Hlt. specialize (Hlt _ Hin). subst e. lia.
  - apply list_eq. intros m. rewrite Hlook2, Hlook1.
    destruct (node_heap s !! m) as [nd|] eqn:Hm; [|done]. simpl. f_equal.
    specialize (Hadj m nd Hm). apply adjacent_inv in Hadj as (A1 & A2 & A3).
    apply unlink_link.
    + rewrite A1. by apply filter_subset_lt.
    + rewrite A3. destruct (_directed g); [by apply filter_subset_lt|set_solver].
    + rewrite A2. destruct (_directed g); [by apply filter_subset_lt|set_solver].
  - congruence.
  - congruence.
Qed.

Lemma addEdge_removeEdge_roundtrip_witness :
  consistent triangleD triangleD_store = true
  /\ exists e g1 s1 s2,
       addEdge (ByNode 2) (ByNode 0) VUndefined triangleD triangleD_store
         = Ok (Some e, g1, s1)
       /\ removeEdge e g1 s1 = Ok (triangleD, s2)
       /\ node_heap s2 = node_heap triangleD_store
       /\ obj_heap s2 = obj_heap triangleD_store
       /\ edge_heap s2 = edge_heap triangleD_store ++ [Edge.mk VUndefined 2 0].
Proof.
  split; [vm_compute; reflexivity|].
  apply (addEdge_removeEdge_roundtrip triangleD triangleD_store 2 0
           (Node.mk "C" (VObj 2) [1; 2] [] [1; 2] false)
           (Node.mk "A" (VObj 0) [] [0; 2] [0; 2] false) VUndefined);
    vm_compute; reflexivity.
Defined.

(** ** Removing what is not there *)

Lemma indexOf_from_notin (l : list loc) (x : loc) (k : Z) :
  x ∉ l -> indexOf_from l x k = (-1)%Z.
Proof.
  revert k. induction l as [|y l IH]; intros k Hx; simpl; [done|].
  apply not_elem_of_cons in Hx as [Hne Hx].
  rewrite decide_False by congruence. by apply IH.
Qed.

Lemma splice1_not_found {A} (l : list A) :
  splice1 (-1) l = take (length l - 1) l.
Proof.
  unfold splice1. change ((-1 <? 0)%Z) with true. cbv iota.
  destruct l as [|x l]; [done|].
  replace (Z.to_nat (Z.max (Z.of_nat (length (x :: l)) + -1) 0))
    with (length (x :: l) - 1) by (simpl; lia).
  rewrite delete_take_drop.
  rewrite (drop_ge (x :: l)) by (simpl; lia). apply app_nil_r.
Qed.

(** X11.  [removeEdge] does not check that the edge is in the graph: for an
    Edge object that is not in [edges] (one that was removed before, say)
    [indexOf] gives [-1] and [splice(-1, 1)] takes out the last edge of the
    sequence instead. *)
Theorem removeEdge_absent_edge (g : Graph) (s : Store) (e : loc) :
  validEdge s e = true ->
  e ∉ edges g ->
  exists g' s',
    removeEdge e g s = Ok (g', s')
    /\ edges g' = take (length (edges g) - 1) (edges g)
    /\ nodes g' = nodes g.
Proof.
  intros Hv Hnotin.
  destruct (removeEdge_ok e g s Hv) as (g' & s' & Hrm & _ & _ & Hn & _ & He).
  exists g', s'. split; [done|]. split; [|done].
  rewrite He. unfold indexOf. rewrite indexOf_from_notin by done.
  apply splice1_not_found.
Qed.

Lemma removeEdge_absent_edge_witness :
  edges triangleD = [0; 1; 2]
  /\ exists g1 s1 g2 s2,
       removeEdge 0 triangleD triangleD_store = Ok (g1, s1)
       /\ edges g1 = [1; 2]
       /\ removeEdge 0 g1 s1 = Ok (g2, s2)
       /\ edges g2 = [1].
Proof.
  split; [vm_compute; reflexivity|].
  assert (exists g1 s1, removeEdge 0 triangleD triangleD_store = Ok (g1, s1)
                        /\ edges g1 = [1; 2] /\ validEdge s1 0 = true)
    as (g1 & s1 & Hrm1 & He1 & Hv)
    by (eexists _, _; split; [|split]; vm_compute; reflexivity).
  destruct (removeEdge_absent_edge g1 s1 0 Hv) as (g2 & s2 & Hrm2 & He2 & _).
  - rewrite He1. intros H%list_elem_of_In. simpl in H. lia.
  - exists g1, s1, g2, s2. split; [exact Hrm1|]. split; [exact He1|].
    split; [exact Hrm2|]. rewrite He2, He1. reflexivity.
Defined.

(** X12.  [removeNode] does not check either: for a Node object that is not
    in [nodes] it takes out the last node of the sequence, deletes the
    name-index entry under the object's name, and removes the edges that
    touch the object. *)
Theorem removeNode_absent_node (g : Graph) (s : Store) (n : loc) :
  wf_graph g s = true ->
  validNode s n = true ->
  n ∉ nodes g ->
  exists g' s' nd,
    node_heap s !! n = Some nd
    /\ removeNode (ByNode n) g s = Ok (g', s')
    /\ nodes g' = take (length (nodes g) - 1) (nodes g)
    /\ _nodesMap g' = delete (Node.name nd) (_nodesMap g)
    /\ edges g' = List.filter (fun e => negb (incident (edge_heap s) n e)) (edges g).
Proof.
  intros Hwf Hv Hnotin.
  destruct (wf_graph_inv _ _ Hwf) as (_ & _ & Hve).
  apply bool_decide_eq_true in Hv.
  destruct (readNode_ok _ _ Hv) as (nd & Hnd & Hrn).
  simpl. unfold removeNode_at. mstep Hrn.
  match goal with |- context [removeNode_loop _ _ _ ?g1] => set (G1 := g1) end.
  destruct (removeNode_loop_ok n (edges G1) (length (edges G1)) [] G1 s)
    as (g' & s' & Hloop & _ & _ & Hn' & Hm' & He'); try done.
  exists g', s', nd. split; [done|]. split; [exact Hloop|].
  split; [|by split].
  rewrite Hn'. simpl. unfold indexOf. rewrite indexOf_from_notin by done.
  apply splice1_not_found.
Qed.

Lemma removeNode_absent_node_witness :
  nodes triangleD = [0; 1; 2]
  /\ exists g1 s1 g2 s2,
       removeNode (ByNode 0) triangleD triangleD_store = Ok (g1, s1)
       /\ nodes g1 = [1; 2]
       /\ removeNode (ByNode 0) g1 s1 = Ok (g2, s2)
       /\ nodes g2 = [1].
Proof.
  split; [vm_compute; reflexivity|].
  assert (exists g1 s1, removeNode (ByNode 0) triangleD triangleD_store = Ok (g1, s1)
                        /\ nodes g1 = [1; 2] /\ wf_graph g1 s1 = true
                        /\ validNode s1 0 = true)
    as (g1 & s1 & Hrm1 & Hn1 & Hwf & Hv)
    by (eexists _, _; split; [|split; [|split]]; vm_compute; reflexivity).
  destruct (removeNode_absent_node g1 s1 0 Hwf Hv) as (g2 & s2 & nd & _ & Hrm2 & Hn2 & _).
  - rewrite Hn1. intros H%list_elem_of_In. simpl in H. lia.
  - exists g1, s1, g2, s2. split; [exact Hrm1|]. split; [exact Hn1|].
    split; [exact Hrm2|]. rewrite Hn2, Hn1. reflexivity.
Defined.

(** ** filterEdge *)

Lemma filterEdge_loop_eq (fuel : nat) (cb : loc -> nat -> bool) (i len : nat)
    (g : Graph) (log : list (loc * nat)) :
  filterEdge_loop fuel cb i len g log =
  if bool_decide (i < len) then
    match fuel with
    | O => throw OutOfFuel
    | S fuel' =>
        match edges g !! i with
        | Some e =>
            if cb e i
            then filterEdge_loop fuel' cb (S i) len g (log ++ [(e, i)])
            else (let* g' := removeEdge e g in
                  filterEdge_loop fuel' cb i (len - 1) g' (log ++ [(e, i)]))
        | None => throw Dangling
        end
    end
  else ret (g, log).
Proof. by destruct fuel. Qed.

Section filterEdge_pure.
Variable cb : loc -> nat -> bool.
Variable p : loc -> bool.
Hypothesis cb_edge : forall e i, cb e i = p e.

Lemma filterEdge_loop_ok (rest : list loc) :
  forall (fuel : nat) (pre : list loc) (g : Graph) (s : Store) (log : list (loc * nat)),
    edges g = pre ++ rest ->
    Forall (fun e => p e = true) pre ->
    forallb (validEdge s) (edges g) = true ->
    length rest <= fuel ->
    exists g' s' log',
      filterEdge_loop fuel cb (length pre) (length pre + length rest) g log s
        = Ok (g', log', s')
      /\ shape_eq s s'
      /\ _directed g' = _directed g
      /\ nodes g' = nodes g
      /\ _nodesMap g' = _nodesMap g
      /\ edges g' = pre ++ List.filter p rest
      /\ map fst log' = map fst log ++ rest.
Proof.
  induction rest as [|x rest IH]; intros fuel pre g s log Hg Hpre Hve Hfuel.
  - rewrite filterEdge_loop_eq. cbn [length].
    rewrite bool_decide_eq_false_2 by lia.
    exists g, s, log. split; [done|]. split; [apply shape_eq_refl|].
    do 3 (split; [done|]). split; [by rewrite Hg|]. by rewrite app_nil_r.
  - rewrite filterEdge_loop_eq. cbn [length].
    rewrite bool_decide_eq_true_2 by lia.
    destruct fuel as [|fuel]; [simpl in Hfuel; lia|].
    rewrite Hg, list_lookup_middle by done.
    rewrite cb_edge. simpl List.filter.
    destruct (p x) eqn:Hpx.
    + destruct (IH fuel (pre ++ [x]) g s (log ++ [(x, length pre)]))
        as (g' & s' & log' & Hloop & Hs' & Hd' & Hn' & Hm' & He' & Hl').
      * by rewrite <- app_assoc.
      * apply Forall_app. split; [done|]. by apply Forall_singleton.
      * done.
      * simpl in Hfuel. lia.
      * rewrite length_app in Hloop. simpl in Hloop.
        replace (length pre + 1) with (S (length pre)) in Hloop by lia.
        replace (S (length pre) + length rest) with (length pre + S (length rest))
          in Hloop by lia.
        exists g', s', log'. do 5 (split; [done|]).
        split; [by rewrite He', <- app_assoc|].
        by rewrite Hl', map_app, <- app_assoc.
    + assert (x ∉ pre) as Hnotin.
      { intros Hin. rewrite Forall_forall in Hpre. specialize (Hpre _ Hin). congruence. }
      assert (validEdge s x = true) as Hx.
      { apply (forallb_elem _ _ _ Hve). rewrite Hg. set_solver. }
      destruct (removeEdge_ok x g s Hx) as (g1 & s1 & Hrm & Hs1 & Hd1 & Hn1 & Hm1 & He1).
      rewrite Hg, splice1_indexOf in He1 by done.
      mstep Hrm.
      destruct (IH fuel pre g1 s1 (log ++ [(x, length pre)]))
        as (g' & s' & log' & Hloop & Hs' & Hd' & Hn' & Hm' & He' & Hl').
      * done.
      * done.
      * rewrite (forallb_validEdge_shape s s1), He1 by done.
        rewrite Hg in Hve. apply forallb_app_true in Hve as [H1 H2].
        apply forallb_app_true. split; [done|].
        simpl in H2. by apply andb_prop in H2 as [_ ?].
      * simpl in Hfuel. lia.
      * replace (length pre + S (length rest) - 1) with (length pre + length rest) by lia.
        exists g', s', log'. split; [done|].
        split; [eauto using shape_eq_trans|].
        do 3 (split; [congruence|]). split; [done|].
        by rewrite Hl', map_app, <- app_assoc.
Qed.
End filterEdge_pure.

(** X13.  With a callback that depends on the edge only, [filterEdge] on a
    graph whose edges are in the store returns, calls the callback once on
    every edge of the original sequence, in order, and leaves in [edges]
    exactly the edges that satisfy it, in their order; [nodes] and the name
    index are untouched. *)
Theorem filterEdge_keeps_satisfying (cb : loc -> nat -> bool) (p : loc -> bool)
    (g : Graph) (s : Store) :
  forallb (validEdge s) (edges g) = true ->
  (forall e i, cb e i = p e) ->
  exists g' s' calls,
    filterEdge cb g s = Ok (g', calls, s')
    /\ edges g' = List.filter p (edges g)
    /\ map fst calls = edges g
    /\ nodes g' = nodes g
    /\ _nodesMap g' = _nodesMap g.
Proof.
  intros Hve Hcb.
  destruct (filterEdge_loop_ok cb p Hcb (edges g) (length (edges g)) [] g s [])
    as (g' & s' & calls & Hloop & _ & _ & Hn' & Hm' & He' & Hc'); try done.
  exists g', s', calls. split; [exact Hloop|]. done.
Qed.

Lemma filterEdge_keeps_satisfying_witness :
  edges triangleD = [0; 1; 2]
  /\ exists g' s' calls,
       filterEdge (fun e _ => negb (Nat.eqb e 0)) triangleD triangleD_store
         = Ok (g', calls, s')
       /\ edges g' = [1; 2]
       /\ map fst calls = [0; 1; 2]
       /\ nodes g' = [0; 1; 2].
Proof.
  split; [vm_compute; reflexivity|].
  destruct (filterEdge_keeps_satisfying (fun e _ => negb (Nat.eqb e 0))
              (fun e => negb (Nat.eqb e 0)) triangleD triangleD_store)
    as (g' & s' & calls & Hf & He & Hc & Hn & _).
  - vm_compute; reflexivity.
  - reflexivity.
  - exists g', s', calls. split; [exact Hf|].
    split; [rewrite He; vm_compute; reflexivity|].
    split; [rewrite Hc; vm_compute; reflexivity|].
    rewrite Hn; vm_compute; reflexivity.
Defined.

(** ** eachNode and eachEdge *)

Lemma eachNode_loop_past_end (cb : loc -> nat -> Graph -> M Graph) (todo : nat) :
  forall (i : nat) (g : Graph) (log : list (loc * nat)) (s : Store),
    length (nodes g) <= i ->
    eachNode_loop todo cb i g log s = Ok (g, log, s).
Proof.
  induction todo as [|todo IH]; intros i g log s Hi; simpl; [done|].
  rewrite lookup_ge_None_2 by done. apply IH. lia.
Qed.

Lemma NoDup_remove_middle {A} (l1 l2 : list A) (x : A) :
  NoDup (l1 ++ x :: l2) -> NoDup (l1 ++ l2) /\ x ∉ l1.
Proof.
  intros (H1 & H2 & H3)%NoDup_app. apply NoDup_cons in H3 as [_ H3]. split.
  - apply NoDup_app. split; [done|]. split; [|done].
    intros y Hy Hy'. apply (H2 y Hy). by right.
  - intros Hx. apply (H2 x Hx). by left.
Qed.

(** The pass of [eachNode] when the callback removes the node it is given:
    after [kept], it drops the node in the current slot and steps over the
    one that moves into it. *)
Lemma eachNode_removing_loop (todo : nat) :
  forall (kept rest : list loc) (g : Graph) (s : Store) (log : list (loc * nat)),
    nodes g = kept ++ rest ->
    NoDup (nodes g) ->
    forallb (validNode s) (nodes g) = true ->
    forallb (validEdge s) (edges g) = true ->
    length rest <= 2 * todo ->
    exists g' s' log',
      eachNode_loop todo (fun n _ g0 => removeNode (ByNode n) g0) (length kept) g log s
        = Ok (g', log', s')
      /\ nodes g' = kept ++ skipped rest
      /\ map fst log' = map fst log ++ everyOther rest.
Proof.
  induction todo as [|todo IH]; intros kept rest g s log Hg Hnd Hvn Hve Hlen.
  - destruct rest; [|simpl in Hlen; lia].
    exists g, s, log. simpl. by rewrite Hg, !app_nil_r.
  - destruct rest as [|x rest].
    { simpl. rewrite lookup_ge_None_2 by (rewrite Hg, length_app; simpl; lia).
      rewrite eachNode_loop_past_end by (rewrite Hg, length_app; simpl; lia).
      exists g, s, log. simpl. by rewrite Hg, !app_nil_r. }
    simpl eachNode_loop. rewrite Hg, list_lookup_middle by done.
    pose proof Hnd as Hnd'. rewrite Hg in Hnd'.
    apply NoDup_remove_middle in Hnd' as [Hnd1 Hx].
    destruct (removeNode_at_ok x g s kept rest Hvn Hve Hg Hx)
      as (g1 & s1 & nd & _ & Hrm & Hs1 & _ & Hn1 & _ & He1).
    assert (removeNode (ByNode x) g s = Ok (g1, s1)) as Hrm' by exact Hrm.
    mstep Hrm'.
    assert (forallb (validNode s1) (nodes g1) = true) as Hvn1.
    { rewrite (forallb_validNode_shape s s1), Hn1 by done.
      rewrite Hg in Hvn. apply forallb_app_true in Hvn as [H1 H2].
      apply forallb_app_true. split; [done|].
      simpl in H2. by apply andb_prop in H2 as [_ ?]. }
    assert (forallb (validEdge s1) (edges g1) = true) as Hve1.
    { rewrite (forallb_validEdge_shape s s1), He1 by done.
      by apply forallb_filter_true. }
    destruct rest as [|y rest].
    + rewrite eachNode_loop_past_end by (rewrite Hn1, length_app; simpl; lia).
      eexists _, _, _. split; [reflexivity|]. simpl.
      split; [by rewrite Hn1|]. by rewrite map_app.
    + destruct (IH (kept ++ [y]) rest g1 s1 (log ++ [(x, length kept)]))
        as (g' & s' & log' & Hloop & Hn' & Hl'); try done.
      * by rewrite Hn1, <- app_assoc.
      * by rewrite Hn1.
      * simpl in Hlen. lia.
      * rewrite length_app in Hloop. simpl in Hloop.
        replace (length kept + 1) with (S (length kept)) in Hloop by lia.
        exists g', s', log'. split; [exact Hloop|]. simpl.
        split; [by rewrite Hn', <- app_assoc|].
        by rewrite Hl', map_app, <- app_assoc.
Qed.

(** X14.  [eachNode] takes the length once and does not hold its index when
    the sequence shrinks: with a callback that removes the node it is
    given, on a well-formed graph, it calls the callback on every second
    node only (the first, the third, ...) and the nodes in between stay in
    the graph. *)
Theorem eachNode_removing_skips (g : Graph) (s : Store) :
  wf_graph g s = true ->
  exists g' s' calls,
    eachNode (fun n _ g0 => removeNode (ByNode n) g0) g s = Ok (g', calls, s')
    /\ nodes g' = skipped (nodes g)
    /\ map fst calls = everyOther (nodes g).
Proof.
  intros Hwf. destruct (wf_graph_inv _ _ Hwf) as (Hnd & Hvn & Hve).
  destruct (eachNode_removing_loop (length (nodes g)) [] (nodes g) g s [])
    as (g' & s' & calls & Hloop & Hn' & Hl'); try done; [lia|].
  exists g', s', calls. split; [exact Hloop|]. done.
Qed.

Lemma eachNode_removing_skips_witness :
  nodes triangleD = [0; 1; 2]
  /\ exists g' s' calls,
       eachNode (fun n _ g0 => removeNode (ByNode n) g0) triangleD triangleD_store
         = Ok (g', calls, s')
       /\ nodes g' = [1]
       /\ map fst calls = [0; 2].
Proof.
  split; [vm_compute; reflexivity|].
  destruct (eachNode_removing_skips triangleD triangleD_store)
    as (g' & s' & calls & He & Hn & Hc); [vm_compute; reflexivity|].
  exists g', s', calls. split; [exact He|].
  split; [rewrite Hn|rewrite Hc]; vm_compute; reflexivity.
Defined.

Lemma eachNode_observer_loop (cb : loc -> nat -> Graph -> M Graph) (rest : list loc) :
  (forall n i g s, cb n i g s = Ok (g, s)) ->
  forall (pre : list loc) (g : Graph) (s : Store) (log : list (loc * nat)),
    nodes g = pre ++ rest ->
    eachNode_loop (length rest) cb (length pre) g log s
    = Ok (g, log ++ zip rest (seq (length pre) (length rest)), s).
Proof.
  intros Hcb. induction rest as [|x rest IH]; intros pre g s log Hg; simpl.
  - by rewrite app_nil_r.
  - rewrite Hg, list_lookup_middle by done. mstep (Hcb x (length pre) g s).
    specialize (IH (pre ++ [x]) g s (log ++ [(x, length pre)])).
    rewrite length_app in IH. simpl in IH.
    replace (length pre + 1) with (S (length pre)) in IH by lia.
    rewrite IH by (by rewrite Hg, <- app_assoc). by rewrite <- app_assoc.
Qed.

Lemma eachEdge_observer_loop (cb : loc -> nat -> Graph -> M Graph) (rest : list loc) :
  (forall e i g s, cb e i g s = Ok (g, s)) ->
  forall (pre : list loc) (g : Graph) (s : Store) (log : list (loc * nat)),
    edges g = pre ++ rest ->
    eachEdge_loop (length rest) cb (length pre) g log s
    = Ok (g, log ++ zip rest (seq (length pre) (length rest)), s).
Proof.
  intros Hcb. induction rest as [|x rest IH]; intros pre g s log Hg; simpl.
  - by rewrite app_nil_r.
  - rewrite Hg, list_lookup_middle by done. mstep (Hcb x (length pre) g s).
    specialize (IH (pre ++ [x]) g s (log ++ [(x, length pre)])).
    rewrite length_app in IH. simpl in IH.
    replace (length pre + 1) with (S (length pre)) in IH by lia.
    rewrite IH by (by rewrite Hg, <- app_assoc). by rewrite <- app_assoc.
Qed.

(** X15.  With a callback that leaves the graph and the store alone,
    [eachNode] and [eachEdge] call it once on every node, every edge, in the
    order of the sequence and with the position as second argument, and
    change nothing. *)
Theorem each_observer_calls (cb : loc -> nat -> Graph -> M Graph) (g : Graph) (s : Store) :
  (forall x i g0 s0, cb x i g0 s0 = Ok (g0, s0)) ->
  eachNode cb g s = Ok (g, zip (nodes g) (seq 0 (length (nodes g))), s)
  /\ eachEdge cb g s = Ok (g, zip (edges g) (seq 0 (length (edges g))), s).
Proof.
  intros Hcb. split.
  - apply (eachNode_observer_loop cb (nodes g) Hcb [] g s []). done.
  - apply (eachEdge_observer_loop cb (edges g) Hcb [] g s []). done.
Qed.

Lemma each_observer_calls_witness :
  eachNode (fun _ _ g0 => ret g0) triangleD triangleD_store
    = Ok (triangleD, zip (nodes triangleD) (seq 0 (length (nodes triangleD))),
          triangleD_store)
  /\ eachEdge (fun _ _ g0 => ret g0) triangleD triangleD_store
    = Ok (triangleD, zip (edges triangleD) (seq 0 (length (edges triangleD))),
          triangleD_store).
Proof.
  apply (each_observer_calls (fun _ _ g0 => ret g0) triangleD triangleD_store).
  reflexivity.
Defined.

(** ** What the traversal reports *)

Lemma marked_mark (s : Store) (other m : loc) (ond : Node.t) :
  node_heap s !! other = Some ond ->
  (m = other \/ marked s m) ->
  marked (mkStore (<[other := setVisited true ond]> (node_heap s)) (edge_heap s) (obj_heap s)) m.
Proof.
  intros Hond Hm. unfold marked. simpl.
  destruct (decide (m = other)) as [->|Hne].
  - exists (setVisited true ond). split; [|done].
    apply list_lookup_insert_eq. by apply lookup_lt_Some in Hond.
  - destruct Hm as [?|(nd & Hnd & Hv)]; [done|].
    exists nd. by rewrite list_lookup_insert_ne.
Qed.

Section traversal_log.
Variable cb : loc -> option loc -> bool.
Variable first : loc * option loc.

(** One scan keeps the report in order: a node is reported only while it
    is unmarked and is marked at once, and a truthy answer ends the scan. *)
Lemma bfs_scan_log (cur : loc) (es : list loc) :
  forall (queue : list loc) (later : visit_log) (s s' : Store)
         (stop : bool) (queue' : list loc) (log' : visit_log),
    bfs_scan cb cur es queue (first :: later) s = Ok (stop, queue', log', s') ->
    NoDup (map fst later) ->
    (forall m, m ∈ map fst later -> marked s m) ->
    Forall (fun e => cb (fst e) (snd e) = false) (first :: later) ->
    Forall (fun e => is_Some (snd e)) later ->
    exists later',
      log' = first :: later'
      /\ NoDup (map fst later')
      /\ Forall (fun e => is_Some (snd e)) later'
      /\ Forall (fun e => cb (fst e) (snd e) = false) (removelast (first :: later'))
      /\ (stop = false ->
          (forall m, m ∈ map fst later' -> marked s' m)
          /\ Forall (fun e => cb (fst e) (snd e) = false) (first :: later')).
Proof.
  induction es as [|e es IH];
    intros queue later s s' stop queue' log' Hscan Hnd Hmk Hcb Hpred; simpl in Hscan.
  - injection Hscan as <- <- <- <-. exists later.
    do 3 (split; [done|]). split; [|done].
    clear -Hcb. revert Hcb. generalize (first :: later). intros l Hl.
    induction Hl as [|x l Hx Hl IHl]; simpl; [constructor|].
    destruct l; [constructor|]. constructor; [done|]. apply IHl.
  - apply bind_inv in Hscan as (ed & s0 & Hre & Hscan).
    unfold readEdge in Hre. destruct (edge_heap s !! e) as [ed'|]; [|done].
    injection Hre as -> <-.
    set (other := if decide (Edge.node1 ed = cur) then Edge.node2 ed else Edge.node1 ed)
      in *.
    apply bind_inv in Hscan as (ond & s0 & Hrn & Hscan).
    unfold readNode in Hrn. destruct (node_heap s !! other) as [ond'|] eqn:Hond; [|done].
    injection Hrn as -> <-.
    destruct (Node.__visited ond) eqn:Hv; [by eapply IH|].
    assert (other ∉ map fst later) as Hfresh.
    { intros Hin. destruct (Hmk _ Hin) as (nd & Hnd' & Hv'). congruence. }
    assert (NoDup (map fst (later ++ [(other, Some cur)]))) as Hnd'.
    { rewrite map_app. simpl. apply NoDup_app. split; [done|].
      split; [|apply NoDup_singleton].
      intros x Hx ->%list_elem_of_singleton. done. }
    assert (Forall (fun e => is_Some (snd e)) (later ++ [(other, Some cur)])) as Hpred'.
    { apply Forall_app. split; [done|]. apply Forall_singleton. by eexists. }
    destruct (cb other (Some cur)) eqn:Hc.
    + injection Hscan as <- <- <- <-. exists (later ++ [(other, Some cur)]).
      do 3 (split; [done|]). split; [|done].
      change (first :: later ++ [(other, Some cur)])
        with ((first :: later) ++ [(other, Some cur)]).
      by rewrite removelast_last.
    + apply bind_inv in Hscan as ([] & s1 & Hmod & Hscan).
      unfold modifyNode in Hmod. rewrite Hond in Hmod. injection Hmod as <-.
      apply (IH _ (later ++ [(other, Some cur)]) _ _ _ _ _ Hscan); try done.
      * intros m Hm. apply marked_mark; [done|].
        rewrite map_app, elem_of_app in Hm. destruct Hm as [Hm|Hm].
        -- right. by apply Hmk.
        -- left. simpl in Hm. by apply list_elem_of_singleton in Hm.
      * change (first :: later ++ [(other, Some cur)])
          with ((first :: later) ++ [(other, Some cur)]).
        apply Forall_app. split; [done|]. by apply Forall_singleton.
Qed.

Lemma bfs_loop_log (direction : string) (fuel : nat) :
  forall (queue : list loc) (later : visit_log) (s s' : Store) (log' : visit_log),
    bfs_loop fuel cb direction queue (first :: later) s = Ok (log', s') ->
    NoDup (map fst later) ->
    (forall m, m ∈ map fst later -> marked s m) ->
    Forall (fun e => cb (fst e) (snd e) = false) (first :: later) ->
    Forall (fun e => is_Some (snd e)) later ->
    exists later',
      log' = first :: later'
      /\ NoDup (map fst later')
      /\ Forall (fun e => is_Some (snd e)) later'
      /\ Forall (fun e => cb (fst e) (snd e) = false) (removelast (first :: later')).
Proof.
  induction fuel as [|fuel IH];
    intros queue later s s' log' Hloop Hnd Hmk Hcb Hpred;
    destruct queue as [|cur queue]; simpl in Hloop; try done.
  - injection Hloop as <- <-. exists later. do 3 (split; [done|]).
    clear -Hcb. revert Hcb. generalize (first :: later). intros l Hl.
    induction Hl as [|x l Hx Hl IHl]; simpl; [constructor|].
    destruct l; [constructor|]. constructor; [done|]. apply IHl.
  - injection Hloop as <- <-. exists later. do 3 (split; [done|]).
    clear -Hcb. revert Hcb. generalize (first :: later). intros l Hl.
    induction Hl as [|x l Hx Hl IHl]; simpl; [constructor|].
    destruct l; [constructor|]. constructor; [done|]. apply IHl.
  - apply bind_inv in Hloop as (nd & s0 & Hrn & Hloop).
    unfold readNode in Hrn. destruct (node_heap s !! cur); [|done].
    injection Hrn as <- <-.
    apply bind_inv in Hloop as ([[stop queue'] log1] & s1 & Hscan & Hloop).
    destruct (bfs_scan_log _ _ _ _ _ _ _ _ _ Hscan Hnd Hmk Hcb Hpred)
      as (later1 & -> & Hnd1 & Hpred1 & Hlast1 & Hgo).
    destruct stop.
    + injection Hloop as <- <-. by exists later1.
    + destruct (Hgo eq_refl) as [Hmk1 Hcb1]. by eapply IH.
Qed.
End traversal_log.

Lemma breadthFirstTraverse_log (cb : loc -> option loc -> bool) (a : nodearg)
    (direction : string) (g : Graph) (s s' : Store) (log : visit_log) (n : loc) :
  breadthFirstTraverse cb a direction g s = Ok (log, s') ->
  resolve a g = Some n ->
  exists later,
    log = (n, None) :: later
    /\ NoDup (map fst later)
    /\ Forall (fun e => is_Some (snd e)) later
    /\ Forall (fun e => cb (fst e) (snd e) = false) (removelast log).
Proof.
  intros Hbfs Hres. unfold breadthFirstTraverse in Hbfs. rewrite Hres in Hbfs.
  apply bind_inv in Hbfs as ([] & s1 & _ & Hbfs).
  destruct (cb n None) eqn:Hc.
  - injection Hbfs as <- <-. exists []. repeat split; constructor.
  - destruct (bfs_loop_log cb (n, None) direction _ _ [] _ _ _ Hbfs)
      as (later & -> & H1 & H2 & H3); try done.
    + constructor.
    + intros m Hm. by apply elem_of_nil in Hm.
    + by constructor.
    + by exists later.
Qed.

(** X16.  A traversal never reports a node twice once it has a
    predecessor: the report starts with the start node (no predecessor),
    every later call has a predecessor, and the nodes of the later calls
    are pairwise different. *)
Theorem breadthFirstTraverse_reports_once (cb : loc -> option loc -> bool) (a : nodearg)
    (direction : string) (g : Graph) (s s' : Store) (log : visit_log) (n : loc) :
  breadthFirstTraverse cb a direction g s = Ok (log, s') ->
  resolve a g = Some n ->
  exists later,
    log = (n, None) :: later
    /\ NoDup (map fst later)
    /\ Forall (fun e => is_Some (snd e)) later.
Proof.
  intros Hbfs Hres.
  destruct (breadthFirstTraverse_log cb a direction g s s' log n Hbfs Hres)
    as (later & H1 & H2 & H3 & _).
  by exists later.
Qed.

Lemma breadthFirstTraverse_reports_once_witness :
  exists s' later,
    breadthFirstTraverse (fun _ _ => false) (ByName "A") "out" triangleD triangleD_store
      = Ok ((0, None) :: later, s')
    /\ later = [(1, Some 0); (2, Some 0)]
    /\ NoDup (map fst later)
    /\ Forall (fun e => is_Some (snd e)) later.
Proof.
  assert (exists s' log,
            breadthFirstTraverse (fun _ _ => false) (ByName "A") "out" triangleD
              triangleD_store = Ok (log, s')
            /\ log = [(0, None); (1, Some 0); (2, Some 0)]
            /\ resolve (ByName "A") triangleD = Some 0) as (s' & log & Hbfs & Hlog & Hres)
    by (eexists _, _; split; [|split]; vm_compute; reflexivity).
  destruct (breadthFirstTraverse_reports_once _ _ _ _ _ _ _ _ Hbfs Hres)
    as (later & Heq & Hnd & Hpred).
  exists s', later. rewrite Heq in Hbfs. split; [exact Hbfs|].
  split; [|by split]. rewrite Hlog in Heq. by injection Heq as <-.
Defined.

(** X17.  A truthy answer of the callback ends the traversal: in every
    report the callback answered falsy at each call but possibly the last,
    so no call is made after a truthy answer. *)
Theorem breadthFirstTraverse_stops_at_truthy (cb : loc -> option loc -> bool) (a : nodearg)
    (direction : string) (g : Graph) (s s' : Store) (log : visit_log) :
  breadthFirstTraverse cb a direction g s = Ok (log, s') ->
  Forall (fun e => cb (fst e) (snd e) = false) (removelast log).
Proof.
  intros Hbfs. destruct (resolve a g) as [n|] eqn:Hres.
  - by destruct (breadthFirstTraverse_log cb a direction g s s' log n Hbfs Hres)
      as (later & _ & _ & _ & H).
  - unfold breadthFirstTraverse in Hbfs. rewrite Hres in Hbfs.
    injection Hbfs as <- <-. constructor.
Qed.

Lemma breadthFirstTraverse_stops_at_truthy_witness :
  exists s' log,
    breadthFirstTraverse (fun n _ => Nat.eqb n 1) (ByNode 0) "none" triangle triangle_store
      = Ok (log, s')
    /\ log = [(0, None); (1, Some 0)]
    /\ Forall (fun e => Nat.eqb (fst e) 1 = false) (removelast log).
Proof.
  assert (exists s' log,
            breadthFirstTraverse (fun n _ => Nat.eqb n 1) (ByNode 0) "none" triangle
              triangle_store = Ok (log, s')
            /\ log = [(0, None); (1, Some 0)]) as (s' & log & Hbfs & Hlog)
    by (eexists _, _; split; vm_compute; reflexivity).
  exists s', log. split; [exact Hbfs|]. split; [exact Hlog|].
  exact (breadthFirstTraverse_stops_at_truthy _ _ _ _ _ _ _ Hbfs).
Defined.

Lemma resetVisited_lists (l : list loc) :
  forall s : Store,
    forallb (validNode s) l = true ->
    exists s1 F,
      resetVisited l s = Ok (tt, s1)
      /\ nodes_map F s s1
      /\ forall m nd, Node.outEdges (F m nd) = Node.outEdges nd
                      /\ Node.inEdges (F m nd) = Node.inEdges nd
                      /\ Node.edges (F m nd) = Node.edges nd.
Proof.
  induction l as [|n l IH]; intros s Hv; simpl.
  - exists s, (fun _ nd => nd). split; [done|]. split; [apply nodes_map_id|done].
  - simpl in Hv. apply andb_prop in Hv as [Hn Hl]. apply bool_decide_eq_true in Hn.
    destruct (modifyNode_spec n (setVisited false) s Hn) as (s0 & Hmod & Hmap0).
    destruct (IH s0) as (s1 & F & Hreset & Hmap1 & HF).
    { by rewrite (nodes_map_validNode _ s s0 _ Hmap0). }
    eexists s1, _. mstep Hmod. split; [exact Hreset|].
    split; [exact (nodes_map_comp _ _ _ _ _ Hmap0 Hmap1)|].
    intros m nd. simpl.
    destruct (HF m ((if decide (m = n) then setVisited false else id) nd)) as (-> & -> & ->).
    by destruct (decide (m = n)).
Qed.

(** X18.  On a consistent undirected graph the lists [outEdges] and
    [inEdges] are empty, so a traversal with direction ['out'] or ['in']
    calls the callback on the start node and on nothing else. *)
Theorem breadthFirstTraverse_directional_on_undirected (cb : loc -> option loc -> bool)
    (a : nodearg) (direction : string) (g : Graph) (s : Store) (n : loc) :
  consistent g s = true ->
  _directed g = false ->
  resolve a g = Some n ->
  validNode s n = true ->
  direction = "out" \/ direction = "in" ->
  exists s', breadthFirstTraverse cb a direction g s = Ok ([(n, None)], s').
Proof.
  intros Hc Hd Hres Hn Hdir.
  apply consistent_inv in Hc as (Hwf & _ & Hadj).
  destruct (wf_graph_inv _ _ Hwf) as (_ & Hvn & _).
  destruct (resetVisited_lists (nodes g) s Hvn) as (s1 & F & Hreset & Hmap & HF).
  unfold breadthFirstTraverse. rewrite Hres. mstep Hreset.
  destruct (cb n None); [by eexists|].
  apply bool_decide_eq_true in Hn.
  destruct (lookup_lt_is_Some_2 _ _ Hn) as [nd Hnd].
  destruct Hmap as (_ & _ & _ & Hlook).
  assert (node_heap s1 !! n = Some (F n nd)) as Hnd1 by (by rewrite Hlook, Hnd).
  specialize (Hadj n nd Hnd). apply adjacent_inv in Hadj as (_ & A2 & A3).
  rewrite Hd in A2, A3. destruct (HF n nd) as (Ho & Hi & _).
  assert (edgeList direction (F n nd) = []) as Hel.
  { unfold edgeList. destruct Hdir as [-> | ->]; simpl; congruence. }
  simpl. mstep (readNode_Some _ _ _ Hnd1). rewrite Hel. simpl.
  unfold bind, ret. eexists. reflexivity.
Qed.

Lemma breadthFirstTraverse_directional_on_undirected_witness :
  consistent triangle triangle_store = true
  /\ exists s',
       breadthFirstTraverse (fun _ _ => false) (ByName "A") "out" triangle triangle_store
       = Ok ([(0, None)], s').
Proof.
  split; [vm_compute; reflexivity|].
  apply (breadthFirstTraverse_directional_on_undirected _ _ _ _ _ 0);
    [vm_compute; reflexivity | vm_compute; reflexivity | vm_compute; reflexivity
    | vm_compute; reflexivity | by left].
Defined.

(** ** The filters keep the graph consistent *)

Lemma filterNode_loop_consistent (cb : loc -> nat -> bool) (fuel : nat) :
  forall (i len : nat) (g g' : Graph) (s s' : Store) (log log' : list (loc * nat)),
    consistent g s = true ->
    filterNode_loop fuel cb i len g log s = Ok (g', log', s') ->
    consistent g' s' = true.
Proof.
  induction fuel as [|fuel IH]; intros i len g g' s s' log log' Hc Hloop;
    rewrite filterNode_loop_eq in Hloop;
    destruct (bool_decide (i < len));
    try (by injection Hloop as <- <- <-); try done.
  destruct (nodes g !! i) as [n|] eqn:Hi; [|done].
  destruct (cb n i); [by eapply IH|].
  apply bind_inv in Hloop as (g1 & s1 & Hrm & Hloop).
  eapply IH; [|exact Hloop].
  eapply removeNode_consistent_aux; [exact Hc| |exact Hrm].
  by eapply list_elem_of_lookup_2.
Qed.

Lemma filterEdge_loop_consistent (cb : loc -> nat -> bool) (fuel : nat) :
  forall (i len : nat) (g g' : Graph) (s s' : Store) (log log' : list (loc * nat)),
    consistent g s = true ->
    filterEdge_loop fuel cb i len g log s = Ok (g', log', s') ->
    consistent g' s' = true.
Proof.
  induction fuel as [|fuel IH]; intros i len g g' s s' log log' Hc Hloop;
    rewrite filterEdge_loop_eq in Hloop;
    destruct (bool_decide (i < len));
    try (by injection Hloop as <- <- <-); try done.
  destruct (edges g !! i) as [e|] eqn:Hi; [|done].
  destruct (cb e i); [by eapply IH|].
  apply bind_inv in Hloop as (g1 & s1 & Hrm & Hloop).
  eapply IH; [|exact Hloop].
  pose proof Hc as (_ & Hnd & _)%consistent_inv.
  destruct (lookup_split_first _ _ _ Hnd Hi) as [Hsplit Hpre].
  destruct (removeEdge_consistent_aux e g s _ _ Hc Hsplit Hpre)
    as (s2 & ed' & nd1 & nd2 & _ & _ & _ & Hrm' & _ & Hc').
  rewrite Hrm' in Hrm. by injection Hrm as <- <-.
Qed.

Lemma filterNode_loop_total (cb : loc -> nat -> bool) (fuel : nat) :
  forall (i len : nat) (g : Graph) (s : Store) (log : list (loc * nat)),
    consistent g s = true ->
    len = length (nodes g) ->
    len - i <= fuel ->
    exists g' log' s',
      filterNode_loop fuel cb i len g log s = Ok (g', log', s')
      /\ consistent g' s' = true
      /\ length log' = length log + (len - i).
Proof.
  induction fuel as [|fuel IH]; intros i len g s log Hc Hlen Hfuel;
    rewrite filterNode_loop_eq.
  - rewrite bool_decide_eq_false_2 by lia.
    exists g, log, s. split; [done|]. split; [done|]. lia.
  - case_bool_decide as Hi.
    2:{ exists g, log, s. split; [done|]. split; [done|]. lia. }
    destruct (lookup_lt_is_Some_2 (nodes g) i) as [n Hn]; [lia|]. rewrite Hn.
    destruct (cb n i).
    + destruct (IH (S i) len g s (log ++ [(n, i)]) Hc Hlen)
        as (g' & log' & s' & H1 & H2 & H3); [lia|].
      exists g', log', s'. split; [done|]. split; [done|].
      rewrite H3, length_app. simpl. lia.
    + pose proof Hc as (Hwf & _)%consistent_inv.
      destruct (wf_graph_inv _ _ Hwf) as (Hnd & Hvn & Hve).
      destruct (lookup_split_first _ _ _ Hnd Hn) as [Hsplit Hpre].
      destruct (removeNode_at_ok n g s _ _ Hvn Hve Hsplit Hpre)
        as (g1 & s1 & nd & _ & Hrm & _ & _ & Hn1 & _).
      assert (removeNode (ByNode n) g s = Ok (g1, s1)) as Hrm' by exact Hrm.
      pose proof (removeNode_consistent_aux g g1 s s1 n Hc
                    (list_elem_of_lookup_2 _ _ _ Hn) Hrm') as Hc1.
      mstep Hrm'.
      assert (len - 1 = length (nodes g1)) as Hlen1.
      { rewrite Hn1, length_app, length_take, length_drop. lia. }
      destruct (IH i (len - 1) g1 s1 (log ++ [(n, i)]) Hc1 Hlen1)
        as (g' & log' & s' & H1 & H2 & H3); [lia|].
      exists g', log', s'. split; [done|]. split; [done|].
      rewrite H3, length_app. simpl. lia.
Qed.

Lemma filterEdge_loop_total (cb : loc -> nat -> bool) (fuel : nat) :
  forall (i len : nat) (g : Graph) (s : Store) (log : list (loc * nat)),
    consistent g s = true ->
    len = length (edges g) ->
    len - i <= fuel ->
    exists g' log' s',
      filterEdge_loop fuel cb i len g log s = Ok (g', log', s')
      /\ consistent g' s' = true
      /\ length log' = length log + (len - i).
Proof.
  induction fuel as [|fuel IH]; intros i len g s log Hc Hlen Hfuel;
    rewrite filterEdge_loop_eq.
  - rewrite bool_decide_eq_false_2 by lia.
    exists g, log, s. split; [done|]. split; [done|]. lia.
  - case_bool_decide as Hi.
    2:{ exists g, log, s. split; [done|]. split; [done|]. lia. }
    destruct (lookup_lt_is_Some_2 (edges g) i) as [e He]; [lia|]. rewrite He.
    destruct (cb e i).
    + destruct (IH (S i) len g s (log ++ [(e, i)]) Hc Hlen)
        as (g' & log' & s' & H1 & H2 & H3); [lia|].
      exists g', log', s'. split; [done|]. split; [done|].
      rewrite H3, length_app. simpl. lia.
    + pose proof Hc as (_ & Hnd & _)%consistent_inv.
      destruct (lookup_split_first _ _ _ Hnd He) as [Hsplit Hpre].
      destruct (removeEdge_consistent_aux e g s _ _ Hc Hsplit Hpre)
        as (s1 & ed & nd1 & nd2 & _ & _ & _ & Hrm & _ & Hc1).
      mstep Hrm.
      match type of Hc1 with consistent ?G _ = _ => set (g1 := G) in * end.
      assert (len - 1 = length (edges g1)) as Hlen1.
      { subst g1. simpl. rewrite length_app, length_take, length_drop. lia. }
      destruct (IH i (len - 1) g1 s1 (log ++ [(e, i)]) Hc1 Hlen1)
        as (g' & log' & s' & H1 & H2 & H3); [lia|].
      exists g', log', s'. split; [done|]. split; [done|].
      rewrite H3, length_app. simpl. lia.
Qed.

(** X19.  On a consistent graph [filterNode] returns whatever the callback
    answers, also when its answer depends on the position: it calls the
    callback as many times as the graph had nodes, and the graph it leaves
    is consistent, the adjacency lists of every node being again exactly
    the edges left in the graph that touch it. *)
Theorem filterNode_keeps_consistent (cb : loc -> nat -> bool) (g : Graph) (s : Store) :
  consistent g s = true ->
  exists g' s' calls,
    filterNode cb g s = Ok (g', calls, s')
    /\ consistent g' s' = true
    /\ length calls = length (nodes g).
Proof.
  intros Hc. unfold filterNode.
  destruct (filterNode_loop_total cb (length (nodes g)) 0 (length (nodes g)) g s [] Hc)
    as (g' & log' & s' & H1 & H2 & H3); [done|lia|].
  exists g', s', log'. split; [done|]. split; [done|]. rewrite H3. simpl. lia.
Qed.

Lemma filterNode_keeps_consistent_witness :
  consistent triangleD triangleD_store = true
  /\ exists g' s' calls,
       filterNode (fun n i => Nat.eqb i 0) triangleD triangleD_store = Ok (g', calls, s')
       /\ nodes g' = [0]
       /\ consistent g' s' = true
       /\ length calls = length (nodes triangleD).
Proof.
  split; [vm_compute; reflexivity|].
  assert (exists g2 s2 calls2,
            filterNode (fun n i => Nat.eqb i 0) triangleD triangleD_store
              = Ok (g2, calls2, s2) /\ nodes g2 = [0]) as (g2 & s2 & calls2 & Hf2 & Hn)
    by (eexists _, _, _; split; vm_compute; reflexivity).
  destruct (filterNode_keeps_consistent (fun n i => Nat.eqb i 0) triangleD triangleD_store)
    as (g' & s' & calls & Hf & Hc & Hl); [vm_compute; reflexivity|].
  rewrite Hf2 in Hf. injection Hf as <- <- <-.
  exists g2, s2, calls2. split; [exact Hf2|]. split; [exact Hn|]. by split.
Defined.

(** X20.  On a consistent graph [filterEdge] returns whatever the callback
    answers, also when its answer depends on the position: it calls the
    callback as many times as the graph had edges and leaves the graph
    consistent. *)
Theorem filterEdge_keeps_consistent (cb : loc -> nat -> bool) (g : Graph) (s : Store) :
  consistent g s = true ->
  exists g' s' calls,
    filterEdge cb g s = Ok (g', calls, s')
    /\ consistent g' s' = true
    /\ length calls = length (edges g).
Proof.
  intros Hc. unfold filterEdge.
  destruct (filterEdge_loop_total cb (length (edges g)) 0 (length (edges g)) g s [] Hc)
    as (g' & log' & s' & H1 & H2 & H3); [done|lia|].
  exists g', s', log'. split; [done|]. split; [done|]. rewrite H3. simpl. lia.
Qed.

Lemma filterEdge_keeps_consistent_witness :
  consistent triangleD triangleD_store = true
  /\ exists g' s' calls,
       filterEdge (fun e i => Nat.eqb i 0) triangleD triangleD_store = Ok (g', calls, s')
       /\ edges g' = [0]
       /\ consistent g' s' = true
       /\ length calls = length (edges triangleD).
Proof.
  split; [vm_compute; reflexivity|].
  assert (exists g2 s2 calls2,
            filterEdge (fun e i => Nat.eqb i 0) triangleD triangleD_store
              = Ok (g2, calls2, s2) /\ edges g2 = [0]) as (g2 & s2 & calls2 & Hf2 & Hn)
    by (eexists _, _, _; split; vm_compute; reflexivity).
  destruct (filterEdge_keeps_consistent (fun e i => Nat.eqb i 0) triangleD triangleD_store)
    as (g' & s' & calls & Hf & Hc & Hl); [vm_compute; reflexivity|].
  rewrite Hf2 in Hf. injection Hf as <- <- <-.
  exists g2, s2, calls2. split; [exact Hf2|]. split; [exact Hn|]. by split.
Defined.

(** ** Keys and names *)

(** X21.  Two ordered pairs of names that differ get different pair keys
    when the first names of both contain no ['-']: for such names the pair
    index cannot confuse two pairs. *)
Theorem edgeKey_distinct (a b c d : string) :
  dashFree a = true -> dashFree c = true ->
  (a, b) <> (c, d) ->
  edgeKey a b <> edgeKey c d.
Proof.
  intros Ha Hc Hne Hkey. destruct (edgeKey_inj a b c d Ha Hc Hkey) as [-> ->]. done.
Qed.

Lemma edgeKey_distinct_witness : edgeKey "A" "B-1" <> edgeKey "B" "A-1".
Proof.
  apply edgeKey_distinct; [reflexivity | reflexivity | discriminate].
Defined.

Lemma clone_collapses_witness :
  exists nd,
    clone edgeAB edgeAB_store =
      Ok (mkGraph (_directed edgeAB) [length (node_heap edgeAB_store)] []
                  {["undefined" := length (node_heap edgeAB_store)]} ∅,
          mkStore (node_heap edgeAB_store ++ [nd]) (edge_heap edgeAB_store)
                  (obj_heap edgeAB_store))
    /\ Node.name nd = "".
Proof.
  apply clone_collapses; [vm_compute; reflexivity | vm_compute; reflexivity |].
  vm_compute. discriminate.
Defined.

Lemma name_indexed_intro (g : Graph) (s : Store) :
  (forall k n, _nodesMap g !! k = Some n ->
               exists nd, node_heap s !! n = Some nd /\ Node.name nd = k) ->
  name_indexed g s = true.
Proof.
  intros H. unfold name_indexed. apply forallb_forall. intros [k n] Hin.
  apply list_elem_of_In, elem_of_map_to_list in Hin.
  destruct (H k n Hin) as (nd & Hnd & <-). simpl. rewrite Hnd.
  apply String.eqb_refl.
Qed.

(** X22.  With an option whose name is a string that no object inherits,
    [addNode] keeps the name index keyed by the node names: the returned
    node carries that name and is found under it, and every entry of the
    index still leads to a node of that name. *)
Theorem addNode_keeps_name_indexed (opt : value) (g g' : Graph) (s s' : Store)
    (n : loc) (k : string) :
  name_indexed g s = true ->
  getName opt s = Ok (Some k, s) ->
  inherited k = false ->
  addNode opt g s = Ok (n, g', s') ->
  name_indexed g' s' = true
  /\ getNodeByName k g' = Some n
  /\ exists nd, node_heap s' !! n = Some nd /\ Node.name nd = k.
Proof.
  intros Hidx Hname _ Hadd. unfold addNode in Hadd.
  rewrite (bind_Ok _ _ _ _ _ Hname) in Hadd. unfold propKey in Hadd.
  unfold getNodeByName.
  destruct (_nodesMap g !! k) as [n0|] eqn:Hk.
  - injection Hadd as <- <- <-. split; [done|]. split; [done|].
    by apply (name_indexed_lookup g s).
  - apply bind_inv in Hadd as (node & s2 & Hnew & Hret).
    injection Hret as <- <- <-.
    unfold newNode in Hnew. rewrite (bind_Ok _ _ _ _ _ Hname) in Hnew.
    unfold allocNode in Hnew. injection Hnew as <- <-. simpl.
    split; [|split].
    + apply name_indexed_intro. simpl. intros k' n' Hl.
      destruct (decide (k = k')) as [<-|Hne].
      * rewrite lookup_insert_eq in Hl. injection Hl as <-.
        eexists. by rewrite lookup_app_r, Nat.sub_diag by lia.
      * rewrite lookup_insert_ne in Hl by done.
        destruct (name_indexed_lookup g s k' n' Hidx Hl) as (nd & Hnd & Hnm).
        exists nd. split; [|done]. by apply lookup_app_l_Some.
    + by rewrite lookup_insert_eq.
    + eexists. by rewrite lookup_app_r, Nat.sub_diag by lia.
Qed.

Lemma addNode_keeps_name_indexed_witness :
  name_indexed pairAB pairAB_store = true
  /\ inherited "C" = false
  /\ exists n g' s',
       addNode (VObj 2) pairAB pairAB_store = Ok (n, g', s')
       /\ name_indexed g' s' = true
       /\ getNodeByName "C" g' = Some n.
Proof.
  split; [vm_compute; reflexivity|]. split; [vm_compute; reflexivity|].
  assert (exists n g' s', addNode (VObj 2) pairAB pairAB_store = Ok (n, g', s'))
    as (n & g' & s' & Hadd) by (eexists _, _, _; vm_compute; reflexivity).
  exists n, g', s'. split; [exact Hadd|].
  destruct (addNode_keeps_name_indexed (VObj 2) pairAB g' pairAB_store s' n "C")
    as (H1 & H2 & _);
    [vm_compute; reflexivity | vm_compute; reflexivity | vm_compute; reflexivity
     | exact Hadd |].
  by split.
Defined.

(** ** The pair index holds the edges of the graph *)

Lemma edge_indexed_inv (g : Graph) (s : Store) :
  edge_indexed g s = true <->
  forall e, e ∈ edges g ->
    exists ed nd1 nd2,
      edge_heap s !! e = Some ed
      /\ node_heap s !! Edge.node1 ed = Some nd1
      /\ node_heap s !! Edge.node2 ed = Some nd2
      /\ _edgesMap g !! edgeKey (Node.name nd1) (Node.name nd2) = Some e.
Proof.
  unfold edge_indexed. rewrite forallb_forall. split.
  - intros H e He. apply list_elem_of_In, H in He.
    destruct (edge_heap s !! e) as [ed|]; [|done].
    destruct (node_heap s !! Edge.node1 ed) as [nd1|] eqn:N1; [|done].
    destruct (node_heap s !! Edge.node2 ed) as [nd2|] eqn:N2; [|done].
    apply bool_decide_eq_true in He. by exists ed, nd1, nd2.
  - intros H e He. apply list_elem_of_In, H in He.
    destruct He as (ed & nd1 & nd2 & -> & -> & -> & Hk).
    by apply bool_decide_eq_true.
Qed.

(** X25.  On a graph whose pair index holds its edges, [getEdge] on the two
    endpoints of an edge of the graph, in the edge's own order, returns
    that edge, on directed and undirected graphs alike. *)
Theorem getEdge_finds_edge (g : Graph) (s : Store) (e : loc) :
  edge_indexed g s = true ->
  e ∈ edges g ->
  exists ed,
    edge_heap s !! e = Some ed
    /\ getEdge (ByNode (Edge.node1 ed)) (ByNode (Edge.node2 ed)) g s = Ok (Some e, s).
Proof.
  intros Hidx He.
  destruct (proj1 (edge_indexed_inv g s) Hidx e He) as (ed & nd1 & nd2 & Hed & N1 & N2 & Hk).
  exists ed. split; [done|]. unfold getEdge. simpl argName.
  mstep (bind_Ok _ (fun nd => ret (Node.name nd)) _ _ _ (readNode_Some _ _ _ N1)).
  mstep (bind_Ok _ (fun nd => ret (Node.name nd)) _ _ _ (readNode_Some _ _ _ N2)).
  rewrite Hk. by destruct (_directed g).
Qed.

Lemma getEdge_finds_edge_witness :
  edge_indexed triangle triangle_store = true
  /\ exists ed,
       edge_heap triangle_store !! 1 = Some ed
       /\ getEdge (ByNode (Edge.node1 ed)) (ByNode (Edge.node2 ed)) triangle triangle_store
          = Ok (Some 1, triangle_store).
Proof.
  split; [vm_compute; reflexivity|].
  apply getEdge_finds_edge; [vm_compute; reflexivity|].
  apply (list_elem_of_lookup_2 _ 1). vm_compute; reflexivity.
Defined.

(** X26.  [addEdge] keeps the pair index in step with the graph: on a
    well-formed graph whose pair index holds its edges, it still does after
    the call. *)
Theorem addEdge_keeps_edge_indexed (a1 a2 : nodearg) (opt : value) (g g' : Graph)
    (s s' : Store) (r : option loc) :
  wf_graph g s = true ->
  edge_indexed g s = true ->
  addEdge a1 a2 opt g s = Ok (r, g', s') ->
  edge_indexed g' s' = true.
Proof.
  intros Hwf Hidx Hadd.
  destruct (addEdge_cases _ _ _ _ _ _ _ _ Hadd)
    as [(-> & -> & _)|(n1 & n2 & nd1 & nd2 & R1 & R2 & N1 & N2 & Hk & -> & -> & Hmap)];
    [done|].
  destruct (wf_graph_inv _ _ Hwf) as (_ & _ & Hve).
  pose proof (valid_edges_lt _ _ Hve) as Hlt.
  destruct Hmap as (_ & Heh & _ & Hlook). simpl in Heh, Hlook.
  apply edge_indexed_inv. simpl. intros e He.
  apply elem_of_app in He as [He|He].
  - destruct (proj1 (edge_indexed_inv g s) Hidx e He)
      as (ed & m1 & m2 & Hed & M1 & M2 & Hke).
    exists ed, (linkNode (_directed g) n1 n2 (length (edge_heap s)) (Edge.node1 ed) m1),
      (linkNode (_directed g) n1 n2 (length (edge_heap s)) (Edge.node2 ed) m2).
    split; [rewrite Heh; by apply lookup_app_l_Some|].
    split; [by rewrite Hlook, M1|]. split; [by rewrite Hlook, M2|].
    rewrite ?linkNode_name. rewrite lookup_insert_ne; [done|]. congruence.
  - apply list_elem_of_singleton in He as ->.
    exists (Edge.mk opt n1 n2), (linkNode (_directed g) n1 n2 (length (edge_heap s)) n1 nd1),
      (linkNode (_directed g) n1 n2 (length (edge_heap s)) n2 nd2).
    split; [rewrite Heh, lookup_app_r by lia; by rewrite Nat.sub_diag|].
    simpl. split; [by rewrite Hlook, N1|]. split; [by rewrite Hlook, N2|].
    rewrite ?linkNode_name. by rewrite lookup_insert_eq.
Qed.

Lemma addEdge_keeps_edge_indexed_witness :
  edge_indexed triangle triangle_store = true
  /\ exists r g' s',
       addEdge (ByName "C") (ByName "A") VUndefined triangle triangle_store = Ok (r, g', s')
       /\ edges g' = [0; 1; 2; 3]
       /\ edge_indexed g' s' = true.
Proof.
  split; [vm_compute; reflexivity|].
  assert (exists r g' s',
            addEdge (ByName "C") (ByName "A") VUndefined triangle triangle_store
              = Ok (r, g', s') /\ edges g' = [0; 1; 2; 3]) as (r & g' & s' & Hadd & He)
    by (eexists _, _, _; split; vm_compute; reflexivity).
  exists r, g', s'. split; [exact Hadd|]. split; [exact He|].
  eapply addEdge_keeps_edge_indexed; [| |exact Hadd]; vm_compute; reflexivity.
Defined.

Lemma unlinkNode_name (d : bool) (n1 n2 e m : loc) (nd : Node.t) :
  Node.name (unlinkNode d n1 n2 e m nd) = Node.name nd.
Proof. done. Qed.

(** X27.  [removeEdge] of an edge of the graph keeps the pair index in step
    too, and the key of the removed edge is left without an entry, so that
    on a directed graph [getEdge] on its endpoints answers absent. *)
Theorem removeEdge_keeps_edge_indexed (g : Graph) (s : Store) (e : loc) :
  consistent g s = true ->
  edge_indexed g s = true ->
  e ∈ edges g ->
  exists g' s' ed,
    removeEdge e g s = Ok (g', s')
    /\ edge_indexed g' s' = true
    /\ edge_heap s' !! e = Some ed
    /\ (_directed g = true ->
        getEdge (ByNode (Edge.node1 ed)) (ByNode (Edge.node2 ed)) g' s' = Ok (None, s')).
Proof.
  intros Hc Hidx Hin.
  pose proof Hc as (_ & Hnd & _)%consistent_inv.
  pose proof Hin as Hin'.
  apply list_elem_of_split_l in Hin' as (pre & post & Hsplit & Hpre).
  destruct (removeEdge_consistent_aux e g s pre post Hc Hsplit Hpre)
    as (s' & ed & nd1 & nd2 & Hed & N1 & N2 & Hrm & Hmap & _).
  destruct Hmap as (_ & Heh & _ & Hlook).
  destruct (proj1 (edge_indexed_inv g s) Hidx e Hin)
    as (ed0 & m1 & m2 & Hed0 & M1 & M2 & Hke).
  rewrite Hed in Hed0. injection Hed0 as <-.
  rewrite N1 in M1. injection M1 as <-. rewrite N2 in M2. injection M2 as <-.
  eexists _, s', ed. split; [exact Hrm|]. split; [|split].
  - apply edge_indexed_inv. simpl. intros e' He'.
    assert (e' ∈ edges g) as Hg.
    { rewrite Hsplit. apply elem_of_app in He' as [He'|He'];
        apply elem_of_app; [by left | right; by apply list_elem_of_further]. }
    assert (e' <> e) as Hne.
    { intros ->. rewrite Hsplit in Hnd. apply NoDup_app in Hnd as (_ & _ & H3).
      apply NoDup_cons in H3 as [H3 _].
      apply elem_of_app in He' as [He'|He']; [by apply Hpre | by apply H3]. }
    destruct (proj1 (edge_indexed_inv g s) Hidx e' Hg)
      as (ed' & k1 & k2 & Hed' & K1 & K2 & Hke').
    exists ed', (unlinkNode (_directed g) (Edge.node1 ed) (Edge.node2 ed) e (Edge.node1 ed') k1),
      (unlinkNode (_directed g) (Edge.node1 ed) (Edge.node2 ed) e (Edge.node2 ed') k2).
    split; [by rewrite Heh|].
    split; [by rewrite Hlook, K1|]. split; [by rewrite Hlook, K2|].
    rewrite ?unlinkNode_name. rewrite lookup_delete_ne; [done|]. congruence.
  - by rewrite Heh.
  - intros Hd. unfold getEdge. simpl argName.
    assert (node_heap s' !! Edge.node1 ed
            = Some (unlinkNode (_directed g) (Edge.node1 ed) (Edge.node2 ed) e
                               (Edge.node1 ed) nd1)) as N1'
      by (by rewrite Hlook, N1).
    assert (node_heap s' !! Edge.node2 ed
            = Some (unlinkNode (_directed g) (Edge.node1 ed) (Edge.node2 ed) e
                               (Edge.node2 ed) nd2)) as N2'
      by (by rewrite Hlook, N2).
    mstep (bind_Ok _ (fun nd => ret (Node.name nd)) _ _ _ (readNode_Some _ _ _ N1')).
    mstep (bind_Ok _ (fun nd => ret (Node.name nd)) _ _ _ (readNode_Some _ _ _ N2')).
    simpl. rewrite Hd. rewrite ?unlinkNode_name. by rewrite lookup_delete_eq.
Qed.

Lemma removeEdge_keeps_edge_indexed_witness :
  consistent triangleD triangleD_store = true
  /\ edge_indexed triangleD triangleD_store = true
  /\ exists g' s' ed,
       removeEdge 1 triangleD triangleD_store = Ok (g', s')
       /\ edge_indexed g' s' = true
       /\ edge_heap s' !! 1 = Some ed
       /\ (_directed triangleD = true ->
           getEdge (ByNode (Edge.node1 ed)) (ByNode (Edge.node2 ed)) g' s' = Ok (None, s')).
Proof.
  split; [vm_compute; reflexivity|]. split; [vm_compute; reflexivity|].
  apply removeEdge_keeps_edge_indexed;
    [vm_compute; reflexivity | vm_compute; reflexivity |].
  apply (list_elem_of_lookup_2 _ 1). vm_compute; reflexivity.
Defined.
